(** * The Last Helldiver: a shallow embedding of the simulation loop

    The program is a single C++ translation unit (main_commented.cpp) built
    on SFML 2.  This development embeds its classes ([Entity], [Player],
    [Enemy], [Bullet], [SafeZone]) and one iteration of the [main] loop as
    Rocq functions, and proves the properties stated about them.

    Modelling conventions.
    - C++ [float] is IEEE-754 binary32, evaluated operation by operation
      with round-to-nearest-even (the standard library's [SpecFloat] at
      precision 24).  [double] (used by [std::pow]) is binary64.
    - C++ [int] values (health, score, kill count) are [Z]; signed overflow
      is undefined behaviour in C++ and is out of reach of the values the
      loop produces, so no wrap-around is written.
    - What the program reads from its environment (events, the steady clock
      in microseconds, the keyboard, the mouse, [rand()]) is an explicit
      input of each frame; what it writes (sound, drawing, the score file,
      the sleep, closing the window) is recorded in the state. *)

From Stdlib Require Import ZArith Zpower List Bool String Ascii Lia.
From Stdlib Require Import Floats.SpecFloat.
From Stdlib Require Import DecimalString.
Import ListNotations.
Local Open Scope Z_scope.

(** ** Floating point *)

(** C++ [float] and [double] values. *)
Definition float : Type := spec_float.
Definition double : Type := spec_float.

(** [float]: IEEE-754 binary32. *)
Module F32.
Definition prec : Z := 24.
Definition emax : Z := 128.

(** Conversion of an integer ([int], [Int64]) to [float]. *)
Definition of_int (z : Z) : float := binary_normalize prec emax z 0 false.

Definition zero : float := S754_zero false.
Definition add : float -> float -> float := SFadd prec emax.
Definition sub : float -> float -> float := SFsub prec emax.
Definition mul : float -> float -> float := SFmul prec emax.
Definition div : float -> float -> float := SFdiv prec emax.
Definition sqrt : float -> float := SFsqrt prec emax.
(** [x < y], [x > y] and [x == y] of C++; all false on NaN. *)
Definition lt (x y : float) : bool := SFltb x y.
Definition gt (x y : float) : bool := SFltb y x.
Definition eqb (x y : float) : bool := SFeqb x y.
Definition le (x y : float) : bool := SFleb x y.
Definition valid (x : float) : bool := valid_binary prec emax x.
End F32.

(** [double]: IEEE-754 binary64, with the two conversions. *)
Module F64.
Definition prec : Z := 53.
Definition emax : Z := 1024.

Definition of_float (x : float) : double :=
  match x with
  | S754_finite s m e => binary_round prec emax s m e
  | _ => x
  end.
Definition to_float (x : double) : float :=
  match x with
  | S754_finite s m e => binary_round F32.prec F32.emax s m e
  | _ => x
  end.
Definition add : double -> double -> double := SFadd prec emax.
Definition mul : double -> double -> double := SFmul prec emax.
Definition sqrt : double -> double := SFsqrt prec emax.
(** [std::pow(x, 2)]: the square, which is what a correctly rounded
    [pow] returns. *)
Definition pow2 (x : double) : double := mul x x.
End F64.

(** ** Constants (lines 9-22) *)

Definition WINDOW_WIDTH : Z := 1200.
Definition WINDOW_HEIGHT : Z := 700.

Definition PLAYER_SPEED : float := F32.of_int 3.
Definition ENEMY_SPEED : float := F32.of_int 1.
Definition BULLET_SPEED : float := F32.of_int 7.

(** [0.1f] is the binary32 number nearest to one tenth. *)
Definition SAFE_ZONE_SHRINK_RATE : float := S754_finite false 13421773 (-27).

(** [0.3f] is the binary32 number nearest to three tenths. *)
Definition BULLET_COOLDOWN : float := S754_finite false 10066330 (-25).

(** The literal [0.5f] of line 141. *)
Definition HALF : float := S754_finite false 8388608 (-24).

(** ** sf::Vector2f *)

Record Vector2f : Type := mkVec { vx : float; vy : float }.

Definition vzero : Vector2f := mkVec F32.zero F32.zero.
Definition vadd (a b : Vector2f) : Vector2f :=
  mkVec (F32.add (vx a) (vx b)) (F32.add (vy a) (vy b)).
Definition vsub (a b : Vector2f) : Vector2f :=
  mkVec (F32.sub (vx a) (vx b)) (F32.sub (vy a) (vy b)).
Definition vscale (a : Vector2f) (k : float) : Vector2f :=
  mkVec (F32.mul (vx a) k) (F32.mul (vy a) k).
Definition vdiv (a : Vector2f) (k : float) : Vector2f :=
  mkVec (F32.div (vx a) k) (F32.div (vy a) k).
(** [operator==] on vectors. *)
Definition veqb (a b : Vector2f) : bool :=
  F32.eqb (vx a) (vx b) && F32.eqb (vy a) (vy b).

(** ** Entity, Player, Enemy (lines 25-93) *)

(** The sprite is kept as its position, the only part the simulation
    reads. *)
Record Entity : Type := mkEntity {
  position : Vector2f;
  velocity : Vector2f;
  speed : float;
  health : Z
}.

Definition Entity_new (x y spd : float) (hp : Z) : Entity :=
  mkEntity (mkVec x y) vzero spd hp.

Definition move (e : Entity) : Entity :=
  mkEntity (vadd (position e) (velocity e)) (velocity e) (speed e) (health e).

Definition isAlive (e : Entity) : bool := 0 <? health e.

Definition takeDamage (e : Entity) (amount : Z) : Entity :=
  mkEntity (position e) (velocity e) (speed e) (health e - amount).

Definition getPosition (e : Entity) : Vector2f := position e.
Definition getHealth (e : Entity) : Z := health e.

Definition Player_new : Entity :=
  Entity_new (F32.of_int (WINDOW_WIDTH / 2)) (F32.of_int (WINDOW_HEIGHT / 2))
             PLAYER_SPEED 100.

(** The keyboard state read by [sf::Keyboard::isKeyPressed]. *)
Record Keys : Type := mkKeys { keyW : bool; keyS : bool; keyA : bool; keyD : bool }.

Definition handleInput (k : Keys) (p : Entity) : Entity :=
  let s := speed p in
  let v0 := vzero in
  let v1 := if keyW k then mkVec (vx v0) (F32.sub (vy v0) s) else v0 in
  let v2 := if keyS k then mkVec (vx v1) (F32.add (vy v1) s) else v1 in
  let v3 := if keyA k then mkVec (F32.sub (vx v2) s) (vy v2) else v2 in
  let v4 := if keyD k then mkVec (F32.add (vx v3) s) (vy v3) else v3 in
  mkEntity (position p) v4 (speed p) (health p).

(** [Enemy(x, y, texture)]; [r] is the value [rand()] returned for the
    speed. *)
Definition Enemy_new (x y : float) (r : Z) : Entity :=
  Entity_new x y
    (F32.add ENEMY_SPEED (F32.div (F32.of_int (Z.rem r 20)) (F32.of_int 10)))
    50.

(** [Enemy::update]. *)
Definition Enemy_update (playerPos : Vector2f) (e : Entity) : Entity :=
  let direction := vsub playerPos (position e) in
  let length :=
    F32.sqrt (F32.add (F32.mul (vx direction) (vx direction))
                      (F32.mul (vy direction) (vy direction))) in
  if F32.gt length F32.zero then
    mkEntity (position e) (vscale (vdiv direction length) (speed e))
             (speed e) (health e)
  else e.

(** ** Bullet (lines 96-126) *)

Record Bullet : Type := mkBullet {
  bpos : Vector2f;
  bvel : Vector2f;
  bspeed : float;
  bradius : float
}.

Definition Bullet_new (x y dirX dirY : float) : Bullet :=
  let spd := BULLET_SPEED in
  let length := F32.sqrt (F32.add (F32.mul dirX dirX) (F32.mul dirY dirY)) in
  let v :=
    if F32.gt length F32.zero
    then mkVec (F32.mul (F32.div dirX length) spd)
               (F32.mul (F32.div dirY length) spd)
    else vzero in
  mkBullet (mkVec x y) v spd (F32.of_int 5).

Definition Bullet_move (b : Bullet) : Bullet :=
  mkBullet (vadd (bpos b) (bvel b)) (bvel b) (bspeed b) (bradius b).

Definition getRadius (b : Bullet) : float := bradius b.

(** ** SafeZone (lines 129-166) *)

Record SafeZone : Type := mkZone {
  shrinkRate : float;
  minRadius : float;
  radius : float
}.

Definition SafeZone_new : SafeZone :=
  mkZone SAFE_ZONE_SHRINK_RATE (F32.of_int 50)
         (F32.mul (F32.of_int (Z.min WINDOW_WIDTH WINDOW_HEIGHT)) HALF).

Definition SafeZone_update (z : SafeZone) : SafeZone :=
  if F32.gt (radius z) (minRadius z)
  then mkZone (shrinkRate z) (minRadius z) (F32.sub (radius z) (shrinkRate z))
  else z.

(** [std::pow] and [std::sqrt] work on [double] here; the result is
    rounded when it is stored in the [float] variable [distance]. *)
Definition isInside (z : SafeZone) (pos : Vector2f) : bool :=
  let center := mkVec (F32.of_int (WINDOW_WIDTH / 2)) (F32.of_int (WINDOW_HEIGHT / 2)) in
  let distance :=
    F64.to_float
      (F64.sqrt (F64.add (F64.pow2 (F64.of_float (F32.sub (vx pos) (vx center))))
                         (F64.pow2 (F64.of_float (F32.sub (vy pos) (vy center)))))) in
  F32.lt distance (radius z).

(** ** The environment of the main loop *)

Inductive MouseButton : Type := ButtonLeft | ButtonRight | ButtonMiddle.

Inductive EventType : Type :=
| Closed
| MouseButtonPressed (button : MouseButton)
| OtherEvent.

(** An event returned by [pollEvent], with what the handler observes while
    it treats it: the steady clock (microseconds) and the mouse position. *)
Record Event : Type := mkEvent {
  etype : EventType;
  etime : Z;
  emouse : Z * Z
}.

(** What one iteration of the loop reads. [frameTime] is the steady clock
    when [clock.restart()] runs; [spawnRand] holds the values of the three
    [rand()] calls of line 343 (x, y, speed). *)
Record FrameInput : Type := mkInput {
  events : list Event;
  frameTime : Z;
  keys : Keys;
  spawnRand : Z * Z * Z
}.

Inductive Effect : Type :=
| PlayShoot
| DrawFrame (hud : string)
| WriteFile (name content : string)
| DrawGameOver (text : string)
| Sleep (seconds : Z)
| CloseWindow
| DrawStartScreen (title lore prompt : string).

(** ** The state of [main] (lines 236-266) *)

Record Game : Type := mkGame {
  player : Entity;
  enemies : list Entity;
  bullets : list Bullet;
  safeZone : SafeZone;
  clock : Z;
  bulletClock : Z;
  timeSinceLastSpawn : float;
  score : Z;
  killCount : Z;
  windowOpen : bool;
  scoreFile : option string;
  trace : list Effect
}.

Definition set_player (p : Entity) (g : Game) : Game :=
  mkGame p (enemies g) (bullets g) (safeZone g) (clock g) (bulletClock g)
         (timeSinceLastSpawn g) (score g) (killCount g) (windowOpen g)
         (scoreFile g) (trace g).
Definition set_enemies (es : list Entity) (g : Game) : Game :=
  mkGame (player g) es (bullets g) (safeZone g) (clock g) (bulletClock g)
         (timeSinceLastSpawn g) (score g) (killCount g) (windowOpen g)
         (scoreFile g) (trace g).
Definition set_bullets (bs : list Bullet) (g : Game) : Game :=
  mkGame (player g) (enemies g) bs (safeZone g) (clock g) (bulletClock g)
         (timeSinceLastSpawn g) (score g) (killCount g) (windowOpen g)
         (scoreFile g) (trace g).
Definition set_safeZone (z : SafeZone) (g : Game) : Game :=
  mkGame (player g) (enemies g) (bullets g) z (clock g) (bulletClock g)
         (timeSinceLastSpawn g) (score g) (killCount g) (windowOpen g)
         (scoreFile g) (trace g).
Definition set_clock (t : Z) (g : Game) : Game :=
  mkGame (player g) (enemies g) (bullets g) (safeZone g) t (bulletClock g)
         (timeSinceLastSpawn g) (score g) (killCount g) (windowOpen g)
         (scoreFile g) (trace g).
Definition set_bulletClock (t : Z) (g : Game) : Game :=
  mkGame (player g) (enemies g) (bullets g) (safeZone g) (clock g) t
         (timeSinceLastSpawn g) (score g) (killCount g) (windowOpen g)
         (scoreFile g) (trace g).
Definition set_timeSinceLastSpawn (t : float) (g : Game) : Game :=
  mkGame (player g) (enemies g) (bullets g) (safeZone g) (clock g) (bulletClock g)
         t (score g) (killCount g) (windowOpen g) (scoreFile g) (trace g).
Definition set_score (s k : Z) (g : Game) : Game :=
  mkGame (player g) (enemies g) (bullets g) (safeZone g) (clock g) (bulletClock g)
         (timeSinceLastSpawn g) s k (windowOpen g) (scoreFile g) (trace g).
Definition set_windowOpen (b : bool) (g : Game) : Game :=
  mkGame (player g) (enemies g) (bullets g) (safeZone g) (clock g) (bulletClock g)
         (timeSinceLastSpawn g) (score g) (killCount g) b (scoreFile g) (trace g).
Definition set_scoreFile (f : option string) (g : Game) : Game :=
  mkGame (player g) (enemies g) (bullets g) (safeZone g) (clock g) (bulletClock g)
         (timeSinceLastSpawn g) (score g) (killCount g) (windowOpen g) f (trace g).
Definition emit (es : list Effect) (g : Game) : Game :=
  mkGame (player g) (enemies g) (bullets g) (safeZone g) (clock g) (bulletClock g)
         (timeSinceLastSpawn g) (score g) (killCount g) (windowOpen g)
         (scoreFile g) (trace g ++ es).

(** [rand() % WINDOW_WIDTH, rand() % WINDOW_HEIGHT] and the speed draw of
    the [Enemy] constructor; [%] truncates as in C++. *)
Definition spawnEnemy (r : Z * Z * Z) : Entity :=
  let '(rx, ry, rs) := r in
  Enemy_new (F32.of_int (Z.rem rx WINDOW_WIDTH)) (F32.of_int (Z.rem ry WINDOW_HEIGHT)) rs.

(** The state when the loop is entered: [initRand i] are the [rand()]
    values of the i-th initial enemy, [t0] the steady clock when the two
    clocks are created, [file] what game_score.txt holds beforehand. *)
Definition init (initRand : nat -> Z * Z * Z) (t0 : Z) (file : option string) : Game :=
  mkGame Player_new
         (map (fun i => spawnEnemy (initRand i)) (seq 0 5))
         []
         SafeZone_new
         t0 t0
         F32.zero
         0 0
         true
         file
         [].

(** ** One iteration of the loop (lines 269-380) *)

(** [sf::Time::asSeconds] of SFML 2: the [Int64] count of microseconds,
    converted to [float], divided by [1000000.f]. *)
Definition asSeconds (us : Z) : float :=
  F32.div (F32.of_int us) (F32.of_int 1000000).

(** Lines 277-283. *)
Definition canFire (ev : Event) (g : Game) : bool :=
  F32.gt (asSeconds (etime ev - bulletClock g)) BULLET_COOLDOWN.

Definition fire (ev : Event) (g : Game) : Game :=
  let playerPos := getPosition (player g) in
  let mousePos := emouse ev in
  let b := Bullet_new (vx playerPos) (vy playerPos)
             (F32.sub (F32.of_int (fst mousePos)) (vx playerPos))
             (F32.sub (F32.of_int (snd mousePos)) (vy playerPos)) in
  set_bulletClock (etime ev) (emit [PlayShoot] (set_bullets (bullets g ++ [b]) g)).

Definition handleEvent (ev : Event) (g : Game) : Game :=
  match etype ev with
  | Closed => emit [CloseWindow] (set_windowOpen false g)
  | MouseButtonPressed ButtonLeft => if canFire ev g then fire ev g else g
  | _ => g
  end.

(** [while (window.pollEvent(event))]: a closed window yields no more
    events. *)
Fixpoint pollEvents (evs : list Event) (g : Game) : Game :=
  match evs with
  | [] => g
  | ev :: rest =>
      if windowOpen g then pollEvents rest (handleEvent ev g) else g
  end.

(** Lines 287-288. *)
Definition tick (now : Z) (g : Game) : Game :=
  let deltaTime := asSeconds (now - clock g) in
  set_timeSinceLastSpawn (F32.add (timeSinceLastSpawn g) deltaTime)
    (set_clock now g).

(** Lines 291-292. *)
Definition updatePlayer (k : Keys) (g : Game) : Game :=
  set_player (move (handleInput k (player g))) g.

(** Lines 295-300. *)
Definition outOfWindow (p : Vector2f) : bool :=
  F32.lt (vx p) (F32.of_int 0) || F32.gt (vx p) (F32.of_int WINDOW_WIDTH)
  || F32.lt (vy p) (F32.of_int 0) || F32.gt (vy p) (F32.of_int WINDOW_HEIGHT).

Fixpoint bulletLoop (bs : list Bullet) : list Bullet :=
  match bs with
  | [] => []
  | b :: rest =>
      let b' := Bullet_move b in
      if outOfWindow (bpos b') then bulletLoop rest else b' :: bulletLoop rest
  end.

Definition updateBullets (g : Game) : Game :=
  set_bullets (bulletLoop (bullets g)) g.

(** Lines 310-314: the collision test of a bullet against an enemy. *)
Definition bulletHits (e : Entity) (b : Bullet) : bool :=
  let dx := F32.sub (vx (bpos b)) (vx (getPosition e)) in
  let dy := F32.sub (vy (bpos b)) (vy (getPosition e)) in
  let dist := F32.sqrt (F32.add (F32.mul dx dx) (F32.mul dy dy)) in
  F32.lt dist (F32.add (getRadius b) (F32.of_int 12)).

(** What the inner loop (lines 307-324) leaves behind. *)
Record Scan : Type := mkScan {
  s_enemy : Entity;
  s_bullets : list Bullet;
  s_score : Z;
  s_kills : Z;
  s_dead : bool
}.

Fixpoint scanBullets (e : Entity) (bs : list Bullet) (sc kc : Z) : Scan :=
  match bs with
  | [] => mkScan e [] sc kc false
  | b :: rest =>
      if bulletHits e b then
        let e' := takeDamage e 25 in
        if negb (isAlive e')
        then mkScan e' rest (sc + 10) (kc + 1) true
        else mkScan e' rest sc kc false
      else
        let r := scanBullets e rest sc kc in
        mkScan (s_enemy r) (b :: s_bullets r) (s_score r) (s_kills r) (s_dead r)
  end.

(** Lines 329-331. *)
Definition touchesPlayer (p e : Entity) : bool :=
  let dx := F32.sub (vx (getPosition p)) (vx (getPosition e)) in
  let dy := F32.sub (vy (getPosition p)) (vy (getPosition e)) in
  F32.lt (F32.sqrt (F32.add (F32.mul dx dx) (F32.mul dy dy))) (F32.of_int 20).

(** Lines 303-334, over the enemies still to visit; the result holds the
    enemies kept, in order. *)
Fixpoint enemyLoop (es : list Entity) (g : Game) : list Entity * Game :=
  match es with
  | [] => ([], g)
  | e :: rest =>
      let e1 := move (Enemy_update (getPosition (player g)) e) in
      let r := scanBullets e1 (bullets g) (score g) (killCount g) in
      let g1 := set_score (s_score r) (s_kills r) (set_bullets (s_bullets r) g) in
      if s_dead r then enemyLoop rest g1
      else
        let g2 := if touchesPlayer (player g1) (s_enemy r)
                  then set_player (takeDamage (player g1) 1) g1
                  else g1 in
        let '(kept, g3) := enemyLoop rest g2 in
        (s_enemy r :: kept, g3)
  end.

Definition updateEnemies (g : Game) : Game :=
  let '(kept, g') := enemyLoop (enemies g) g in
  set_enemies kept g'.

(** Lines 337-339. *)
Definition updateSafeZone (g : Game) : Game :=
  let g1 := set_safeZone (SafeZone_update (safeZone g)) g in
  let out := negb (isInside (safeZone g1) (getPosition (player g1))) in
  if out then set_player (takeDamage (player g1) 1) g1 else g1.

(** Lines 342-345. *)
Definition spawnDue (g : Game) : bool :=
  F32.gt (timeSinceLastSpawn g) (F32.of_int 3)
  && (Z.of_nat (List.length (enemies g)) <? 10).

Definition spawn (r : Z * Z * Z) (g : Game) : Game :=
  if spawnDue g
  then set_timeSinceLastSpawn F32.zero (set_enemies (enemies g ++ [spawnEnemy r]) g)
  else g.

(** [std::to_string] and [operator<<] on an [int]. *)
Definition to_string (z : Z) : string := NilZero.string_of_int (Z.to_int z).

Definition newline : string := String (ascii_of_nat 10) EmptyString.

(** Lines 348-358. *)
Definition hudText (g : Game) : string :=
  ("The Last Helldiver | Score: " ++ to_string (score g)
   ++ " | Kills: " ++ to_string (killCount g)
   ++ " | Health: " ++ to_string (getHealth (player g)))%string.

Definition draw (g : Game) : Game := emit [DrawFrame (hudText g)] g.

(** Lines 361-379. *)
Definition scoreText (g : Game) : string :=
  ("Final Score: " ++ to_string (score g) ++ newline
   ++ "Kills: " ++ to_string (killCount g))%string.

Definition gameOverText (g : Game) : string :=
  ("The Last Helldiver Fell" ++ newline ++ "Final Score: " ++ to_string (score g)
   ++ " | Kills: " ++ to_string (killCount g))%string.

Definition gameOver (g : Game) : Game :=
  if negb (isAlive (player g)) then
    set_windowOpen false
      (emit [WriteFile "game_score.txt" (scoreText g);
             DrawGameOver (gameOverText g);
             Sleep 3;
             CloseWindow]
         (set_scoreFile (Some (scoreText g)) g))
  else g.

(** The simulation part of the body (lines 287-345) and the whole body. *)
Definition simulate (i : FrameInput) (g : Game) : Game :=
  spawn (spawnRand i)
    (updateSafeZone
       (updateEnemies
          (updateBullets
             (updatePlayer (keys i)
                (tick (frameTime i) g))))).

Definition frame (i : FrameInput) (g : Game) : Game :=
  gameOver (draw (simulate i (pollEvents (events i) g))).

(** [while (window.isOpen())], over the inputs of the successive frames. *)
Fixpoint run (inputs : list FrameInput) (g : Game) : Game :=
  match inputs with
  | [] => g
  | i :: rest => if windowOpen g then run rest (frame i g) else g
  end.

(** ** The start screen and [main] (lines 168-266) *)

(** The three texts of the start screen (lines 170, 175 and 179). *)
Definition startTitle : string := "THE LAST HELLDIVER".

Definition startLore : string :=
  ("In a world consumed by chaos, only one survives." ++ newline
   ++ "You are the last Helldiver - forged in fire, bound by honor." ++ newline
   ++ "Survive the void. Protect the zone. Write your legend.")%string.

Definition startPrompt : string := "Press ENTER to Begin Your Dive".

(** What one turn of the waiting loop of [showStartScreen] reads: the
    events polled and whether Enter is held afterwards. *)
Record StartPoll : Type := mkStartPoll {
  startEvents : list EventType;
  enterPressed : bool
}.

(** The inner [while (window.pollEvent(event))] of lines 192-195, on the
    state of the window and the trace: each [Closed] event handled calls
    [window.close()]; a closed window yields no more events. *)
Fixpoint startPollEvents (evs : list EventType) (open : bool) (tr : list Effect)
  : bool * list Effect :=
  match evs with
  | [] => (open, tr)
  | ev :: rest =>
      if open
      then match ev with
           | Closed => startPollEvents rest false (tr ++ [CloseWindow])
           | _ => startPollEvents rest open tr
           end
      else (open, tr)
  end.

(** The [while (true)] of lines 190-197, over its turns: the state of the
    window and the trace when it is left, or [None] when the turns given
    end before it is. *)
Fixpoint waitForEnter (polls : list StartPoll) (open : bool) (tr : list Effect)
  : option (bool * list Effect) :=
  match polls with
  | [] => None
  | p :: rest =>
      let '(open', tr') := startPollEvents (startEvents p) open tr in
      if enterPressed p then Some (open', tr') else waitForEnter rest open' tr'
  end.

(** [showStartScreen]: the screen is drawn once (lines 183-187), then the
    loop waits. *)
Definition showStartScreen (polls : list StartPoll) (open : bool)
  : option (bool * list Effect) :=
  waitForEnter polls open [DrawStartScreen startTitle startLore startPrompt].

(** [main] from the start screen on: the state when it returns.  The
    window is open when the start screen is shown; the trace of the
    start screen comes first. *)
Definition main (polls : list StartPoll) (initRand : nat -> Z * Z * Z) (t0 : Z)
           (file : option string) (inputs : list FrameInput) : option Game :=
  match showStartScreen polls true with
  | None => None
  | Some (open, tr) =>
      Some (run inputs (emit tr (set_windowOpen open (init initRand t0 file))))
  end.

(** ** Notions used by the statements *)

(** How the enemy list of one frame relates to the list before it: every
    enemy kept stands for an earlier one, in order, with no more health. *)
Inductive decayed : list Entity -> list Entity -> Prop :=
| decayed_nil : decayed [] []
| decayed_drop e old new :
    decayed old new -> decayed (e :: old) new
| decayed_keep e e' old new :
    health e' <= health e -> decayed old new -> decayed (e :: old) (e' :: new).

(** How the enemy list evolves over several frames: the enemies that
    were there come first, in order, each with no more health than it had
    (some may be gone); those created since follow, with at most the 50
    points of a new enemy. *)
Inductive evolved : list Entity -> list Entity -> Prop :=
| evolved_created new :
    Forall (fun e => health e <= 50) new -> evolved [] new
| evolved_drop e old new :
    evolved old new -> evolved (e :: old) new
| evolved_keep e e' old new :
    health e' <= health e -> evolved old new -> evolved (e :: old) (e' :: new).

(** The state in which the enemy loop of a frame starts. *)
Definition beforeEnemies (i : FrameInput) (g : Game) : Game :=
  updateBullets (updatePlayer (keys i) (tick (frameTime i) (pollEvents (events i) g))).

(** The state in which the spawn test of a frame is made. *)
Definition beforeSpawn (i : FrameInput) (g : Game) : Game :=
  updateSafeZone (updateEnemies (beforeEnemies i g)).

(** The state in which the health test of line 361 is made. *)
Definition beforeGameOver (i : FrameInput) (g : Game) : Game :=
  draw (simulate i (pollEvents (events i) g)).

(** A position on the edge of the window rectangle. *)
Definition onBoundary (p : Vector2f) : bool :=
  ((F32.eqb (vx p) (F32.of_int 0) || F32.eqb (vx p) (F32.of_int WINDOW_WIDTH))
   && F32.le (F32.of_int 0) (vy p) && F32.le (vy p) (F32.of_int WINDOW_HEIGHT))
  || ((F32.eqb (vy p) (F32.of_int 0) || F32.eqb (vy p) (F32.of_int WINDOW_HEIGHT))
      && F32.le (F32.of_int 0) (vx p) && F32.le (vx p) (F32.of_int WINDOW_WIDTH)).

(** The fields the enemy loop never writes. *)
Definition sameOutside (g g' : Game) : Prop :=
  position (player g') = position (player g)
  /\ velocity (player g') = velocity (player g)
  /\ enemies g' = enemies g
  /\ safeZone g' = safeZone g
  /\ clock g' = clock g
  /\ bulletClock g' = bulletClock g
  /\ timeSinceLastSpawn g' = timeSinceLastSpawn g
  /\ windowOpen g' = windowOpen g
  /\ scoreFile g' = scoreFile g
  /\ trace g' = trace g.

(** The number of enemies the enemy loop of a frame erases. *)
Definition killsInFrame (i : FrameInput) (g : Game) : Z :=
  Z.of_nat (List.length (enemies (beforeEnemies i g)))
  - Z.of_nat (List.length (enemies (updateEnemies (beforeEnemies i g)))).

(** A bullet at rest at an integer position, used in examples. *)
Definition bulletAt (x y : Z) : Bullet :=
  mkBullet (mkVec (F32.of_int x) (F32.of_int y)) vzero BULLET_SPEED (F32.of_int 5).

(** An enemy at rest at an integer position, used in examples. *)
Definition enemyAt (x y hp : Z) : Entity :=
  mkEntity (mkVec (F32.of_int x) (F32.of_int y)) vzero ENEMY_SPEED hp.

(** The state at loop entry when every [rand()] returned 0, the clocks
    started at 0 and there was no score file. *)
Definition initial : Game := init (fun _ => (0, 0, 0)) 0 None.

(** The number of times the trace writes a file. *)
Definition isWrite (e : Effect) : bool :=
  match e with WriteFile _ _ => true | _ => false end.

Definition fileWrites (t : list Effect) : nat := List.length (filter isWrite t).

(** Two positions the program cannot tell apart: identical, or equal for
    [operator==]. *)
Definition samePosition (a b : Vector2f) : Prop := a = b \/ veqb a b = true.

(** The point the mouse aims at when an event is handled. *)
Definition aimTarget (ev : Event) : Vector2f :=
  mkVec (F32.of_int (fst (emouse ev))) (F32.of_int (snd (emouse ev))).

(** A float that is a number: neither an infinity nor NaN. *)
Definition isFinite (x : float) : bool :=
  match x with
  | S754_zero _ | S754_finite _ _ _ => true
  | _ => false
  end.

(** A zero of either sign, or NaN. *)
Definition zeroOrNan (x : float) : bool :=
  match x with
  | S754_zero _ | S754_nan => true
  | _ => false
  end.

(** A press of the left mouse button handled at time [t] (microseconds)
    with the mouse at [m]. *)
Definition fireEvent (t : Z) (m : Z * Z) : Event :=
  mkEvent (MouseButtonPressed ButtonLeft) t m.

(** The cooldown test fails for each of the [n] elapsed times from [d]
    (microseconds) on. *)
Fixpoint coolingDown (n : nat) (d : Z) : bool :=
  match n with
  | O => true
  | S k =>
      if F32.gt (asSeconds d) BULLET_COOLDOWN then false
      else coolingDown k (d + 1)
  end.

(** The safe zone after [n] calls of [update] on a new zone. *)
Definition zoneAfter (n : nat) : SafeZone := Nat.iter n SafeZone_update SafeZone_new.



(** The damage the safe zone deals in the frame that led to [g]. *)
Definition zoneDamage (g : Game) : Z :=
  if isInside (safeZone g) (getPosition (player g)) then 0 else 1.


(** The number of binary digits of a mantissa. *)
Definition dig (p : positive) : Z := Zpos (digits2_pos p).

(** A float that is not negative and not NaN. *)
Definition nonneg (y : float) : bool :=
  match y with
  | S754_zero _ | S754_infinity false | S754_finite false _ _ => true
  | _ => false
  end.

(** The literal [3.0f] of line 342. *)
Definition three : float := S754_finite false 12582912 (-22).

(** The steady clock never runs backwards over the frames [inputs], read
    after time [t]. *)
Fixpoint steadyFrom (t : Z) (inputs : list FrameInput) : Prop :=
  match inputs with
  | [] => True
  | i :: rest => t <= frameTime i /\ steadyFrom (frameTime i) rest
  end.

(** In each of the frames [inputs], run from [g], the loop is running and
    the spawn test finds the enemy list at the cap. *)
Fixpoint cappedThrough (inputs : list FrameInput) (g : Game) : Prop :=
  match inputs with
  | [] => True
  | j :: rest =>
      windowOpen g = true
      /\ (10 <= List.length (enemies (beforeSpawn j g)))%nat
      /\ cappedThrough rest (frame j g)
  end.

(** The integers [k], ..., [k + n - 1] convert to floats in [[0, bound)]. *)
Fixpoint convertBelow (bound : Z) (n : nat) (k : Z) : bool :=
  match n with
  | O => true
  | S n' =>
      F32.le (F32.of_int 0) (F32.of_int k)
      && F32.lt (F32.of_int k) (F32.of_int bound)
      && convertBelow bound n' (k + 1)
  end.

(** A state at the cap whose timer reads 4 seconds: nine enemies far from
    the player and one, a single hit from death, next to the player. *)
Definition crowded : Game :=
  set_timeSinceLastSpawn (F32.of_int 4)
    (set_enemies
       (enemyAt 610 350 25
        :: map (fun k => enemyAt (100 * Z.of_nat k) 0 50) (seq 0 9))
       initial).

(** A frame without input, 0.4 s after the start. *)
Definition idleFrame : FrameInput :=
  mkInput [] 400000 (mkKeys false false false false) (0, 0, 0).

(** The next frame, in which the player shoots to the right. *)
Definition shootingFrame : FrameInput :=
  mkInput [fireEvent 410000 (700, 350)] 416667
          (mkKeys false false false false) (5, 7, 0).

(** A session that fills the enemy list: the first initial enemy stands
    20 to the right of the player, the others in the corner; the first
    frame comes 3.1 s after the start and fires to the right, the next
    four follow 3.1 s apart, so that each of the five spawns an enemy. *)
Definition openingRand (n : nat) : Z * Z * Z :=
  match n with
  | O => (620, 350, 0)
  | _ => (0, 0, 0)
  end.

Definition opening : Game := init openingRand 0 None.

Definition noKeys : Keys := mkKeys false false false false.

Definition fillingFrames : list FrameInput :=
  [mkInput [fireEvent 3100000 (700, 350)] 3100000 noKeys (5, 7, 0);
   mkInput [] 6200000 noKeys (5, 7, 0);
   mkInput [] 9300000 noKeys (5, 7, 0);
   mkInput [] 12400000 noKeys (5, 7, 0);
   mkInput [] 15500000 noKeys (5, 7, 0)].

(** The two frames that follow at 60 frames per second: one without
    input, one that fires to the right again. *)
Definition cappedFrame : FrameInput := mkInput [] 15516667 noKeys (5, 7, 0).

Definition killingFrame : FrameInput :=
  mkInput [fireEvent 15533334 (700, 350)] 15533334 noKeys (5, 7, 0).

(** The velocity component two opposite keys give at speed [s]. *)
Definition keyAxis (s : float) (neg pos : bool) : float :=
  match neg, pos with
  | false, false => F32.zero
  | true, false => SFopp s
  | false, true => s
  | true, true => F32.zero
  end.

(** What holds of the player and of the number of enemies whenever the
    loop tests [window.isOpen()]. *)
Definition playerInv (g : Game) : Prop :=
  speed (player g) = PLAYER_SPEED
  /\ -10 <= health (player g) <= 100
  /\ (windowOpen g = true -> 0 < health (player g))
  /\ (List.length (enemies g) <= 10)%nat.

(** An enemy at least as fast as [ENEMY_SPEED] and slower than the
    player. *)
Definition slower (e : Entity) : bool :=
  F32.le ENEMY_SPEED (speed e) && F32.lt (speed e) PLAYER_SPEED.

(** Three values as [rand()] returns them: none is negative. *)
Definition fromRand (r : Z * Z * Z) : Prop :=
  0 <= fst (fst r) /\ 0 <= snd (fst r) /\ 0 <= snd r.

(** An enemy that was hit at most once. *)
Definition hitAtMostOnce (e : Entity) : Prop := health e = 50 \/ health e = 25.

(** A bullet as the constructor makes it: radius 5, speed [BULLET_SPEED]. *)
Definition standardBullet (b : Bullet) : Prop :=
  bradius b = F32.of_int 5 /\ bspeed b = BULLET_SPEED.

(** The number of bullets the enemy loop of a frame erases. *)
Definition bulletsUsed (i : FrameInput) (g : Game) : Z :=
  Z.of_nat (List.length (bullets (beforeEnemies i g)))
  - Z.of_nat (List.length (bullets (frame i g))).

(** An event other than the request to close the window. *)
Definition notClosed (ev : Event) : bool :=
  match etype ev with Closed => false | _ => true end.

(** What the game-over branch adds to the trace in state [g]. *)
Definition gameOverEffects (g : Game) : list Effect :=
  [WriteFile "game_score.txt" (scoreText g);
   DrawGameOver (gameOverText g);
   Sleep 3;
   CloseWindow].

(** The number of times the trace plays the shoot sound. *)
Definition isShoot (e : Effect) : bool :=
  match e with PlayShoot => true | _ => false end.

Definition shots (t : list Effect) : nat := List.length (filter isShoot t).

(** The centre of the window, where the player starts and on which the
    safe zone is centred. *)
Definition centre : Vector2f :=
  mkVec (F32.of_int (WINDOW_WIDTH / 2)) (F32.of_int (WINDOW_HEIGHT / 2)).

(** One update of the zone [z] does not enlarge it, leaves its radius
    between 49 and 350 and the centre of the window inside it. *)
Definition zoneStepOk (z : SafeZone) : bool :=
  let z' := SafeZone_update z in
  F32.le (radius z') (radius z)
  && F32.lt (F32.of_int 49) (radius z')
  && F32.le (radius z') (F32.of_int 350)
  && isInside z' centre.

(** The same for each of the first [n] updates from [z]. *)
Fixpoint zoneStepsOk (n : nat) (z : SafeZone) : bool :=
  match n with
  | O => true
  | S k => zoneStepOk z && zoneStepsOk k (SafeZone_update z)
  end.

(** No movement key is held in any of the frames. *)
Definition idle (inputs : list FrameInput) : Prop :=
  Forall (fun i => keys i = noKeys) inputs.

(** No event of the turn asks to close the window. *)
Definition keepsOpen (p : StartPoll) : bool :=
  forallb (fun ev => match ev with Closed => false | _ => true end) (startEvents p).

(** How the bullet list at the end of a frame relates to the list the
    bullet pass found: every bullet kept is an earlier one moved once by
    its velocity, in order. *)
Inductive flown : list Bullet -> list Bullet -> Prop :=
| flown_nil : flown [] []
| flown_drop b old new : flown old new -> flown (b :: old) new
| flown_keep b old new : flown old new -> flown (b :: old) (Bullet_move b :: new).

(** How the enemy list after the enemy loop relates to the list before
    it, the player being at [p]: every enemy kept is an earlier one that
    steered at [p] and moved once, hit or not, in order. *)
Inductive chased (p : Vector2f) : list Entity -> list Entity -> Prop :=
| chased_nil : chased p [] []
| chased_drop e old new : chased p old new -> chased p (e :: old) new
| chased_miss e old new :
    chased p old new -> chased p (e :: old) (move (Enemy_update p e) :: new)
| chased_hit e old new :
    chased p old new ->
    chased p (e :: old) (takeDamage (move (Enemy_update p e)) 25 :: new).

(** A list of bullets with some of them removed. *)
Inductive sublist : list Bullet -> list Bullet -> Prop :=
| sublist_nil : sublist [] []
| sublist_skip b l l' : sublist l l' -> sublist (b :: l) l'
| sublist_take b l l' : sublist l l' -> sublist (b :: l) (b :: l').

(** The sign bit of a float that is a number or an infinity. *)
Definition signOf (x : float) : option bool :=
  match x with
  | S754_nan => None
  | S754_zero s | S754_infinity s | S754_finite s _ _ => Some s
  end.

(** ** Properties *)

(** The arithmetic is never unfolded by simplification. *)
Arguments F32.of_int : simpl never.
Arguments F32.add : simpl never.
Arguments F32.sub : simpl never.
Arguments F32.mul : simpl never.
Arguments F32.div : simpl never.
Arguments F32.sqrt : simpl never.
Arguments F32.lt : simpl never.
Arguments F32.gt : simpl never.
Arguments F32.eqb : simpl never.
Arguments F32.le : simpl never.
Arguments asSeconds : simpl never.
Arguments isInside : simpl never.
Arguments bulletHits : simpl never.
Arguments touchesPlayer : simpl never.
Arguments Enemy_update : simpl never.
Arguments Bullet_new : simpl never.
Arguments SafeZone_update : simpl never.
Arguments spawnEnemy : simpl never.
Arguments handleInput : simpl never.
Arguments to_string : simpl never.
Arguments scoreText : simpl never.
Arguments gameOverText : simpl never.
Arguments hudText : simpl never.


(** *** Comparisons *)

Lemma SFcompare_swap (x y : float) (c : comparison) :
  SFcompare x y = Some c -> SFcompare y x = Some (CompOpp c).
Proof.
  destruct x as [sx|sx| |sx mx ex], y as [sy|sy| |sy my ey]; simpl;
    try discriminate;
    try (destruct sx; intros [= <-]; reflexivity);
    try (destruct sy; intros [= <-]; reflexivity);
    try (intros [= <-]; reflexivity).
  - destruct sx, sy; intros [= <-]; reflexivity.
  - destruct sx, sy; intros [= <-]; try reflexivity.
    + rewrite (Z.compare_antisym ex ey).
      destruct (ex ?= ey); simpl; try reflexivity.
      rewrite CompOpp_involutive.
      now rewrite (Pos.compare_cont_antisym my mx Eq).
    + rewrite (Z.compare_antisym ex ey).
      destruct (ex ?= ey); simpl; try reflexivity.
      now rewrite (Pos.compare_cont_antisym mx my Eq).
Qed.

Lemma eqb_not_lt (x y : float) : F32.eqb x y = true -> F32.lt x y = false.
Proof.
  unfold F32.eqb, F32.lt, SFeqb, SFltb.
  destruct (SFcompare x y) as [[]|]; congruence.
Qed.

Lemma eqb_not_gt (x y : float) : F32.eqb x y = true -> F32.gt x y = false.
Proof.
  unfold F32.eqb, F32.gt, SFeqb, SFltb.
  destruct (SFcompare x y) as [c|] eqn:E; try discriminate.
  rewrite (SFcompare_swap _ _ _ E). destruct c; simpl; congruence.
Qed.

Lemma lt_not_gt (x y : float) : F32.lt x y = true -> F32.gt x y = false.
Proof.
  unfold F32.gt, F32.lt, SFltb.
  destruct (SFcompare x y) as [c|] eqn:E; try discriminate.
  rewrite (SFcompare_swap _ _ _ E). destruct c; simpl; congruence.
Qed.

Lemma le_not_gt (x y : float) : F32.le x y = true -> F32.gt x y = false.
Proof.
  unfold F32.le, F32.gt, SFleb, SFltb.
  destruct (SFcompare x y) as [c|] eqn:E; try discriminate.
  rewrite (SFcompare_swap _ _ _ E). destruct c; simpl; congruence.
Qed.

Lemma le_not_lt (x y : float) : F32.le x y = true -> F32.lt y x = false.
Proof. exact (le_not_gt x y). Qed.

Lemma eqb_sym (x y : float) : F32.eqb x y = true -> F32.eqb y x = true.
Proof.
  unfold F32.eqb, SFeqb.
  destruct (SFcompare x y) as [c|] eqn:E; try discriminate.
  rewrite (SFcompare_swap _ _ _ E). destruct c; simpl; congruence.
Qed.

(** *** Bullets leaving the window *)

Lemma bulletLoop_filter (bs : list Bullet) :
  bulletLoop bs
  = filter (fun b => negb (outOfWindow (bpos b))) (map Bullet_move bs).
Proof.
  induction bs as [|b bs IH]; cbn [bulletLoop map filter]; [reflexivity|].
  destruct (outOfWindow (bpos (Bullet_move b))); cbn [negb]; now rewrite IH.
Qed.

Lemma outOfWindow_spec (p : Vector2f) :
  outOfWindow p = true <->
  (F32.lt (vx p) (F32.of_int 0) = true
   \/ F32.gt (vx p) (F32.of_int WINDOW_WIDTH) = true
   \/ F32.lt (vy p) (F32.of_int 0) = true
   \/ F32.gt (vy p) (F32.of_int WINDOW_HEIGHT) = true).
Proof.
  unfold outOfWindow. rewrite !orb_true_iff. tauto.
Qed.

Lemma of_int_0 : F32.of_int 0 = S754_zero false.
Proof. reflexivity. Qed.

Lemma of_int_WINDOW_WIDTH :
  F32.of_int WINDOW_WIDTH = S754_finite false 9830400 (-13).
Proof. vm_compute. reflexivity. Qed.

Lemma of_int_WINDOW_HEIGHT :
  F32.of_int WINDOW_HEIGHT = S754_finite false 11468800 (-14).
Proof. vm_compute. reflexivity. Qed.

Lemma eqb_zero_not_gt (x : float) (s : bool) (m : positive) (e : Z) :
  F32.eqb x (S754_zero s) = true -> F32.gt x (S754_finite false m e) = false.
Proof.
  unfold F32.eqb, F32.gt, SFeqb, SFltb.
  destruct x as [[]|[]| |[] m' e']; simpl; congruence.
Qed.

Lemma eqb_pos_not_lt (x : float) (s : bool) (m : positive) (e : Z) :
  F32.eqb x (S754_finite false m e) = true -> F32.lt x (S754_zero s) = false.
Proof.
  unfold F32.eqb, F32.lt, SFeqb, SFltb.
  destruct x as [[]|[]| |[] m' e']; simpl; congruence.
Qed.

Lemma onBoundary_inside (p : Vector2f) :
  onBoundary p = true -> outOfWindow p = false.
Proof.
  unfold onBoundary, outOfWindow.
  rewrite of_int_0, of_int_WINDOW_WIDTH, of_int_WINDOW_HEIGHT.
  rewrite !orb_true_iff, !andb_true_iff, !orb_true_iff.
  intros [[[Hx Hy0] Hy1]|[[Hy Hx0] Hx1]].
  - rewrite (le_not_lt _ _ Hy0), (le_not_gt _ _ Hy1).
    destruct Hx as [Hx|Hx].
    + now rewrite (eqb_not_lt _ _ Hx), (eqb_zero_not_gt _ _ _ _ Hx).
    + now rewrite (eqb_not_gt _ _ Hx), (eqb_pos_not_lt _ false _ _ Hx).
  - rewrite (le_not_lt _ _ Hx0), (le_not_gt _ _ Hx1).
    destruct Hy as [Hy|Hy].
    + now rewrite (eqb_not_lt _ _ Hy), (eqb_zero_not_gt _ _ _ _ Hy), !orb_false_r.
    + now rewrite (eqb_not_gt _ _ Hy), (eqb_pos_not_lt _ false _ _ Hy).
Qed.

(** C5. In the bullet pass of a frame every bullet is moved by its velocity
    and then erased if and only if its new position is strictly outside
    the window ([x < 0], [x > WINDOW_WIDTH], [y < 0] or [y > WINDOW_HEIGHT]);
    the bullets kept stay in order, a bullet that lands exactly on the edge
    is kept, and a bullet that lands outside is gone in that same pass. *)
Theorem bullet_removed_iff_outside (g : Game) (b : Bullet) :
  In b (bullets g) ->
  let b' := Bullet_move b in
  bullets (updateBullets g)
  = filter (fun x => negb (outOfWindow (bpos x))) (map Bullet_move (bullets g))
  /\ (In b' (bullets (updateBullets g)) <-> outOfWindow (bpos b') = false)
  /\ (outOfWindow (bpos b') = true <->
      (F32.lt (vx (bpos b')) (F32.of_int 0) = true
       \/ F32.gt (vx (bpos b')) (F32.of_int WINDOW_WIDTH) = true
       \/ F32.lt (vy (bpos b')) (F32.of_int 0) = true
       \/ F32.gt (vy (bpos b')) (F32.of_int WINDOW_HEIGHT) = true))
  /\ (onBoundary (bpos b') = true -> In b' (bullets (updateBullets g))).
Proof.
  intros Hin b'.
  assert (Hloop : bullets (updateBullets g)
                  = filter (fun x => negb (outOfWindow (bpos x)))
                           (map Bullet_move (bullets g))).
  { destruct g; apply bulletLoop_filter. }
  assert (Hiff : In b' (bullets (updateBullets g)) <-> outOfWindow (bpos b') = false).
  { rewrite Hloop, filter_In, negb_true_iff. split; [tauto|].
    intros H; split; [|exact H]. now apply in_map. }
  repeat split.
  - exact Hloop.
  - apply Hiff.
  - apply Hiff.
  - apply outOfWindow_spec.
  - apply outOfWindow_spec.
  - intros H. apply Hiff, onBoundary_inside, H.
Qed.

Lemma bullet_removed_iff_outside_witness :
  let b := mkBullet (mkVec (F32.of_int 1193) (F32.of_int 350))
                    (mkVec (F32.of_int 7) F32.zero) BULLET_SPEED (F32.of_int 5) in
  let g := set_bullets [b] (init (fun _ => (0, 0, 0)) 0 None) in
  In (Bullet_move b) (bullets (updateBullets g))
  /\ vx (bpos (Bullet_move b)) = F32.of_int WINDOW_WIDTH.
Proof.
  intros b g. split.
  - apply (bullet_removed_iff_outside g b); [left; reflexivity|].
    vm_compute. reflexivity.
  - vm_compute. reflexivity.
Defined.

(** *** The scan of the bullets by one enemy *)

Lemma scanBullets_miss (e : Entity) (bs : list Bullet) (sc kc : Z) :
  Forall (fun b => bulletHits e b = false) bs ->
  scanBullets e bs sc kc = mkScan e bs sc kc false.
Proof.
  induction 1 as [|b bs Hb _ IH]; cbn [scanBullets]; [reflexivity|].
  now rewrite Hb, IH.
Qed.

Lemma scanBullets_hit (e : Entity) (l1 l2 : list Bullet) (b : Bullet) (sc kc : Z) :
  Forall (fun b' => bulletHits e b' = false) l1 ->
  bulletHits e b = true ->
  scanBullets e (l1 ++ b :: l2) sc kc
  = if negb (isAlive (takeDamage e 25))
    then mkScan (takeDamage e 25) (l1 ++ l2) (sc + 10) (kc + 1) true
    else mkScan (takeDamage e 25) (l1 ++ l2) sc kc false.
Proof.
  intros Hl1 Hb.
  induction Hl1 as [|b1 l1 Hb1 _ IH]; cbn [scanBullets app].
  - now rewrite Hb.
  - rewrite Hb1, IH. now destruct (negb (isAlive (takeDamage e 25))).
Qed.

Lemma scanBullets_cases (e : Entity) (bs : list Bullet) (sc kc : Z) :
  (Forall (fun b => bulletHits e b = false) bs)
  \/ (exists l1 b l2,
        bs = l1 ++ b :: l2
        /\ Forall (fun b' => bulletHits e b' = false) l1
        /\ bulletHits e b = true).
Proof.
  induction bs as [|b bs IH].
  - left. constructor.
  - destruct (bulletHits e b) eqn:Hb.
    + right. exists [], b, bs. repeat split; [constructor|exact Hb].
    + destruct IH as [IH|(l1 & b1 & l2 & -> & Hl1 & Hb1)].
      * left. now constructor.
      * right. exists (b :: l1), b1, l2. repeat split; [now constructor|exact Hb1].
Qed.

Lemma scanBullets_health (e : Entity) (bs : list Bullet) (sc kc : Z) :
  health (s_enemy (scanBullets e bs sc kc)) <= health e
  /\ health e - 25 <= health (s_enemy (scanBullets e bs sc kc)).
Proof.
  destruct (scanBullets_cases e bs sc kc) as [H|(l1 & b & l2 & -> & H1 & Hb)].
  - rewrite (scanBullets_miss _ _ _ _ H). simpl. lia.
  - rewrite (scanBullets_hit _ _ _ _ _ _ H1 Hb).
    destruct (negb (isAlive (takeDamage e 25))); simpl; lia.
Qed.

Lemma scanBullets_score (e : Entity) (bs : list Bullet) (sc kc : Z) :
  let r := scanBullets e bs sc kc in
  if s_dead r
  then s_score r = sc + 10 /\ s_kills r = kc + 1 /\ health (s_enemy r) <= 0
  else s_score r = sc /\ s_kills r = kc.
Proof.
  destruct (scanBullets_cases e bs sc kc) as [H|(l1 & b & l2 & -> & H1 & Hb)]; cbv zeta.
  - rewrite (scanBullets_miss _ _ _ _ H). simpl. tauto.
  - rewrite (scanBullets_hit _ _ _ _ _ _ H1 Hb).
    destruct (negb (isAlive (takeDamage e 25))) eqn:E; cbn [s_dead s_score s_kills s_enemy].
    + repeat split. apply negb_true_iff in E. unfold isAlive in E.
      now apply Z.ltb_ge in E.
    + tauto.
Qed.

Lemma scanBullets_length (e : Entity) (bs : list Bullet) (sc kc : Z) :
  (List.length (s_bullets (scanBullets e bs sc kc)) <= List.length bs
   <= S (List.length (s_bullets (scanBullets e bs sc kc))))%nat.
Proof.
  destruct (scanBullets_cases e bs sc kc) as [H|(l1 & b & l2 & -> & H1 & Hb)].
  - rewrite (scanBullets_miss _ _ _ _ H). simpl. lia.
  - rewrite (scanBullets_hit _ _ _ _ _ _ H1 Hb).
    destruct (negb (isAlive (takeDamage e 25)));
      cbn [s_bullets]; rewrite !length_app; simpl; lia.
Qed.

(** *** The enemy loop *)

Lemma enemyLoop_frame (es : list Entity) (g : Game) :
  sameOutside g (snd (enemyLoop es g)).
Proof.
  revert g. induction es as [|e es IH]; intros g; cbn [enemyLoop].
  - unfold sameOutside. cbn [snd]. tauto.
  - set (r := scanBullets _ _ _ _).
    set (g1 := set_score _ _ _).
    destruct (s_dead r).
    + specialize (IH g1). unfold sameOutside in *. subst g1.
      destruct g; cbn in *. exact IH.
    + set (g2 := if touchesPlayer _ _ then _ else _).
      specialize (IH g2). destruct (enemyLoop es g2) as [kept g3].
      cbn [snd] in *. unfold sameOutside in *. subst g2 g1.
      destruct (touchesPlayer _ _); destruct g; cbn in *; exact IH.
Qed.

Lemma enemyLoop_decayed (es : list Entity) (g : Game) :
  decayed es (fst (enemyLoop es g)).
Proof.
  revert g. induction es as [|e es IH]; intros g; cbn [enemyLoop].
  - constructor.
  - set (e1 := move _).
    set (r := scanBullets _ _ _ _).
    set (g1 := set_score _ _ _).
    destruct (s_dead r).
    + apply decayed_drop, IH.
    + set (g2 := if touchesPlayer _ _ then _ else _).
      specialize (IH g2). destruct (enemyLoop es g2) as [kept g3].
      cbn [fst] in *. apply decayed_keep; [|exact IH].
      subst r. pose proof (scanBullets_health e1 (bullets g) (score g) (killCount g)) as H.
      assert (health e1 = health e) as <-; [|lia].
      subst e1. unfold move, Enemy_update.
      now destruct (F32.gt _ _).
Qed.

Lemma enemyLoop_player_health (es : list Entity) (g : Game) :
  health (player (snd (enemyLoop es g))) <= health (player g).
Proof.
  revert g. induction es as [|e es IH]; intros g; cbn [enemyLoop].
  - cbn [snd]. lia.
  - set (r := scanBullets _ _ _ _).
    set (g1 := set_score _ _ _).
    assert (H1 : health (player g1) = health (player g)) by reflexivity.
    destruct (s_dead r).
    + specialize (IH g1). lia.
    + set (g2 := if touchesPlayer _ _ then _ else _).
      assert (H2 : health (player g2) <= health (player g1)).
      { subst g2. destruct (touchesPlayer _ _); cbn; lia. }
      specialize (IH g2). destruct (enemyLoop es g2) as [kept g3].
      cbn [snd] in *. lia.
Qed.

(** Each enemy erased by the loop is worth 10 points and one kill. *)
Lemma enemyLoop_score (es : list Entity) (g : Game) :
  let k := Z.of_nat (List.length es) - Z.of_nat (List.length (fst (enemyLoop es g))) in
  0 <= k
  /\ score (snd (enemyLoop es g)) = score g + 10 * k
  /\ killCount (snd (enemyLoop es g)) = killCount g + k.
Proof.
  revert g. induction es as [|e es IH]; intros g; cbn [enemyLoop].
  - cbn. lia.
  - set (e1 := move _).
    pose proof (scanBullets_score e1 (bullets g) (score g) (killCount g)) as Hs.
    cbv zeta in Hs.
    set (r := scanBullets _ _ _ _) in *.
    set (g1 := set_score _ _ _).
    assert (H1 : score g1 = s_score r /\ killCount g1 = s_kills r) by (split; reflexivity).
    destruct (s_dead r).
    + specialize (IH g1). cbv zeta in IH. cbn [List.length]. lia.
    + set (g2 := if touchesPlayer _ _ then _ else _).
      assert (H2 : score g2 = score g1 /\ killCount g2 = killCount g1).
      { subst g2. destruct (touchesPlayer _ _); split; reflexivity. }
      specialize (IH g2). cbv zeta in IH.
      destruct (enemyLoop es g2) as [kept g3].
      cbn [fst snd List.length] in *. lia.
Qed.

Lemma enemyLoop_bullets (es : list Entity) (g : Game) :
  (List.length (bullets (snd (enemyLoop es g))) <= List.length (bullets g))%nat.
Proof.
  revert g. induction es as [|e es IH]; intros g; cbn [enemyLoop].
  - cbn [snd]. lia.
  - set (e1 := move _).
    pose proof (scanBullets_length e1 (bullets g) (score g) (killCount g)) as Hs.
    set (r := scanBullets _ _ _ _) in *.
    set (g1 := set_score _ _ _).
    assert (H1 : bullets g1 = s_bullets r) by reflexivity.
    destruct (s_dead r).
    + specialize (IH g1). rewrite H1 in IH. lia.
    + set (g2 := if touchesPlayer _ _ then _ else _).
      assert (H2 : bullets g2 = bullets g1).
      { subst g2. destruct (touchesPlayer _ _); reflexivity. }
      specialize (IH g2). rewrite H2, H1 in IH.
      destruct (enemyLoop es g2) as [kept g3].
      cbn [snd] in *. lia.
Qed.

Lemma decayed_length (old new : list Entity) :
  decayed old new -> (List.length new <= List.length old)%nat.
Proof. induction 1; simpl; lia. Qed.

(** *** What each phase of a frame leaves alone *)

Lemma updateEnemies_eq (g : Game) :
  updateEnemies g
  = set_enemies (fst (enemyLoop (enemies g) g)) (snd (enemyLoop (enemies g) g)).
Proof. unfold updateEnemies. now destruct (enemyLoop (enemies g) g). Qed.

Lemma handleEvent_keeps (ev : Event) (g : Game) :
  player (handleEvent ev g) = player g
  /\ enemies (handleEvent ev g) = enemies g
  /\ score (handleEvent ev g) = score g
  /\ killCount (handleEvent ev g) = killCount g
  /\ safeZone (handleEvent ev g) = safeZone g
  /\ clock (handleEvent ev g) = clock g
  /\ timeSinceLastSpawn (handleEvent ev g) = timeSinceLastSpawn g
  /\ scoreFile (handleEvent ev g) = scoreFile g.
Proof.
  unfold handleEvent.
  destruct (etype ev) as [|[]|]; try destruct (canFire ev g); cbn; tauto.
Qed.

Lemma pollEvents_keeps (evs : list Event) (g : Game) :
  player (pollEvents evs g) = player g
  /\ enemies (pollEvents evs g) = enemies g
  /\ score (pollEvents evs g) = score g
  /\ killCount (pollEvents evs g) = killCount g
  /\ safeZone (pollEvents evs g) = safeZone g
  /\ clock (pollEvents evs g) = clock g
  /\ timeSinceLastSpawn (pollEvents evs g) = timeSinceLastSpawn g
  /\ scoreFile (pollEvents evs g) = scoreFile g.
Proof.
  revert g. induction evs as [|ev evs IH]; intros g; cbn [pollEvents].
  - tauto.
  - destruct (windowOpen g); [|tauto].
    destruct (IH (handleEvent ev g)) as (-> & -> & -> & -> & -> & -> & -> & ->).
    apply handleEvent_keeps.
Qed.

Lemma beforeEnemies_keeps (i : FrameInput) (g : Game) :
  health (player (beforeEnemies i g)) = health (player g)
  /\ enemies (beforeEnemies i g) = enemies g
  /\ score (beforeEnemies i g) = score g
  /\ killCount (beforeEnemies i g) = killCount g
  /\ safeZone (beforeEnemies i g) = safeZone g
  /\ scoreFile (beforeEnemies i g) = scoreFile g.
Proof.
  destruct (pollEvents_keeps (events i) g) as (Hp & He & Hs & Hk & Hz & _ & _ & Hf).
  unfold beforeEnemies. cbn. rewrite Hp, He, Hs, Hk, Hz, Hf. tauto.
Qed.

Lemma updateSafeZone_keeps (g : Game) :
  health (player (updateSafeZone g)) <= health (player g)
  /\ health (player g) - 1 <= health (player (updateSafeZone g))
  /\ enemies (updateSafeZone g) = enemies g
  /\ bullets (updateSafeZone g) = bullets g
  /\ score (updateSafeZone g) = score g
  /\ killCount (updateSafeZone g) = killCount g
  /\ timeSinceLastSpawn (updateSafeZone g) = timeSinceLastSpawn g
  /\ windowOpen (updateSafeZone g) = windowOpen g
  /\ scoreFile (updateSafeZone g) = scoreFile g
  /\ trace (updateSafeZone g) = trace g.
Proof.
  unfold updateSafeZone. cbv zeta.
  destruct (negb _); cbn; repeat split; lia.
Qed.

Lemma spawn_keeps (r : Z * Z * Z) (g : Game) :
  player (spawn r g) = player g
  /\ bullets (spawn r g) = bullets g
  /\ score (spawn r g) = score g
  /\ killCount (spawn r g) = killCount g
  /\ safeZone (spawn r g) = safeZone g
  /\ windowOpen (spawn r g) = windowOpen g
  /\ scoreFile (spawn r g) = scoreFile g
  /\ trace (spawn r g) = trace g.
Proof. unfold spawn. destruct (spawnDue g); cbn; tauto. Qed.

Lemma gameOver_keeps (g : Game) :
  player (gameOver g) = player g
  /\ enemies (gameOver g) = enemies g
  /\ bullets (gameOver g) = bullets g
  /\ score (gameOver g) = score g
  /\ killCount (gameOver g) = killCount g
  /\ safeZone (gameOver g) = safeZone g
  /\ timeSinceLastSpawn (gameOver g) = timeSinceLastSpawn g.
Proof. unfold gameOver. destruct (negb _); cbn; tauto. Qed.

Lemma draw_keeps (g : Game) :
  player (draw g) = player g
  /\ enemies (draw g) = enemies g
  /\ bullets (draw g) = bullets g
  /\ score (draw g) = score g
  /\ killCount (draw g) = killCount g
  /\ safeZone (draw g) = safeZone g
  /\ timeSinceLastSpawn (draw g) = timeSinceLastSpawn g
  /\ windowOpen (draw g) = windowOpen g
  /\ scoreFile (draw g) = scoreFile g.
Proof. cbn. tauto. Qed.

Lemma frame_unfold (i : FrameInput) (g : Game) :
  frame i g = gameOver (draw (spawn (spawnRand i) (beforeSpawn i g))).
Proof. unfold frame, simulate, beforeSpawn, beforeEnemies. reflexivity. Qed.

(** *** Score and kills *)

Lemma updateEnemies_score (g : Game) :
  let k := Z.of_nat (List.length (enemies g))
           - Z.of_nat (List.length (enemies (updateEnemies g))) in
  0 <= k
  /\ score (updateEnemies g) = score g + 10 * k
  /\ killCount (updateEnemies g) = killCount g + k.
Proof.
  rewrite updateEnemies_eq. cbn [enemies score killCount set_enemies].
  apply enemyLoop_score.
Qed.

Lemma frame_score (i : FrameInput) (g : Game) :
  0 <= killsInFrame i g
  /\ score (frame i g) = score g + 10 * killsInFrame i g
  /\ killCount (frame i g) = killCount g + killsInFrame i g.
Proof.
  rewrite frame_unfold.
  destruct (gameOver_keeps (draw (spawn (spawnRand i) (beforeSpawn i g))))
    as (_ & _ & _ & -> & -> & _).
  destruct (draw_keeps (spawn (spawnRand i) (beforeSpawn i g)))
    as (_ & _ & _ & -> & -> & _).
  destruct (spawn_keeps (spawnRand i) (beforeSpawn i g)) as (_ & _ & -> & -> & _).
  unfold beforeSpawn.
  destruct (updateSafeZone_keeps (updateEnemies (beforeEnemies i g)))
    as (_ & _ & _ & _ & -> & -> & _).
  destruct (beforeEnemies_keeps i g) as (_ & _ & Hs & Hk & _).
  pose proof (updateEnemies_score (beforeEnemies i g)) as H. cbv zeta in H.
  unfold killsInFrame. rewrite Hs, Hk in H. exact H.
Qed.

(** C9. The score is ten times the kill count at the end of every frame:
    both are 0 when the loop starts, and a frame adds 10 to one and 1 to
    the other once for each enemy its enemy loop erases, which it does
    exactly when a bullet hit leaves the enemy with health <= 0. *)
Theorem score_is_ten_times_killCount :
  forall (initRand : nat -> Z * Z * Z) (t0 : Z) (file : option string)
         (inputs : list FrameInput),
    let g0 := init initRand t0 file in
    score g0 = 0 /\ killCount g0 = 0
    /\ score (run inputs g0) = 10 * killCount (run inputs g0)
    /\ (forall (i : FrameInput) (g : Game),
          0 <= killsInFrame i g
          /\ score (frame i g) = score g + 10 * killsInFrame i g
          /\ killCount (frame i g) = killCount g + killsInFrame i g)
    /\ (forall (e : Entity) (bs : list Bullet) (sc kc : Z),
          let r := scanBullets e bs sc kc in
          if s_dead r
          then s_score r = sc + 10 /\ s_kills r = kc + 1 /\ health (s_enemy r) <= 0
          else s_score r = sc /\ s_kills r = kc).
Proof.
  intros initRand t0 file inputs g0.
  assert (Hrun : forall g, score g = 10 * killCount g ->
                           score (run inputs g) = 10 * killCount (run inputs g)).
  { induction inputs as [|i inputs IH]; intros g Hg; cbn [run]; [exact Hg|].
    destruct (windowOpen g); [|exact Hg].
    apply IH. destruct (frame_score i g) as (_ & -> & ->). lia. }
  repeat split.
  - now apply Hrun.
  - apply frame_score.
  - apply frame_score.
  - apply frame_score.
  - apply scanBullets_score.
Qed.

(** *** Health *)

Lemma takeDamage_health (e : Entity) (amount : Z) :
  0 <= amount -> health (takeDamage e amount) <= health e.
Proof. simpl. lia. Qed.

Lemma isAlive_iff (e : Entity) : isAlive e = true <-> health e > 0.
Proof. unfold isAlive. rewrite Z.ltb_lt. lia. Qed.

Lemma updateEnemies_player_health (g : Game) :
  health (player (updateEnemies g)) <= health (player g).
Proof.
  rewrite updateEnemies_eq. cbn [player set_enemies].
  apply enemyLoop_player_health.
Qed.

Lemma updateEnemies_decayed (g : Game) :
  decayed (enemies g) (enemies (updateEnemies g)).
Proof.
  rewrite updateEnemies_eq. cbn [enemies set_enemies].
  apply enemyLoop_decayed.
Qed.

Lemma frame_player_health (i : FrameInput) (g : Game) :
  health (player (frame i g)) <= health (player g).
Proof.
  rewrite frame_unfold.
  destruct (gameOver_keeps (draw (spawn (spawnRand i) (beforeSpawn i g)))) as (-> & _).
  destruct (draw_keeps (spawn (spawnRand i) (beforeSpawn i g))) as (-> & _).
  destruct (spawn_keeps (spawnRand i) (beforeSpawn i g)) as (-> & _).
  unfold beforeSpawn.
  destruct (updateSafeZone_keeps (updateEnemies (beforeEnemies i g))) as (H1 & _).
  pose proof (updateEnemies_player_health (beforeEnemies i g)) as H2.
  destruct (beforeEnemies_keeps i g) as (H3 & _).
  lia.
Qed.

Lemma frame_enemies (i : FrameInput) (g : Game) :
  enemies (frame i g)
  = if spawnDue (beforeSpawn i g)
    then enemies (updateEnemies (beforeEnemies i g)) ++ [spawnEnemy (spawnRand i)]
    else enemies (updateEnemies (beforeEnemies i g)).
Proof.
  rewrite frame_unfold.
  destruct (gameOver_keeps (draw (spawn (spawnRand i) (beforeSpawn i g))))
    as (_ & -> & _).
  destruct (draw_keeps (spawn (spawnRand i) (beforeSpawn i g))) as (_ & -> & _).
  assert (He : enemies (beforeSpawn i g) = enemies (updateEnemies (beforeEnemies i g))).
  { unfold beforeSpawn.
    now destruct (updateSafeZone_keeps (updateEnemies (beforeEnemies i g)))
      as (_ & _ & -> & _). }
  unfold spawn. destruct (spawnDue (beforeSpawn i g)).
  - cbn [enemies set_timeSinceLastSpawn set_enemies]. now rewrite He.
  - exact He.
Qed.

Lemma spawnEnemy_health (r : Z * Z * Z) : health (spawnEnemy r) = 50.
Proof. destruct r as [[rx ry] rs]. reflexivity. Qed.



(** *** Bullets against enemies *)

Lemma move_update_health (p : Vector2f) (e : Entity) :
  health (move (Enemy_update p e)) = health e.
Proof. unfold move, Enemy_update. now destruct (F32.gt _ _). Qed.

Lemma enemyLoop_cons (e : Entity) (rest : list Entity) (g : Game) :
  enemyLoop (e :: rest) g
  = let e1 := move (Enemy_update (getPosition (player g)) e) in
    let r := scanBullets e1 (bullets g) (score g) (killCount g) in
    let g1 := set_score (s_score r) (s_kills r) (set_bullets (s_bullets r) g) in
    if s_dead r then enemyLoop rest g1
    else
      let g2 := if touchesPlayer (player g1) (s_enemy r)
                then set_player (takeDamage (player g1) 1) g1
                else g1 in
      (s_enemy r :: fst (enemyLoop rest g2), snd (enemyLoop rest g2)).
Proof.
  cbn [enemyLoop]. cbv zeta.
  destruct (s_dead _); [reflexivity|].
  now destruct (enemyLoop rest _).
Qed.

Lemma sub_self_finite (x : float) :
  isFinite x = true -> F32.sub x x = S754_zero false.
Proof.
  destruct x as [[]| | |s m e]; try discriminate; intros _; try reflexivity.
  unfold F32.sub, SFsub. now rewrite Z.sub_diag.
Qed.

(** A bullet of radius 5 lying exactly on an enemy is in range: the
    distance is 0, below 5 + 12. *)
Lemma bulletHits_at_enemy (e : Entity) (b : Bullet) :
  bpos b = getPosition e ->
  isFinite (vx (getPosition e)) = true ->
  isFinite (vy (getPosition e)) = true ->
  getRadius b = F32.of_int 5 ->
  bulletHits e b = true.
Proof.
  intros Hp Hx Hy Hr. unfold bulletHits.
  rewrite Hp, Hr, (sub_self_finite _ Hx), (sub_self_finite _ Hy).
  vm_compute. reflexivity.
Qed.

(** The scan of one enemy, in any state [g] in which it is visited: the
    first bullet in range takes the only effect. *)
Lemma first_hit_scan :
  forall (g : Game) (e : Entity) (rest : list Entity)
         (l1 l2 : list Bullet) (b : Bullet),
    let e1 := move (Enemy_update (getPosition (player g)) e) in
    bullets g = l1 ++ b :: l2 ->
    Forall (fun b' => bulletHits e1 b' = false) l1 ->
    bulletHits e1 b = true ->
    let r := scanBullets e1 (bullets g) (score g) (killCount g) in
    bulletHits e1 b
    = F32.lt (F32.sqrt
                (F32.add
                   (F32.mul (F32.sub (vx (bpos b)) (vx (getPosition e1)))
                            (F32.sub (vx (bpos b)) (vx (getPosition e1))))
                   (F32.mul (F32.sub (vy (bpos b)) (vy (getPosition e1)))
                            (F32.sub (vy (bpos b)) (vy (getPosition e1))))))
             (F32.add (getRadius b) (F32.of_int 12))
    /\ s_enemy r = takeDamage e1 25
    /\ health (s_enemy r) = health e - 25
    /\ s_bullets r = l1 ++ l2
    /\ s_dead r = (health e - 25 <=? 0)
    /\ (health e - 25 <= 0 ->
        s_score r = score g + 10 /\ s_kills r = killCount g + 1
        /\ enemyLoop (e :: rest) g
           = enemyLoop rest
               (set_score (score g + 10) (killCount g + 1)
                          (set_bullets (l1 ++ l2) g)))
    /\ (0 < health e - 25 ->
        s_score r = score g /\ s_kills r = killCount g
        /\ let g1 := set_score (score g) (killCount g) (set_bullets (l1 ++ l2) g) in
           let g2 := if touchesPlayer (player g1) (takeDamage e1 25)
                     then set_player (takeDamage (player g1) 1) g1
                     else g1 in
           enemyLoop (e :: rest) g
           = (takeDamage e1 25 :: fst (enemyLoop rest g2), snd (enemyLoop rest g2))).
Proof.
  intros g e rest l1 l2 b e1 Hbs Hl1 Hb r.
  assert (Hh : health (takeDamage e1 25) = health e - 25).
  { cbn [takeDamage health]. subst e1. now rewrite move_update_health. }
  assert (Hr : r = if negb (isAlive (takeDamage e1 25))
                   then mkScan (takeDamage e1 25) (l1 ++ l2)
                               (score g + 10) (killCount g + 1) true
                   else mkScan (takeDamage e1 25) (l1 ++ l2)
                               (score g) (killCount g) false).
  { subst r. rewrite Hbs. now apply scanBullets_hit. }
  assert (Hd : negb (isAlive (takeDamage e1 25)) = (health e - 25 <=? 0)).
  { unfold isAlive. rewrite Hh.
    destruct (Z.ltb_spec 0 (health e - 25)), (Z.leb_spec (health e - 25) 0);
      simpl; lia || reflexivity. }
  rewrite Hd in Hr.
  split; [reflexivity|].
  split; [rewrite Hr; now destruct (_ <=? _)|].
  split; [rewrite Hr; destruct (_ <=? _); exact Hh|].
  split; [rewrite Hr; now destruct (_ <=? _)|].
  split; [rewrite Hr; now destruct (_ <=? _)|].
  split.
  - intros Hle. apply Z.leb_le in Hle. rewrite Hle in Hr.
    rewrite enemyLoop_cons. cbv zeta. fold e1. fold r.
    rewrite Hr. cbn [s_score s_kills s_dead s_bullets]. tauto.
  - intros Hgt. apply Z.leb_gt in Hgt. rewrite Hgt in Hr.
    rewrite enemyLoop_cons. cbv zeta. fold e1. fold r.
    rewrite Hr. cbn [s_score s_kills s_dead s_bullets s_enemy]. tauto.
Qed.

(** *** The end of the session *)

Lemma fileWrites_app (t u : list Effect) :
  fileWrites (t ++ u) = (fileWrites t + fileWrites u)%nat.
Proof. unfold fileWrites. now rewrite filter_app, length_app. Qed.

Lemma handleEvent_writes (ev : Event) (g : Game) :
  fileWrites (trace (handleEvent ev g)) = fileWrites (trace g).
Proof.
  unfold handleEvent.
  destruct (etype ev) as [|[]|]; try destruct (canFire ev g);
    cbn [trace emit set_windowOpen fire set_bulletClock set_bullets];
    rewrite ?fileWrites_app; cbn; lia.
Qed.

Lemma pollEvents_writes (evs : list Event) (g : Game) :
  fileWrites (trace (pollEvents evs g)) = fileWrites (trace g).
Proof.
  revert g. induction evs as [|ev evs IH]; intros g; cbn [pollEvents]; [reflexivity|].
  destruct (windowOpen g); [|reflexivity].
  now rewrite IH, handleEvent_writes.
Qed.

Lemma tick_trace (now : Z) (g : Game) : trace (tick now g) = trace g.
Proof. reflexivity. Qed.

Lemma updatePlayer_trace (k : Keys) (g : Game) : trace (updatePlayer k g) = trace g.
Proof. reflexivity. Qed.

Lemma updateBullets_trace (g : Game) : trace (updateBullets g) = trace g.
Proof. reflexivity. Qed.

Lemma updateEnemies_trace (g : Game) : trace (updateEnemies g) = trace g.
Proof.
  rewrite updateEnemies_eq. cbn [trace set_enemies].
  apply (enemyLoop_frame (enemies g) g).
Qed.

Lemma simulate_trace (i : FrameInput) (g : Game) : trace (simulate i g) = trace g.
Proof.
  unfold simulate.
  destruct (spawn_keeps (spawnRand i)
              (updateSafeZone (updateEnemies (updateBullets
                 (updatePlayer (keys i) (tick (frameTime i) g))))))
    as (_ & _ & _ & _ & _ & _ & _ & ->).
  destruct (updateSafeZone_keeps (updateEnemies (updateBullets
              (updatePlayer (keys i) (tick (frameTime i) g)))))
    as (_ & _ & _ & _ & _ & _ & _ & _ & _ & ->).
  now rewrite updateEnemies_trace, updateBullets_trace, updatePlayer_trace, tick_trace.
Qed.

Lemma beforeGameOver_writes (i : FrameInput) (g : Game) :
  fileWrites (trace (beforeGameOver i g)) = fileWrites (trace g).
Proof.
  unfold beforeGameOver, draw. cbn [trace emit].
  rewrite fileWrites_app, simulate_trace, pollEvents_writes. cbn. lia.
Qed.

Lemma gameOver_alive (g : Game) : 0 < health (player g) -> gameOver g = g.
Proof.
  intros H. unfold gameOver, isAlive.
  apply Z.ltb_lt in H. now rewrite H.
Qed.

Lemma gameOver_dead (g : Game) :
  health (player g) <= 0 ->
  gameOver g
  = set_windowOpen false
      (emit [WriteFile "game_score.txt" (scoreText g);
             DrawGameOver (gameOverText g);
             Sleep 3;
             CloseWindow]
         (set_scoreFile (Some (scoreText g)) g)).
Proof.
  intros H. unfold gameOver, isAlive.
  apply Z.ltb_ge in H. now rewrite H.
Qed.

Lemma gameOver_dead_fields (g : Game) :
  health (player g) <= 0 ->
  scoreFile (gameOver g)
  = Some ("Final Score: " ++ to_string (score g) ++ newline
          ++ "Kills: " ++ to_string (killCount g))%string
  /\ trace (gameOver g)
     = trace g ++ [WriteFile "game_score.txt" (scoreText g);
                   DrawGameOver (gameOverText g);
                   Sleep 3;
                   CloseWindow]
  /\ windowOpen (gameOver g) = false
  /\ score (gameOver g) = score g
  /\ killCount (gameOver g) = killCount g.
Proof.
  intros H. rewrite (gameOver_dead g H).
  cbn [scoreFile trace windowOpen score killCount set_windowOpen emit set_scoreFile].
  unfold scoreText. tauto.
Qed.

Lemma gameOver_open (g : Game) :
  windowOpen (gameOver g) = true ->
  gameOver g = g.
Proof.
  unfold gameOver. destruct (negb _); [discriminate|reflexivity].
Qed.

Lemma frame_gameOver (i : FrameInput) (g : Game) :
  frame i g = gameOver (beforeGameOver i g).
Proof. unfold frame, beforeGameOver. reflexivity. Qed.

Lemma run_closed (inputs : list FrameInput) (g : Game) :
  windowOpen g = false -> run inputs g = g.
Proof. intros H. destruct inputs; cbn [run]; [reflexivity|now rewrite H]. Qed.

Lemma run_app (pre post : list FrameInput) (g : Game) :
  run (pre ++ post) g = run post (run pre g).
Proof.
  revert g. induction pre as [|i pre IH]; intros g; cbn [run app]; [reflexivity|].
  destruct (windowOpen g) eqn:E; [apply IH|].
  now rewrite run_closed.
Qed.

(** While the window stays open nothing has been written. *)
Lemma run_open_writes (pre : list FrameInput) (g : Game) :
  windowOpen (run pre g) = true ->
  fileWrites (trace (run pre g)) = fileWrites (trace g).
Proof.
  revert g. induction pre as [|i pre IH]; intros g; cbn [run]; [reflexivity|].
  destruct (windowOpen g) eqn:E; [|reflexivity].
  intros H. rewrite (IH _ H).
  assert (Ho : windowOpen (frame i g) = true).
  { destruct (windowOpen (frame i g)) eqn:Ef; [reflexivity|].
    now rewrite (run_closed pre _ Ef), Ef in H. }
  rewrite frame_gameOver in *. rewrite (gameOver_open _ Ho).
  apply beforeGameOver_writes.
Qed.

(** C7. Let the loop still be running after the frames [pre], and let the
    health test at the end of the next frame see the player's health <= 0.
    Then that frame overwrites the score file with the two lines
    "Final Score: {score}" and "Kills: {killCount}" (the values at that
    moment), draws the end screen, sleeps 3 seconds and closes the window,
    in this order; the file has been written exactly once since the run
    started, and the loop consumes no later frame.  A frame whose test sees
    a positive health writes nothing. *)
Theorem game_over_exactly_once :
  forall (pre post : list FrameInput) (i : FrameInput) (g : Game),
    windowOpen (run pre g) = true ->
    let g1 := beforeGameOver i (run pre g) in
    health (player g1) <= 0 ->
    let final := run (pre ++ i :: post) g in
    final = frame i (run pre g)
    /\ scoreFile final
       = Some ("Final Score: " ++ to_string (score g1) ++ newline
               ++ "Kills: " ++ to_string (killCount g1))%string
    /\ trace final
       = trace g1 ++ [WriteFile "game_score.txt" (scoreText g1);
                      DrawGameOver (gameOverText g1);
                      Sleep 3;
                      CloseWindow]
    /\ fileWrites (trace final) = S (fileWrites (trace g))
    /\ windowOpen final = false
    /\ score final = score g1 /\ killCount final = killCount g1
    /\ (forall (j : FrameInput) (h : Game),
          0 < health (player (beforeGameOver j h)) ->
          frame j h = beforeGameOver j h).
Proof.
  intros pre post i g Hopen g1 Hdead final.
  destruct (gameOver_dead_fields g1 Hdead) as (Hfile & Htrace & Hwin & Hsc & Hkc).
  assert (Hfinal : final = gameOver g1).
  { subst final g1. rewrite run_app. cbn [run]. rewrite Hopen.
    rewrite frame_gameOver. apply run_closed. exact Hwin. }
  rewrite Hfinal.
  split; [subst g1; now rewrite frame_gameOver|].
  split; [exact Hfile|].
  split; [exact Htrace|].
  split.
  { rewrite Htrace, fileWrites_app. subst g1.
    rewrite beforeGameOver_writes, (run_open_writes _ _ Hopen).
    cbn. lia. }
  split; [exact Hwin|].
  split; [exact Hsc|].
  split; [exact Hkc|].
  intros j h Hh. rewrite frame_gameOver. now apply gameOver_alive.
Qed.

Lemma game_over_exactly_once_witness :
  let g := set_player (takeDamage Player_new 100) initial in
  let i := mkInput [] 16667 (mkKeys false false false false) (0, 0, 0) in
  scoreFile (run ([] ++ i :: [i; i]) g)
  = Some ("Final Score: 0" ++ newline ++ "Kills: 0")%string.
Proof.
  intros g i.
  assert (H1 : windowOpen (run [] g) = true) by reflexivity.
  assert (H2 : health (player (beforeGameOver i (run [] g))) <= 0).
  { vm_compute. discriminate. }
  destruct (game_over_exactly_once [] [i; i] i g H1 H2) as (_ & -> & _).
  vm_compute. reflexivity.
Defined.

(** *** Zero-length directions *)

Lemma sub_same (x y : float) :
  x = y \/ F32.eqb x y = true -> zeroOrNan (F32.sub x y) = true.
Proof.
  intros [->|H].
  - destruct y as [[]|[]| |s m e]; try reflexivity.
    unfold F32.sub, SFsub. now rewrite Z.sub_diag.
  - unfold F32.eqb, SFeqb in H.
    destruct x as [[]|[]| |[] mx ex], y as [[]|[]| |[] my ey];
      try discriminate H; try reflexivity; cbn [SFcompare] in H.
    + change (Pos.compare_cont Eq mx my) with (Pos.compare mx my) in H.
      destruct (Z.compare_spec ex ey) as [->|_|_]; try discriminate H.
      destruct (Pos.compare_spec mx my) as [->|_|_]; try discriminate H.
      unfold F32.sub, SFsub. now rewrite Z.sub_diag.
    + change (Pos.compare_cont Eq mx my) with (Pos.compare mx my) in H.
      destruct (Z.compare_spec ex ey) as [->|_|_]; try discriminate H.
      destruct (Pos.compare_spec mx my) as [->|_|_]; try discriminate H.
      unfold F32.sub, SFsub. now rewrite Z.sub_diag.
Qed.

Lemma length_zeroOrNan (dx dy : float) :
  zeroOrNan dx = true -> zeroOrNan dy = true ->
  F32.gt (F32.sqrt (F32.add (F32.mul dx dx) (F32.mul dy dy))) F32.zero = false.
Proof.
  destruct dx as [[]|[]| |sx mx ex]; try discriminate;
    destruct dy as [[]|[]| |sy my ey]; try discriminate; reflexivity.
Qed.

Lemma veqb_sym (a b : Vector2f) : veqb a b = true -> veqb b a = true.
Proof.
  unfold veqb. rewrite !andb_true_iff. intros [H1 H2].
  split; now apply eqb_sym.
Qed.

Lemma samePosition_sub (a b : Vector2f) :
  samePosition a b ->
  zeroOrNan (vx (vsub a b)) = true /\ zeroOrNan (vy (vsub a b)) = true.
Proof.
  intros [->|H]; cbn [vsub vx vy].
  - split; apply sub_same; now left.
  - unfold veqb in H. apply andb_true_iff in H as [H1 H2].
    split; apply sub_same; now right.
Qed.

Lemma samePosition_sym (a b : Vector2f) : samePosition a b -> samePosition b a.
Proof. intros [->|H]; [now left|right; now apply veqb_sym]. Qed.

Lemma Enemy_update_same (p : Vector2f) (e : Entity) :
  samePosition (position e) p -> Enemy_update p e = e.
Proof.
  intros H. apply samePosition_sym, samePosition_sub in H as [Hx Hy].
  unfold Enemy_update. now rewrite (length_zeroOrNan _ _ Hx Hy).
Qed.

Lemma Bullet_new_same (x y tx ty : float) :
  samePosition (mkVec tx ty) (mkVec x y) ->
  Bullet_new x y (F32.sub tx x) (F32.sub ty y)
  = mkBullet (mkVec x y) vzero BULLET_SPEED (F32.of_int 5).
Proof.
  intros H. apply samePosition_sub in H as [Hx Hy]. cbn [vsub vx vy] in Hx, Hy.
  unfold Bullet_new. now rewrite (length_zeroOrNan _ _ Hx Hy).
Qed.

(** C6. A zero-length direction divides nothing: an enemy updated while it
    stands at the player's position comes out of [Enemy::update] unchanged,
    so its velocity is the one it had, and a bullet fired while the mouse
    aims at the player's position is created there with the zero vector as
    velocity.  Every operation of the model is total, so neither case can
    fail. *)
Theorem zero_length_direction_is_harmless :
  (forall (playerPos : Vector2f) (e : Entity),
      samePosition (position e) playerPos ->
      Enemy_update playerPos e = e
      /\ velocity (Enemy_update playerPos e) = velocity e)
  /\ (forall (ev : Event) (g : Game),
        samePosition (aimTarget ev) (getPosition (player g)) ->
        exists b : Bullet,
          bullets (fire ev g) = bullets g ++ [b]
          /\ bpos b = getPosition (player g)
          /\ bvel b = vzero).
Proof.
  split.
  - intros p e H. rewrite (Enemy_update_same p e H). now split.
  - intros ev g H.
    exists (mkBullet (getPosition (player g)) vzero BULLET_SPEED (F32.of_int 5)).
    split; [|split; reflexivity].
    unfold fire. cbn [bullets set_bulletClock emit set_bullets].
    f_equal. f_equal.
    destruct (getPosition (player g)) as [x y] eqn:E.
    cbn [vx vy]. apply Bullet_new_same. exact H.
Qed.

Lemma zero_length_direction_is_harmless_witness :
  let e := enemyAt 600 350 50 in
  let ev := mkEvent (MouseButtonPressed ButtonLeft) 400000 (600, 350) in
  velocity (Enemy_update (getPosition (player initial)) e) = velocity e
  /\ exists b : Bullet,
       bullets (fire ev initial) = bullets initial ++ [b]
       /\ bpos b = getPosition (player initial)
       /\ bvel b = vzero.
Proof.
  intros e ev. split.
  - apply (proj1 zero_length_direction_is_harmless). right. vm_compute. reflexivity.
  - apply (proj2 zero_length_direction_is_harmless). right. vm_compute. reflexivity.
Defined.

(** *** The fire cooldown *)

Lemma coolingDown_correct (n : nat) (d : Z) :
  coolingDown n d = true ->
  forall k : Z, d <= k < d + Z.of_nat n ->
                F32.gt (asSeconds k) BULLET_COOLDOWN = false.
Proof.
  revert d. induction n as [|n IH]; intros d H k Hk; [lia|].
  cbn [coolingDown] in H.
  destruct (F32.gt (asSeconds d) BULLET_COOLDOWN) eqn:E; [discriminate|].
  destruct (Z.eq_dec k d) as [->|Hne]; [exact E|].
  apply (IH (d + 1) H). lia.
Qed.

(** Up to and including 0.3 s after the clock was restarted the test
    [elapsed > BULLET_COOLDOWN] is false. *)
Lemma within_cooldown (d : Z) :
  0 <= d <= 300000 -> F32.gt (asSeconds d) BULLET_COOLDOWN = false.
Proof.
  intros H. apply (coolingDown_correct (Z.to_nat 300001) 0); [|lia].
  vm_cast_no_check (@eq_refl bool true).
Qed.

Lemma asSeconds_cooldown : asSeconds 300000 = BULLET_COOLDOWN.
Proof. vm_compute. reflexivity. Qed.

Lemma handleEvent_fire (ev : Event) (g : Game) :
  etype ev = MouseButtonPressed ButtonLeft ->
  handleEvent ev g = if canFire ev g then fire ev g else g.
Proof. intros H. unfold handleEvent. now rewrite H. Qed.

(** C3, as stated, fails: 0.3 s after the clock was started the elapsed
    time is equal to the cooldown, yet the press creates no bullet. *)
Lemma fire_at_cooldown_counterexample :
  let ev := fireEvent 300000 (0, 0) in
  etype ev = MouseButtonPressed ButtonLeft
  /\ F32.le BULLET_COOLDOWN (asSeconds (etime ev - bulletClock initial)) = true
  /\ bullets (handleEvent ev initial) = bullets initial.
Proof.
  intros ev. split; [reflexivity|]. split; vm_compute; reflexivity.
Qed.

(** C3, amended. A press of the left button creates a bullet if and only
    if the time elapsed since the bullet clock was restarted is strictly
    greater than the cooldown 0.3f.  When it does, exactly one bullet is
    appended, at the player's position, the shot sound is played and the
    bullet clock restarts at that time; when it does not, nothing changes.
    So a second press at most 0.3 s after a press that fired creates
    nothing: the two presses yield one bullet.  Whether the first fires
    or not, two presses at most 0.3 s apart yield at most one bullet:
    one if either comes more than 0.3 s after the clock was restarted,
    none otherwise. *)
Theorem fire_iff_elapsed_above_cooldown :
  forall (ev : Event) (g : Game),
    etype ev = MouseButtonPressed ButtonLeft ->
    let elapsed := asSeconds (etime ev - bulletClock g) in
    (List.length (bullets (handleEvent ev g)) = S (List.length (bullets g))
     <-> F32.gt elapsed BULLET_COOLDOWN = true)
    /\ (F32.gt elapsed BULLET_COOLDOWN = true ->
     exists b : Bullet,
       handleEvent ev g
       = set_bulletClock (etime ev) (emit [PlayShoot] (set_bullets (bullets g ++ [b]) g))
       /\ bpos b = getPosition (player g)
       /\ bullets (handleEvent ev g) = bullets g ++ [b]
       /\ bulletClock (handleEvent ev g) = etime ev)
    /\ (F32.gt elapsed BULLET_COOLDOWN = false -> handleEvent ev g = g)
    /\ (forall (ev2 : Event) (g' : Game),
          etype ev2 = MouseButtonPressed ButtonLeft ->
          bulletClock g' = etime ev ->
          0 <= etime ev2 - etime ev <= 300000 ->
          handleEvent ev2 g' = g')
    /\ (forall ev2 : Event,
          etype ev2 = MouseButtonPressed ButtonLeft ->
          windowOpen g = true ->
          F32.gt elapsed BULLET_COOLDOWN = true ->
          0 <= etime ev2 - etime ev <= 300000 ->
          List.length (bullets (pollEvents [ev; ev2] g))
          = S (List.length (bullets g)))
    /\ (forall ev2 : Event,
          etype ev2 = MouseButtonPressed ButtonLeft ->
          windowOpen g = true ->
          0 <= etime ev2 - etime ev <= 300000 ->
          List.length (bullets (pollEvents [ev; ev2] g))
          = (List.length (bullets g)
             + (if F32.gt elapsed BULLET_COOLDOWN
                   || F32.gt (asSeconds (etime ev2 - bulletClock g)) BULLET_COOLDOWN
                then 1 else 0))%nat).
Proof.
  intros ev g Hev elapsed.
  assert (Hfire : F32.gt elapsed BULLET_COOLDOWN = true ->
                  handleEvent ev g = fire ev g).
  { intros H. rewrite (handleEvent_fire _ _ Hev). unfold canFire. fold elapsed.
    now rewrite H. }
  assert (Hcool : forall (ev2 : Event) (g' : Game),
             etype ev2 = MouseButtonPressed ButtonLeft ->
             bulletClock g' = etime ev ->
             0 <= etime ev2 - etime ev <= 300000 ->
             handleEvent ev2 g' = g').
  { intros ev2 g' Hev2 Hclock Hd.
    rewrite (handleEvent_fire _ _ Hev2). unfold canFire.
    now rewrite Hclock, (within_cooldown _ Hd). }
  split; [|split; [|split; [|split; [|split]]]].
  - destruct (F32.gt elapsed BULLET_COOLDOWN) eqn:E.
    + split; [reflexivity|]. intros _. rewrite (Hfire eq_refl).
      cbn [fire bullets set_bulletClock emit set_bullets].
      rewrite length_app. cbn. lia.
    + split; [|discriminate]. intros H.
      rewrite (handleEvent_fire _ _ Hev) in H. unfold canFire in H.
      fold elapsed in H. rewrite E in H. lia.
  - intros H. rewrite (Hfire H).
    eexists. split; [reflexivity|]. split; [|split; reflexivity].
    unfold Bullet_new. cbn [bpos]. now destruct (getPosition (player g)).
  - intros H. rewrite (handleEvent_fire _ _ Hev). unfold canFire. fold elapsed.
    now rewrite H.
  - exact Hcool.
  - intros ev2 Hev2 Hw H Hd. cbn [pollEvents].
    rewrite Hw, (Hfire H).
    assert (Hw' : windowOpen (fire ev g) = true) by exact Hw.
    rewrite Hw'.
    rewrite (Hcool ev2 (fire ev g) Hev2 eq_refl Hd).
    cbn [fire bullets set_bulletClock emit set_bullets].
    rewrite length_app. cbn. lia.
  - intros ev2 Hev2 Hw Hd. cbn [pollEvents]. rewrite Hw.
    destruct (F32.gt elapsed BULLET_COOLDOWN) eqn:E.
    + rewrite (Hfire eq_refl).
      assert (Hw' : windowOpen (fire ev g) = true) by exact Hw.
      rewrite Hw', (Hcool ev2 (fire ev g) Hev2 eq_refl Hd).
      cbn [fire bullets set_bulletClock emit set_bullets orb].
      rewrite length_app. reflexivity.
    + rewrite (handleEvent_fire _ _ Hev). unfold canFire at 1 2. fold elapsed.
      rewrite E, Hw, (handleEvent_fire _ _ Hev2). unfold canFire. cbn [orb].
      destruct (F32.gt (asSeconds (etime ev2 - bulletClock g)) BULLET_COOLDOWN).
      * cbn [fire bullets set_bulletClock emit set_bullets].
        rewrite length_app. reflexivity.
      * lia.
Qed.

Lemma fire_iff_elapsed_above_cooldown_witness :
  let ev := fireEvent 300001 (700, 350) in
  let ev2 := fireEvent 600001 (700, 350) in
  List.length (bullets (pollEvents [ev; ev2] initial)) = 1%nat.
Proof.
  intros ev ev2.
  apply (proj1 (proj2 (proj2 (proj2 (proj2
           (fire_iff_elapsed_above_cooldown ev initial eq_refl))))) ev2 eq_refl eq_refl).
  - vm_compute. reflexivity.
  - vm_compute. split; discriminate.
Defined.

(** *** The safe zone *)

Lemma frame_safeZone (i : FrameInput) (g : Game) :
  safeZone (frame i g) = SafeZone_update (safeZone g).
Proof.
  rewrite frame_unfold.
  destruct (gameOver_keeps (draw (spawn (spawnRand i) (beforeSpawn i g))))
    as (_ & _ & _ & _ & _ & -> & _).
  destruct (draw_keeps (spawn (spawnRand i) (beforeSpawn i g)))
    as (_ & _ & _ & _ & _ & -> & _).
  destruct (spawn_keeps (spawnRand i) (beforeSpawn i g)) as (_ & _ & _ & _ & -> & _).
  unfold beforeSpawn.
  assert (H : forall h, safeZone (updateSafeZone h) = SafeZone_update (safeZone h)).
  { intros h. unfold updateSafeZone. cbv zeta. now destruct (negb _). }
  rewrite H, updateEnemies_eq. cbn [safeZone set_enemies].
  destruct (enemyLoop_frame (enemies (beforeEnemies i g)) (beforeEnemies i g))
    as (_ & _ & _ & -> & _).
  f_equal. apply beforeEnemies_keeps.
Qed.

(** While the loop is running, the zone has been updated once per frame. *)
Lemma run_safeZone (inputs : list FrameInput) (g : Game) :
  windowOpen (run inputs g) = true ->
  safeZone (run inputs g) = Nat.iter (List.length inputs) SafeZone_update (safeZone g).
Proof.
  revert g. induction inputs as [|i inputs IH]; intros g; cbn [run]; [reflexivity|].
  destruct (windowOpen g) eqn:E; [|congruence].
  intros H. rewrite (IH _ H), frame_safeZone.
  cbn [List.length]. now rewrite Nat.iter_succ_r.
Qed.

Lemma zoneAfter_2999 :
  zoneAfter 2999
  = mkZone SAFE_ZONE_SHRINK_RATE (F32.of_int 50) (S754_finite false 13130176 (-18)).
Proof. vm_compute. reflexivity. Qed.

Lemma zoneAfter_S (n : nat) : zoneAfter (S n) = SafeZone_update (zoneAfter n).
Proof. reflexivity. Qed.

Lemma zoneAfter_3000 :
  zoneAfter 3000
  = mkZone SAFE_ZONE_SHRINK_RATE (F32.of_int 50) (S754_finite false 13103962 (-18)).
Proof. rewrite zoneAfter_S, zoneAfter_2999. vm_compute. reflexivity. Qed.

Lemma zoneAfter_held (n : nat) :
  (3000 <= n)%nat -> zoneAfter n = zoneAfter 3000.
Proof.
  induction 1 as [|n Hn IH]; [reflexivity|].
  rewrite zoneAfter_S, IH, zoneAfter_3000. vm_compute. reflexivity.
Qed.

(** C2, what the code does.  Each frame calls [SafeZone::update] once, so
    after n frames of a running session the zone is the initial one
    updated n times.
    From the initial radius 350.0f, 2999 updates leave the radius at
    13130176 * 2^-18 (about 50.0876), still above the floor 50.0f, and the
    3000th subtracts 0.1f once more: the radius becomes 13103962 * 2^-18
    (about 49.98765), which is below [minRadius], not equal to it, and it
    keeps that value in every later frame. *)
Theorem safe_zone_radius_ends_below_floor :
  (forall (i : FrameInput) (g : Game),
      safeZone (frame i g) = SafeZone_update (safeZone g))
  /\ (forall (initRand : nat -> Z * Z * Z) (t0 : Z) (file : option string)
             (inputs : list FrameInput),
        windowOpen (run inputs (init initRand t0 file)) = true ->
        safeZone (run inputs (init initRand t0 file)) = zoneAfter (List.length inputs))
  /\ radius SafeZone_new = F32.of_int 350
  /\ minRadius SafeZone_new = F32.of_int 50
  /\ F32.gt (radius (zoneAfter 2999)) (F32.of_int 50) = true
  /\ radius (zoneAfter 3000) = S754_finite false 13103962 (-18)
  /\ F32.eqb (radius (zoneAfter 3000)) (F32.of_int 50) = false
  /\ F32.lt (radius (zoneAfter 3000)) (minRadius (zoneAfter 3000)) = true
  /\ (forall n : nat, (3000 <= n)%nat -> zoneAfter n = zoneAfter 3000).
Proof.
  split; [exact frame_safeZone|].
  split; [intros initRand t0 file inputs H; now rewrite (run_safeZone _ _ H)|].
  split; [vm_compute; reflexivity|].
  split; [vm_compute; reflexivity|].
  rewrite zoneAfter_2999, zoneAfter_3000.
  split; [vm_compute; reflexivity|].
  split; [reflexivity|].
  split; [vm_compute; reflexivity|].
  split; [vm_compute; reflexivity|].
  intros n Hn. rewrite <- zoneAfter_3000. now apply zoneAfter_held.
Qed.

Lemma safe_zone_radius_ends_below_floor_witness :
  radius (zoneAfter 3500) = S754_finite false 13103962 (-18).
Proof.
  rewrite (proj2 (proj2 (proj2 (proj2 (proj2 (proj2 (proj2 (proj2
             safe_zone_radius_ends_below_floor))))))) 3500%nat).
  - exact (proj1 (proj2 (proj2 (proj2 (proj2 (proj2
             safe_zone_radius_ends_below_floor)))))).
  - apply Nat.leb_le. vm_compute. reflexivity.
Defined.

(** *** The player and the window *)





(** *** Rounding in binary32 *)

Lemma dig_pos (p : positive) : 0 < dig p.
Proof. unfold dig. lia. Qed.

Lemma dig_bounds (p : positive) : 2 ^ (dig p - 1) <= Zpos p < 2 ^ dig p.
Proof.
  unfold dig. induction p as [p IH|p IH|]; cbn [digits2_pos].
  - rewrite Pos2Z.inj_succ.
    replace (Z.succ (Zpos (digits2_pos p)) - 1) with (Z.succ (Zpos (digits2_pos p) - 1)) by lia.
    rewrite !Z.pow_succ_r by lia. lia.
  - rewrite Pos2Z.inj_succ.
    replace (Z.succ (Zpos (digits2_pos p)) - 1) with (Z.succ (Zpos (digits2_pos p) - 1)) by lia.
    rewrite !Z.pow_succ_r by lia. lia.
  - cbn. lia.
Qed.

Lemma dig_unique (p : positive) (k : Z) :
  2 ^ (k - 1) <= Zpos p < 2 ^ k -> dig p = k.
Proof.
  intros [Hlo Hhi]. pose proof (dig_bounds p) as [Dlo Dhi]. pose proof (dig_pos p).
  assert (0 < k).
  { destruct (Z.ltb_spec 0 k); [assumption|].
    assert (2 ^ k <= 2 ^ 0) by (apply Z.pow_le_mono_r; lia). cbn in *. lia. }
  assert (dig p - 1 < k).
  { apply (Z.pow_lt_mono_r_iff 2); lia. }
  assert (k - 1 < dig p).
  { apply (Z.pow_lt_mono_r_iff 2); lia. }
  lia.
Qed.

Lemma fexp32 (e : Z) : fexp 24 128 e = Z.max (e - 24) (-149).
Proof. reflexivity. Qed.

(** Shifting right. *)

Lemma shr_1_m (x : shr_record) :
  0 <= shr_m x -> shr_m (shr_1 x) = shr_m x / 2.
Proof.
  destruct x as [m r s]. cbn [shr_m]. intros H.
  rewrite <- Z.div2_div.
  destruct m as [|[p|p|]|p]; try reflexivity; lia.
Qed.

Lemma iter_pos_shr_m (n : positive) (x : shr_record) :
  0 <= shr_m x ->
  shr_m (iter_pos shr_1 n x) = shr_m x / 2 ^ Zpos n
  /\ 0 <= shr_m (iter_pos shr_1 n x).
Proof.
  revert x. 
  assert (Hdiv : forall a b, 0 <= a -> 0 < b -> 0 <= a / b).
  { intros. apply Z.div_pos; lia. }
  induction n as [n IH|n IH|]; intros x Hx; cbn [iter_pos].
  - pose proof (shr_1_m x Hx) as H1.
    assert (H1' : 0 <= shr_m (shr_1 x)) by (rewrite H1; apply Hdiv; lia).
    destruct (IH _ H1') as [H2 H2'].
    destruct (IH _ H2') as [H3 H3'].
    split; [|exact H3'].
    rewrite H3, H2, H1.
    rewrite !Z.div_div by (try apply Z.pow_pos_nonneg; lia).
    f_equal. rewrite <- Z.pow_add_r by lia.
    change 2 with (2 ^ 1) at 1. rewrite <- Z.pow_add_r by lia. f_equal. lia.
  - destruct (IH _ Hx) as [H2 H2'].
    destruct (IH _ H2') as [H3 H3'].
    split; [|exact H3'].
    rewrite H3, H2.
    rewrite !Z.div_div by (try apply Z.pow_pos_nonneg; lia).
    f_equal. rewrite <- Z.pow_add_r by lia. f_equal. lia.
  - pose proof (shr_1_m x Hx) as H1. split; [exact H1|].
    rewrite H1. apply Hdiv; lia.
Qed.

Lemma round_nearest_even_bounds (m : Z) (l : location) :
  m <= round_nearest_even m l <= m + 1.
Proof.
  destruct l as [|[]]; cbn; try lia. destruct (Z.even m); lia.
Qed.

(** [shr] by a non-negative amount. *)
Lemma shr_m_spec (x : shr_record) (e n : Z) :
  0 <= shr_m x -> 0 <= n ->
  shr_m (fst (shr x e n)) = shr_m x / 2 ^ n /\ snd (shr x e n) = e + n.
Proof.
  intros Hx Hn. destruct n as [|n|n]; cbn [shr fst snd]; try lia.
  - rewrite Z.div_1_r. split; [reflexivity|lia].
  - split; [apply iter_pos_shr_m; exact Hx|reflexivity].
Qed.

Lemma shl_align_fst (m : positive) (e e' : Z) :
  e' <= e -> Zpos (fst (shl_align m e e')) = Zpos m * 2 ^ (e - e').
Proof.
  intros H. unfold shl_align.
  destruct (e' - e) as [|d|d] eqn:E; cbn [fst]; try lia.
  - replace (e - e') with 0 by lia. cbn. lia.
  - change (Pos.iter xO m d) with (shift_pos d m).
    rewrite shift_pos_correct. replace (e - e') with (Zpos d) by lia.
    change (Z.pow_pos 2 d) with (2 ^ Zpos d). lia.
Qed.

Lemma shl_align_snd (m : positive) (e e' : Z) :
  snd (shl_align m e e') = Z.min e e'.
Proof.
  unfold shl_align. destruct (e' - e) as [|d|d] eqn:E; cbn [snd]; lia.
Qed.

Lemma pow2_pos (k : Z) : 0 <= k -> 0 < 2 ^ k.
Proof. intros. apply Z.pow_pos_nonneg; lia. Qed.

Lemma div_pow2_bounds (M : positive) (n : Z) :
  0 <= n -> n = dig M - 24 ->
  2 ^ 23 <= Zpos M / 2 ^ n < 2 ^ 24.
Proof.
  intros Hn Hd. pose proof (dig_bounds M) as [Hlo Hhi].
  pose proof (pow2_pos n Hn).
  replace (dig M - 1) with (23 + n) in Hlo by lia.
  replace (dig M) with (24 + n) in Hhi by lia.
  rewrite Z.pow_add_r in Hlo, Hhi by lia.
  split.
  - apply Z.div_le_lower_bound; lia.
  - apply Z.div_lt_upper_bound; lia.
Qed.

Lemma shr_record_of_loc_m (m : Z) (l : location) : shr_m (shr_record_of_loc m l) = m.
Proof. now destruct l as [|[]]. Qed.

(** Rounding a value with at least 24 digits, in the normal range. *)
Lemma binary_round_aux_normal (M : positive) (e : Z) (l : location) :
  24 <= dig M -> -149 <= dig M + e - 24 ->
  let f := dig M + e - 24 in
  let R := binary_round_aux 24 128 false (Zpos M) e l in
  R = S754_infinity false
  \/ exists m4 e4,
       R = S754_finite false m4 e4 /\ dig m4 = 24 /\ e4 <= 104
       /\ ((e4 = f /\ Zpos M / 2 ^ (dig M - 24) <= Zpos m4) \/ e4 = f + 1).
Proof.
  intros Hd He f R. subst R. unfold binary_round_aux, shr_fexp.
  change (Zdigits2 (Zpos M)) with (dig M).
  rewrite fexp32. replace (Z.max (dig M + e - 24) (-149)) with f by lia.
  assert (Hn : 0 <= f - e) by lia.
  pose proof (shr_m_spec (shr_record_of_loc (Zpos M) l) e (f - e)) as Hs.
  rewrite shr_record_of_loc_m in Hs. specialize (Hs ltac:(lia) Hn).
  destruct (shr _ e (f - e)) as [mrs' e'].
  cbn [fst snd] in Hs. destruct Hs as [Hm He'].
  replace e' with f in * by lia. clear He'.
  pose proof (div_pow2_bounds M (f - e) Hn ltac:(lia)) as Hb.
  rewrite <- Hm in Hb.
  pose proof (round_nearest_even_bounds (shr_m mrs') (loc_of_shr_record mrs')) as Hr.
  set (m3 := round_nearest_even (shr_m mrs') (loc_of_shr_record mrs')) in *.
  assert (H3 : 2 ^ 23 <= m3 <= 2 ^ 24) by lia.
  destruct m3 as [|p3|p3] eqn:E3; try (cbn in H3; lia).
  change (Zdigits2 (Zpos p3)) with (dig p3).
  rewrite fexp32.
  destruct (Z.eq_dec (Zpos p3) (2 ^ 24)) as [Hc|Hc].
  - (* the rounding carried *)
    assert (Hp : p3 = 16777216%positive) by (cbn in Hc; lia). subst p3.
    change (dig 16777216) with 25.
    replace (Z.max (25 + f - 24) (-149) - f) with 1 by lia.
    cbn [shr shr_record_of_loc iter_pos shr_1 shr_m Z.add].
    destruct (Z.leb_spec (f + 1) (128 - 24)); [right|left; reflexivity].
    exists 8388608%positive, (f + 1). repeat split; try lia.
  - assert (Hdig : dig p3 = 24) by (apply dig_unique; cbn in *; lia).
    rewrite Hdig.
    replace (Z.max (24 + f - 24) (-149) - f) with 0 by lia.
    cbn [shr shr_record_of_loc shr_m].
    destruct (Z.leb_spec f (128 - 24)); [right|left; reflexivity].
    exists p3, f. repeat split; try lia.
    left. split; [reflexivity|]. replace (dig M - 24) with (f - e) by lia. lia.
Qed.

Lemma valid_above_three (x : float) :
  valid_binary 24 128 x = true -> SFltb three x = true ->
  x = S754_infinity false
  \/ exists mx ex, x = S754_finite false mx ex /\ dig mx = 24 /\ -22 <= ex
                   /\ (-22 < ex \/ (ex = -22 /\ 12582912 < Zpos mx)).
Proof.
  intros Hv Hlt. unfold SFltb, three in Hlt.
  destruct x as [s|[]| |[] mx ex]; cbn [SFcompare] in Hlt; try discriminate.
  - now left.
  - right. exists mx, ex. split; [reflexivity|].
    cbn [valid_binary] in Hv. unfold bounded, canonical_mantissa in Hv.
    apply andb_true_iff in Hv as [Hc _]. apply Z.eqb_eq in Hc.
    rewrite fexp32 in Hc. fold (dig mx) in Hc.
    change (Pos.compare_cont Eq 12582912 mx) with (Pos.compare 12582912 mx) in Hlt.
    destruct (Z.compare_spec (-22) ex) as [He|H|H]; try discriminate Hlt.
    + destruct (12582912 ?= mx)%positive eqn:E; try discriminate Hlt.
      assert (12582912 < mx)%positive by exact E.
      repeat split; lia.
    + repeat split; lia.
Qed.

Lemma above_three_intro (m : positive) (e : Z) :
  -22 < e \/ (e = -22 /\ 12582912 < Zpos m) ->
  SFltb three (S754_finite false m e) = true.
Proof.
  intros H. unfold SFltb, three. cbn [SFcompare].
  change (Pos.compare_cont Eq 12582912 m) with (Pos.compare 12582912 m).
  destruct (Z.compare_spec (-22) e) as [He|He|He]; [|reflexivity|lia].
  assert (Hm : (12582912 < m)%positive) by lia.
  unfold Pos.lt in Hm. now rewrite Hm.
Qed.

Lemma normal_valid (m : positive) (e : Z) :
  dig m = 24 -> -149 <= e <= 104 ->
  valid_binary 24 128 (S754_finite false m e) = true.
Proof.
  intros Hd He. cbn [valid_binary]. unfold bounded, canonical_mantissa.
  fold (dig m). rewrite Hd, fexp32.
  apply andb_true_iff. split; [apply Z.eqb_eq|apply Z.leb_le]; lia.
Qed.

Lemma add_finite_above (mx my : positive) (ex ey : Z) :
  dig mx = 24 -> -149 <= ex ->
  let R := SFadd 24 128 (S754_finite false mx ex) (S754_finite false my ey) in
  R = S754_infinity false
  \/ exists m4 e4,
       R = S754_finite false m4 e4 /\ dig m4 = 24 /\ e4 <= 104
       /\ (ex < e4 \/ (e4 = ex /\ Zpos mx <= Zpos m4)).
Proof.
  intros Hd Hex R. subst R. cbn [SFadd cond_Zopp].
  set (ez := Z.min ex ey).
  pose proof (shl_align_fst mx ex ez ltac:(lia)) as Ha.
  pose proof (shl_align_fst my ey ez ltac:(lia)) as Hb.
  set (a := fst (shl_align mx ex ez)) in *.
  set (b := fst (shl_align my ey ez)) in *.
  change (Zpos a + Zpos b) with (Zpos (a + b)).
  cbn [binary_normalize]. unfold binary_round.
  fold (dig (a + b)). rewrite fexp32.
  (* the sum has at least as many digits as [mx] shifted *)
  pose proof (pow2_pos (ex - ez) ltac:(lia)) as Hp.
  pose proof (dig_bounds mx) as [Hlo _]. rewrite Hd in Hlo.
  pose proof (dig_bounds (a + b)) as [_ Hhi].
  assert (Hab : Zpos mx * 2 ^ (ex - ez) <= Zpos (a + b)) by lia.
  assert (Hdig : 24 + (ex - ez) <= dig (a + b)).
  { assert (2 ^ (23 + (ex - ez)) < 2 ^ dig (a + b)).
    { rewrite Z.pow_add_r by lia. change (24 - 1) with 23 in Hlo. nia. }
    apply (Z.pow_lt_mono_r_iff 2) in H; try lia. pose proof (dig_pos (a + b)). lia. }
  replace (Z.max (dig (a + b) + ez - 24) (-149)) with (dig (a + b) + ez - 24) by lia.
  assert (Hal : shl_align (a + b) ez (dig (a + b) + ez - 24) = ((a + b)%positive, ez)).
  { unfold shl_align. destruct (dig (a + b) + ez - 24 - ez) eqn:E; try reflexivity. lia. }
  rewrite Hal.
  destruct (binary_round_aux_normal (a + b) ez loc_Exact ltac:(lia) ltac:(lia))
    as [Hinf|(m4 & e4 & HR & Hd4 & He4 & Hcase)]; [now left|right].
  exists m4, e4. repeat split; try assumption.
  destruct Hcase as [[-> Hm] | -> ]; [|lia].
  destruct (Z.eq_dec (dig (a + b) + ez - 24) ex) as [Heq|Hne]; [right|left; lia].
  split; [exact Heq|].
  replace (dig (a + b) - 24) with (ex - ez) in Hm by lia.
  assert (Zpos mx <= Zpos (a + b) / 2 ^ (ex - ez)); [|lia].
  apply Z.div_le_lower_bound; lia.
Qed.

Lemma add_above_three (x y : float) :
  valid_binary 24 128 x = true -> SFltb three x = true -> nonneg y = true ->
  valid_binary 24 128 (SFadd 24 128 x y) = true
  /\ SFltb three (SFadd 24 128 x y) = true.
Proof.
  intros Hv Hlt Hy.
  destruct (valid_above_three x Hv Hlt) as [->|(mx & ex & -> & Hd & Hex & Hgt)].
  - destruct y as [s|[]| |[] my ey]; try discriminate Hy; split; reflexivity.
  - destruct y as [s|[]| |[] my ey]; try discriminate Hy.
    + split; assumption.
    + split; reflexivity.
    + destruct (add_finite_above mx my ex ey Hd ltac:(lia))
        as [->|(m4 & e4 & -> & Hd4 & He4 & Hcase)]; [split; reflexivity|].
      split.
      * apply normal_valid; [exact Hd4|lia].
      * apply above_three_intro. lia.
Qed.

Lemma shr_m_nonneg (x : shr_record) (e n : Z) :
  0 <= shr_m x -> 0 <= shr_m (fst (shr x e n)).
Proof.
  intros Hx. destruct n as [|n|n]; cbn [shr fst]; try exact Hx.
  apply iter_pos_shr_m, Hx.
Qed.

Lemma binary_round_aux_nonneg (m e : Z) (l : location) :
  0 <= m -> nonneg (binary_round_aux 24 128 false m e l) = true.
Proof.
  intros Hm. unfold binary_round_aux, shr_fexp.
  pose proof (shr_m_nonneg (shr_record_of_loc m l) e
                (fexp 24 128 (Zdigits2 m + e) - e)) as H1.
  rewrite shr_record_of_loc_m in H1. specialize (H1 Hm).
  destruct (shr (shr_record_of_loc m l) e _) as [mrs' e']. cbn [fst] in H1.
  pose proof (round_nearest_even_bounds (shr_m mrs') (loc_of_shr_record mrs')) as Hr.
  set (m3 := round_nearest_even _ _) in *.
  pose proof (shr_m_nonneg (shr_record_of_loc m3 loc_Exact) e'
                (fexp 24 128 (Zdigits2 m3 + e') - e')) as H2.
  rewrite shr_record_of_loc_m in H2. specialize (H2 ltac:(lia)).
  destruct (shr (shr_record_of_loc m3 loc_Exact) e' _) as [mrs'' e''].
  cbn [fst] in H2.
  destruct (shr_m mrs'') as [|p|p]; try reflexivity; [|lia].
  now destruct (e'' <=? 128 - 24).
Qed.

Lemma of_int_nonneg (d : Z) :
  0 <= d -> nonneg (binary_normalize 24 128 d 0 false) = true.
Proof.
  intros Hd. destruct d as [|p|p]; try lia; [reflexivity|].
  cbn [binary_normalize]. unfold binary_round.
  destruct (shl_align p 0 _) as [mz ez].
  now apply binary_round_aux_nonneg.
Qed.

Lemma div_nonneg (x : float) (my : positive) (ey : Z) :
  nonneg x = true ->
  nonneg (SFdiv 24 128 x (S754_finite false my ey)) = true.
Proof.
  destruct x as [s|[]| |[] mx ex]; try discriminate; intros _; try reflexivity.
  cbn [SFdiv xorb]. unfold SFdiv_core_binary.
  set (e' := Z.min _ _). set (s := ex - ey - e').
  set (m' := match s with Zpos _ => Z.shiftl (Zpos mx) s | 0 => Zpos mx | Zneg _ => 0 end).
  assert (Hm' : 0 <= m').
  { subst m'. destruct s; try lia. apply Z.shiftl_nonneg. lia. }
  assert (Hq : 0 <= fst (Z.div_eucl m' (Zpos my))).
  { change (fst (Z.div_eucl m' (Zpos my))) with (m' / Zpos my).
    apply Z.div_pos; lia. }
  destruct (Z.div_eucl m' (Zpos my)) as [q r]. cbn [fst] in Hq.
  now apply binary_round_aux_nonneg.
Qed.

(** Validity of rounded results. *)

Lemma zdig_upper (m : Z) : 0 <= m -> m < 2 ^ Zdigits2 m.
Proof.
  intros H. destruct m as [|p|p]; try lia; [cbn; lia|].
  apply (dig_bounds p).
Qed.

Lemma zdig_nonneg (m : Z) : 0 <= Zdigits2 m.
Proof. destruct m; cbn; lia. Qed.

Lemma zdig_lower (m k : Z) : 0 <= k -> 2 ^ k <= m -> k < Zdigits2 m.
Proof.
  intros Hk H. pose proof (pow2_pos k Hk).
  pose proof (zdig_upper m ltac:(lia)) as Hu.
  apply (Z.pow_lt_mono_r_iff 2); try lia. apply zdig_nonneg.
Qed.

Lemma subnormal_valid (m : positive) :
  Zpos m <= 2 ^ 23 -> valid_binary 24 128 (S754_finite false m (-149)) = true.
Proof.
  intros H. cbn [valid_binary]. unfold bounded, canonical_mantissa.
  fold (dig m). rewrite fexp32.
  assert (dig m <= 24).
  { pose proof (dig_bounds m) as [Hlo _]. pose proof (dig_pos m).
    assert (2 ^ (dig m - 1) < 2 ^ 24) by (change (2 ^ 24) with (2 * 2 ^ 23); lia).
    apply (Z.pow_lt_mono_r_iff 2) in H1; lia. }
  apply andb_true_iff. split; [apply Z.eqb_eq|apply Z.leb_le]; lia.
Qed.

(** A value that needs no shift to the left rounds to a valid float. *)
Lemma binary_round_aux_valid (m e : Z) (l : location) :
  0 <= m -> e <= fexp 24 128 (Zdigits2 m + e) ->
  valid_binary 24 128 (binary_round_aux 24 128 false m e l) = true.
Proof.
  intros Hm He. rewrite fexp32 in He.
  destruct (Z.le_gt_cases (-149) (Zdigits2 m + e - 24)) as [Hn|Hs].
  - (* normal range *)
    destruct m as [|M|M]; try lia; [cbn [Zdigits2] in *; lia|].
    change (Zdigits2 (Zpos M)) with (dig M) in *.
    destruct (binary_round_aux_normal M e l ltac:(lia) Hn)
      as [->|(m4 & e4 & -> & Hd4 & He4 & Hcase)]; [reflexivity|].
    apply normal_valid; [exact Hd4|lia].
  - (* subnormal range *)
    unfold binary_round_aux, shr_fexp. rewrite fexp32.
    replace (Z.max (Zdigits2 m + e - 24) (-149)) with (-149) by lia.
    assert (Hn : 0 <= -149 - e) by lia.
    pose proof (shr_m_spec (shr_record_of_loc m l) e (-149 - e)) as Hsh.
    rewrite shr_record_of_loc_m in Hsh. specialize (Hsh Hm Hn).
    destruct (shr _ e (-149 - e)) as [mrs' e'].
    cbn [fst snd] in Hsh. destruct Hsh as [Hm2 He'].
    replace e' with (-149) in * by lia. clear He'.
    assert (Hb : 0 <= shr_m mrs' < 2 ^ 23).
    { rewrite Hm2. pose proof (pow2_pos _ Hn) as Hp.
      split; [apply Z.div_pos; lia|].
      apply Z.div_lt_upper_bound; [lia|].
      pose proof (zdig_upper m Hm) as Hu. pose proof (zdig_nonneg m) as Hz.
      assert (2 ^ Zdigits2 m <= 2 ^ (-149 - e) * 2 ^ 23); [|lia].
      rewrite <- Z.pow_add_r by lia. apply Z.pow_le_mono_r; lia. }
    pose proof (round_nearest_even_bounds (shr_m mrs') (loc_of_shr_record mrs')) as Hr.
    set (m3 := round_nearest_even _ _) in *.
    destruct m3 as [|p3|p3] eqn:E3; try lia.
    + reflexivity.
    + change (Zdigits2 (Zpos p3)) with (dig p3). rewrite fexp32.
      assert (Hd3 : dig p3 <= 24).
      { pose proof (dig_bounds p3) as [Hlo _]. pose proof (dig_pos p3).
        assert (2 ^ (dig p3 - 1) < 2 ^ 24) by (change (2 ^ 24) with (2 * 2 ^ 23); lia).
        apply (Z.pow_lt_mono_r_iff 2) in H0; lia. }
      replace (Z.max (dig p3 + -149 - 24) (-149) - -149) with 0 by lia.
      cbn [shr shr_record_of_loc shr_m].
      change (-149 <=? 128 - 24) with true. cbv iota.
      apply subnormal_valid. lia.
Qed.

Lemma binary_round_valid (M : positive) (e : Z) :
  valid_binary 24 128 (binary_round 24 128 false M e) = true.
Proof.
  unfold binary_round. fold (dig M).
  pose proof (shl_align_snd M e (fexp 24 128 (dig M + e))) as Hsnd.
  destruct (Z.le_gt_cases e (fexp 24 128 (dig M + e))) as [Hle|Hgt].
  - assert (Hal : shl_align M e (fexp 24 128 (dig M + e)) = (M, e)).
    { unfold shl_align. destruct (fexp 24 128 (dig M + e) - e) eqn:E; try reflexivity. lia. }
    rewrite Hal. apply binary_round_aux_valid; [lia|exact Hle].
  - pose proof (shl_align_fst M e (fexp 24 128 (dig M + e)) ltac:(lia)) as Hfst.
    destruct (shl_align M e (fexp 24 128 (dig M + e))) as [mz ez].
    cbn [fst snd] in *.
    apply binary_round_aux_valid; [lia|].
    change (Zdigits2 (Zpos mz)) with (dig mz).
    assert (Hez : ez = fexp 24 128 (dig M + e)) by lia.
    assert (Hdz : dig mz = dig M + (e - ez)).
    { apply dig_unique. pose proof (dig_bounds M) as [Hlo Hhi]. pose proof (dig_pos M).
      pose proof (pow2_pos (e - ez) ltac:(lia)).
      rewrite Hfst.
      replace (dig M + (e - ez) - 1) with (dig M - 1 + (e - ez)) by lia.
      rewrite (Z.pow_add_r 2 (dig M - 1) (e - ez)),
              (Z.pow_add_r 2 (dig M) (e - ez)) by lia.
      rewrite <- Hez. nia. }
    rewrite Hdz. replace (dig M + (e - ez) + ez) with (dig M + e) by lia. lia.
Qed.

Lemma binary_round_nonneg (M : positive) (e : Z) :
  nonneg (binary_round 24 128 false M e) = true.
Proof.
  unfold binary_round. destruct (shl_align M e _) as [mz ez].
  now apply binary_round_aux_nonneg.
Qed.

Lemma div_finite_valid (mx my : positive) (ex ey : Z) :
  valid_binary 24 128
    (SFdiv 24 128 (S754_finite false mx ex) (S754_finite false my ey)) = true.
Proof.
  cbn [SFdiv xorb]. unfold SFdiv_core_binary.
  change (Zdigits2 (Zpos mx)) with (dig mx). change (Zdigits2 (Zpos my)) with (dig my).
  set (e' := Z.min (fexp 24 128 (dig mx + ex - (dig my + ey))) (ex - ey)).
  set (s := ex - ey - e').
  assert (Hs : 0 <= s) by (subst s e'; lia).
  set (m' := match s with Zpos _ => Z.shiftl (Zpos mx) s | 0 => Zpos mx | Zneg _ => 0 end).
  assert (Hm' : m' = Zpos mx * 2 ^ s).
  { subst m'. destruct s as [|p|p] eqn:E; try lia.
    now rewrite Z.shiftl_mul_pow2 by lia. }
  pose proof (pow2_pos s Hs) as Hps.
  assert (Hq : fst (Z.div_eucl m' (Zpos my)) = m' / Zpos my) by reflexivity.
  destruct (Z.div_eucl m' (Zpos my)) as [q r]. cbn [fst] in Hq.
  assert (Hq0 : 0 <= q) by (rewrite Hq; apply Z.div_pos; lia).
  apply binary_round_aux_valid; [exact Hq0|].
  assert (Hdig : dig mx + ex - (dig my + ey) <= Zdigits2 q + e').
  { pose proof (zdig_nonneg q) as Hz.
    destruct (Z.le_gt_cases 0 (dig mx - 1 + s - dig my)) as [Hk|Hk]; [|lia].
    assert (dig mx - 1 + s - dig my < Zdigits2 q); [|lia].
    apply zdig_lower; [exact Hk|].
    rewrite Hq. apply Z.div_le_lower_bound; [lia|].
    pose proof (dig_bounds mx) as [Hlo _]. pose proof (dig_bounds my) as [_ Hhi].
    pose proof (dig_pos mx). pose proof (dig_pos my).
    pose proof (pow2_pos _ Hk) as Hpk.
    assert (Hsplit : 2 ^ (dig mx - 1) * 2 ^ s
                     = 2 ^ (dig mx - 1 + s - dig my) * 2 ^ dig my).
    { rewrite <- !Z.pow_add_r by lia. f_equal. lia. }
    rewrite Hm'. nia. }
  clearbody s m'. subst e'. rewrite !fexp32 in *. lia.
Qed.

Lemma div_valid (x : float) (my : positive) (ey : Z) :
  nonneg x = true ->
  valid_binary 24 128 (SFdiv 24 128 x (S754_finite false my ey)) = true.
Proof.
  destruct x as [s|[]| |[] mx ex]; try discriminate; intros _; try reflexivity.
  apply div_finite_valid.
Qed.

Lemma add_nonneg_valid (x y : float) :
  nonneg x = true -> nonneg y = true ->
  valid_binary 24 128 x = true -> valid_binary 24 128 y = true ->
  valid_binary 24 128 (SFadd 24 128 x y) = true
  /\ nonneg (SFadd 24 128 x y) = true.
Proof.
  destruct x as [sx|[]| |[] mx ex]; try discriminate;
    destruct y as [sy|[]| |[] my ey]; try discriminate;
    intros _ _ Hx Hy; try (split; assumption || reflexivity).
  - destruct sx, sy; split; reflexivity.
  - cbn [SFadd cond_Zopp].
    set (a := fst (shl_align mx ex (Z.min ex ey))).
    set (b := fst (shl_align my ey (Z.min ex ey))).
    change (Zpos a + Zpos b) with (Zpos (a + b)). cbn [binary_normalize].
    split; [apply binary_round_valid|apply binary_round_nonneg].
Qed.

(** *** The spawn timer *)

Lemma of_int_3 : F32.of_int 3 = three.
Proof. vm_compute. reflexivity. Qed.

Lemma of_int_1000000 : F32.of_int 1000000 = S754_finite false 16000000 (-4).
Proof. vm_compute. reflexivity. Qed.

Lemma asSeconds_nonneg (d : Z) : 0 <= d -> nonneg (asSeconds d) = true.
Proof.
  intros Hd. unfold asSeconds, F32.div. rewrite of_int_1000000.
  apply div_nonneg. now apply of_int_nonneg.
Qed.

(** Adding a non-negative time to a timer beyond 3.0f leaves it beyond
    3.0f. *)
Lemma add_keeps_overdue (t dt : float) :
  F32.valid t = true -> F32.gt t (F32.of_int 3) = true -> nonneg dt = true ->
  F32.valid (F32.add t dt) = true /\ F32.gt (F32.add t dt) (F32.of_int 3) = true.
Proof.
  rewrite of_int_3. unfold F32.valid, F32.gt, F32.add.
  apply add_above_three.
Qed.

Lemma tick_clock (now : Z) (g : Game) : clock (tick now g) = now.
Proof. reflexivity. Qed.

Lemma tick_timer (now : Z) (g : Game) :
  timeSinceLastSpawn (tick now g)
  = F32.add (timeSinceLastSpawn g) (asSeconds (now - clock g)).
Proof. reflexivity. Qed.

Lemma updateSafeZone_clock (g : Game) : clock (updateSafeZone g) = clock g.
Proof. unfold updateSafeZone. cbv zeta. now destruct (negb _). Qed.

Lemma updateEnemies_clock_timer (g : Game) :
  clock (updateEnemies g) = clock g
  /\ timeSinceLastSpawn (updateEnemies g) = timeSinceLastSpawn g.
Proof.
  rewrite updateEnemies_eq. cbn [clock timeSinceLastSpawn set_enemies].
  destruct (enemyLoop_frame (enemies g) g) as (_ & _ & _ & _ & -> & _ & -> & _).
  now split.
Qed.

Lemma beforeEnemies_clock_timer (i : FrameInput) (g : Game) :
  clock (beforeEnemies i g) = frameTime i
  /\ timeSinceLastSpawn (beforeEnemies i g)
     = F32.add (timeSinceLastSpawn g) (asSeconds (frameTime i - clock g)).
Proof.
  destruct (pollEvents_keeps (events i) g) as (_ & _ & _ & _ & _ & Hc & Ht & _).
  unfold beforeEnemies, updateBullets, updatePlayer.
  cbn [clock timeSinceLastSpawn set_bullets set_player].
  now rewrite tick_clock, tick_timer, Hc, Ht.
Qed.

Lemma beforeSpawn_clock_timer (i : FrameInput) (g : Game) :
  clock (beforeSpawn i g) = frameTime i
  /\ timeSinceLastSpawn (beforeSpawn i g)
     = F32.add (timeSinceLastSpawn g) (asSeconds (frameTime i - clock g)).
Proof.
  unfold beforeSpawn.
  destruct (updateSafeZone_keeps (updateEnemies (beforeEnemies i g)))
    as (_ & _ & _ & _ & _ & _ & -> & _).
  rewrite updateSafeZone_clock.
  destruct (updateEnemies_clock_timer (beforeEnemies i g)) as [-> ->].
  apply beforeEnemies_clock_timer.
Qed.

Lemma spawn_result (r : Z * Z * Z) (g : Game) :
  clock (spawn r g) = clock g
  /\ enemies (spawn r g)
     = (if spawnDue g then enemies g ++ [spawnEnemy r] else enemies g)
  /\ timeSinceLastSpawn (spawn r g)
     = (if spawnDue g then F32.zero else timeSinceLastSpawn g).
Proof. unfold spawn. destruct (spawnDue g); cbn; tauto. Qed.

Lemma after_spawn (i : FrameInput) (g : Game) :
  clock (frame i g) = frameTime i
  /\ enemies (frame i g)
     = (if spawnDue (beforeSpawn i g)
        then enemies (beforeSpawn i g) ++ [spawnEnemy (spawnRand i)]
        else enemies (beforeSpawn i g))
  /\ timeSinceLastSpawn (frame i g)
     = (if spawnDue (beforeSpawn i g) then F32.zero
        else timeSinceLastSpawn (beforeSpawn i g)).
Proof.
  rewrite frame_unfold.
  set (h := spawn (spawnRand i) (beforeSpawn i g)).
  assert (Hc : forall x, clock (gameOver (draw x)) = clock x).
  { intros x. unfold gameOver. now destruct (negb _). }
  destruct (gameOver_keeps (draw h)) as (_ & -> & _ & _ & _ & _ & ->).
  destruct (draw_keeps h) as (_ & -> & _ & _ & _ & _ & -> & _).
  rewrite Hc. subst h.
  destruct (spawn_result (spawnRand i) (beforeSpawn i g)) as (-> & -> & ->).
  split; [apply beforeSpawn_clock_timer|now split].
Qed.

Lemma spawnDue_iff (g : Game) :
  spawnDue g = true
  <-> F32.gt (timeSinceLastSpawn g) (F32.of_int 3) = true
      /\ (List.length (enemies g) < 10)%nat.
Proof.
  unfold spawnDue. rewrite andb_true_iff, Z.ltb_lt. split; intros [H1 H2]; split;
    try exact H1; lia.
Qed.

(** *** Where enemies spawn *)

Lemma convertBelow_correct (bound : Z) (n : nat) (k : Z) :
  convertBelow bound n k = true ->
  forall j : Z, k <= j < k + Z.of_nat n ->
    F32.le (F32.of_int 0) (F32.of_int j) = true
    /\ F32.lt (F32.of_int j) (F32.of_int bound) = true.
Proof.
  revert k. induction n as [|n IH]; intros k H j Hj; [lia|].
  cbn [convertBelow] in H.
  apply andb_true_iff in H as [H Hrest]. apply andb_true_iff in H as [H1 H2].
  destruct (Z.eq_dec j k) as [->|Hne]; [now split|].
  apply (IH (k + 1) Hrest). lia.
Qed.

Lemma spawnEnemy_inside (rx ry rs : Z) :
  0 <= rx -> 0 <= ry ->
  position (spawnEnemy (rx, ry, rs))
  = mkVec (F32.of_int (Z.rem rx WINDOW_WIDTH)) (F32.of_int (Z.rem ry WINDOW_HEIGHT))
  /\ outOfWindow (position (spawnEnemy (rx, ry, rs))) = false.
Proof.
  intros Hx Hy. split; [reflexivity|].
  assert (Hxr : 0 <= Z.rem rx WINDOW_WIDTH < 0 + Z.of_nat 1200).
  { pose proof (Z.rem_bound_pos rx WINDOW_WIDTH Hx). unfold WINDOW_WIDTH in *. lia. }
  assert (Hyr : 0 <= Z.rem ry WINDOW_HEIGHT < 0 + Z.of_nat 700).
  { pose proof (Z.rem_bound_pos ry WINDOW_HEIGHT Hy). unfold WINDOW_HEIGHT in *. lia. }
  destruct (convertBelow_correct WINDOW_WIDTH 1200 0 ltac:(vm_compute; reflexivity) _ Hxr)
    as [Hx0 Hx1].
  destruct (convertBelow_correct WINDOW_HEIGHT 700 0 ltac:(vm_compute; reflexivity) _ Hyr)
    as [Hy0 Hy1].
  unfold spawnEnemy, Enemy_new, Entity_new, outOfWindow. cbn [position vx vy].
  now rewrite (le_not_lt _ _ Hx0), (le_not_lt _ _ Hy0),
              (lt_not_gt _ _ Hx1), (lt_not_gt _ _ Hy1).
Qed.

(** *** The spawning policy *)

Lemma beforeSpawn_enemies (i : FrameInput) (g : Game) :
  decayed (enemies g) (enemies (beforeSpawn i g)).
Proof.
  unfold beforeSpawn.
  destruct (updateSafeZone_keeps (updateEnemies (beforeEnemies i g)))
    as (_ & _ & -> & _).
  destruct (beforeEnemies_keeps i g) as (_ & He & _).
  rewrite <- He. apply updateEnemies_decayed.
Qed.

Lemma frame_count (i : FrameInput) (g : Game) :
  (List.length (enemies g) <= 10 -> List.length (enemies (frame i g)) <= 10)%nat.
Proof.
  intros Hg.
  pose proof (decayed_length _ _ (beforeSpawn_enemies i g)) as Hd.
  destruct (after_spawn i g) as (_ & -> & _).
  destruct (spawnDue (beforeSpawn i g)) eqn:E; [|lia].
  apply spawnDue_iff in E as [_ E]. rewrite length_app. cbn. lia.
Qed.

Lemma run_count (inputs : list FrameInput) (g : Game) :
  (List.length (enemies g) <= 10 -> List.length (enemies (run inputs g)) <= 10)%nat.
Proof.
  revert g. induction inputs as [|i inputs IH]; intros g Hg; cbn [run]; [exact Hg|].
  destruct (windowOpen g); [|exact Hg].
  apply IH, frame_count, Hg.
Qed.

Lemma init_count (initRand : nat -> Z * Z * Z) (t0 : Z) (file : option string) :
  List.length (enemies (init initRand t0 file)) = 5%nat.
Proof. reflexivity. Qed.

Lemma capped_frame (j : FrameInput) (g : Game) :
  F32.valid (timeSinceLastSpawn g) = true ->
  F32.gt (timeSinceLastSpawn g) (F32.of_int 3) = true ->
  clock g <= frameTime j ->
  F32.valid (timeSinceLastSpawn (beforeSpawn j g)) = true
  /\ F32.gt (timeSinceLastSpawn (beforeSpawn j g)) (F32.of_int 3) = true.
Proof.
  intros Hv Ho Hc.
  destruct (beforeSpawn_clock_timer j g) as [_ ->].
  apply add_keeps_overdue; try assumption.
  apply asSeconds_nonneg. lia.
Qed.

Lemma capped_then_overdue (inputs : list FrameInput) (g : Game) (i : FrameInput) :
  F32.valid (timeSinceLastSpawn g) = true ->
  F32.gt (timeSinceLastSpawn g) (F32.of_int 3) = true ->
  steadyFrom (clock g) (inputs ++ [i]) ->
  cappedThrough inputs g ->
  F32.gt (timeSinceLastSpawn (beforeSpawn i (run inputs g))) (F32.of_int 3) = true.
Proof.
  revert g. induction inputs as [|j rest IH]; intros g Hv Ho Hs Hc.
  - cbn [run]. cbn [app steadyFrom] in Hs. now apply capped_frame.
  - cbn [app steadyFrom] in Hs. destruct Hs as [Hj Hs].
    cbn [cappedThrough] in Hc. destruct Hc as (Hw & Hcap & Hc).
    assert (Hrun : run (j :: rest) g = run rest (frame j g)).
    { cbn [run]. now rewrite Hw. }
    rewrite Hrun.
    destruct (capped_frame j g Hv Ho Hj) as [Hv' Ho'].
    destruct (after_spawn j g) as (Hclock & _ & Htimer).
    assert (Hnd : spawnDue (beforeSpawn j g) = false).
    { destruct (spawnDue (beforeSpawn j g)) eqn:E; [|reflexivity].
      apply spawnDue_iff in E. lia. }
    rewrite Hnd in Htimer.
    apply (IH (frame j g)).
    + rewrite Htimer. exact Hv'.
    + rewrite Htimer. exact Ho'.
    + rewrite Hclock. exact Hs.
    + exact Hc.
Qed.

Lemma asSeconds_valid (d : Z) : 0 <= d -> F32.valid (asSeconds d) = true.
Proof.
  intros Hd. unfold asSeconds, F32.div, F32.valid. rewrite of_int_1000000.
  apply div_valid. now apply of_int_nonneg.
Qed.

(** The timer is a well-formed, non-negative float in every frame. *)
Lemma timer_frame (i : FrameInput) (g : Game) :
  F32.valid (timeSinceLastSpawn g) = true ->
  nonneg (timeSinceLastSpawn g) = true ->
  clock g <= frameTime i ->
  F32.valid (timeSinceLastSpawn (frame i g)) = true
  /\ nonneg (timeSinceLastSpawn (frame i g)) = true.
Proof.
  intros Hv Hn Hc.
  destruct (after_spawn i g) as (_ & _ & ->).
  destruct (spawnDue (beforeSpawn i g)); [split; reflexivity|].
  destruct (beforeSpawn_clock_timer i g) as [_ ->].
  apply add_nonneg_valid; try assumption.
  - apply asSeconds_nonneg. lia.
  - apply asSeconds_valid. lia.
Qed.

Lemma timer_run (inputs : list FrameInput) (g : Game) :
  F32.valid (timeSinceLastSpawn g) = true ->
  nonneg (timeSinceLastSpawn g) = true ->
  steadyFrom (clock g) inputs ->
  F32.valid (timeSinceLastSpawn (run inputs g)) = true
  /\ nonneg (timeSinceLastSpawn (run inputs g)) = true.
Proof.
  revert g. induction inputs as [|i rest IH]; intros g Hv Hn Hs; cbn [run].
  - now split.
  - destruct (windowOpen g); [|now split].
    cbn [steadyFrom] in Hs. destruct Hs as [Hi Hs].
    destruct (timer_frame i g Hv Hn Hi) as [Hv' Hn'].
    apply IH; try assumption.
    destruct (after_spawn i g) as (-> & _). exact Hs.
Qed.

(** C4, as stated, fails.  The fifth spawn of this session fills the list
    and resets the timer; the next frame finds 10 enemies at its spawn
    test, and the frame after it, in which a bullet kills an enemy, is the
    first whose test finds fewer than 10: no enemy is spawned, because the
    timer reads about 0.03 s. *)
Lemma spawn_needs_timer_counterexample :
  let g5 := run fillingFrames opening in
  let g6 := frame cappedFrame g5 in
  windowOpen g5 = true
  /\ List.length (enemies (beforeSpawn cappedFrame g5)) = 10%nat
  /\ enemies g6 = enemies (beforeSpawn cappedFrame g5)
  /\ windowOpen g6 = true
  /\ List.length (enemies (beforeSpawn killingFrame g6)) = 9%nat
  /\ enemies (frame killingFrame g6) = enemies (beforeSpawn killingFrame g6)
  /\ F32.gt (timeSinceLastSpawn (beforeSpawn killingFrame g6)) (F32.of_int 3) = false.
Proof. vm_compute. repeat split; reflexivity. Qed.

(** C4, amended. At the spawn test of a frame: if the timer exceeds 3.0f and fewer
    than 10 enemies are active, exactly one enemy is appended and the timer
    is reset to zero; the new enemy stands at ([rand() % 1200],
    [rand() % 700]), inside the window.  If 10 enemies are active, none is
    added and the timer keeps the value accumulated this frame; if the
    timer does not exceed 3.0f, none is added either.  From the five
    initial enemies the count therefore never exceeds 10.  The timer
    is a well-formed float throughout (the clock never running backwards),
    and once it has passed 3.0f, frames spent at the cap leave it beyond
    3.0f, so the first frame whose test finds fewer than 10 enemies spawns
    one. *)
Theorem spawn_policy :
  (forall (i : FrameInput) (g : Game),
      let h := beforeSpawn i g in
      (F32.gt (timeSinceLastSpawn h) (F32.of_int 3) = true ->
       (List.length (enemies h) < 10)%nat ->
       enemies (frame i g) = enemies h ++ [spawnEnemy (spawnRand i)]
       /\ timeSinceLastSpawn (frame i g) = F32.zero)
      /\ ((10 <= List.length (enemies h))%nat ->
          enemies (frame i g) = enemies h
          /\ timeSinceLastSpawn (frame i g) = timeSinceLastSpawn h
          /\ timeSinceLastSpawn h
             = F32.add (timeSinceLastSpawn g) (asSeconds (frameTime i - clock g)))
      /\ (F32.gt (timeSinceLastSpawn h) (F32.of_int 3) = false ->
          enemies (frame i g) = enemies h))
  /\ (forall rx ry rs : Z,
        0 <= rx -> 0 <= ry ->
        position (spawnEnemy (rx, ry, rs))
        = mkVec (F32.of_int (Z.rem rx WINDOW_WIDTH)) (F32.of_int (Z.rem ry WINDOW_HEIGHT))
        /\ outOfWindow (position (spawnEnemy (rx, ry, rs))) = false)
  /\ (forall (initRand : nat -> Z * Z * Z) (t0 : Z) (file : option string)
             (inputs : list FrameInput),
        (List.length (enemies (run inputs (init initRand t0 file))) <= 10)%nat)
  /\ (forall (initRand : nat -> Z * Z * Z) (t0 : Z) (file : option string)
             (inputs : list FrameInput),
        steadyFrom t0 inputs ->
        F32.valid (timeSinceLastSpawn (run inputs (init initRand t0 file))) = true)
  /\ (forall (inputs : list FrameInput) (i : FrameInput) (g : Game),
        F32.valid (timeSinceLastSpawn g) = true ->
        F32.gt (timeSinceLastSpawn g) (F32.of_int 3) = true ->
        steadyFrom (clock g) (inputs ++ [i]) ->
        cappedThrough inputs g ->
        let h := run inputs g in
        (List.length (enemies (beforeSpawn i h)) < 10)%nat ->
        enemies (frame i h) = enemies (beforeSpawn i h) ++ [spawnEnemy (spawnRand i)]
        /\ timeSinceLastSpawn (frame i h) = F32.zero).
Proof.
  split; [|split; [|split; [|split]]].
  - intros i g h. destruct (after_spawn i g) as (_ & He & Ht). fold h in He, Ht.
    split; [|split].
    + intros Hgt Hlt.
      assert (E : spawnDue h = true) by (apply spawnDue_iff; now split).
      rewrite E in He, Ht. now split.
    + intros Hcap.
      assert (E : spawnDue h = false).
      { destruct (spawnDue h) eqn:E; [|reflexivity]. apply spawnDue_iff in E. lia. }
      rewrite E in He, Ht. split; [exact He|]. split; [exact Ht|].
      apply beforeSpawn_clock_timer.
    + intros Hle.
      assert (E : spawnDue h = false).
      { destruct (spawnDue h) eqn:E; [|reflexivity].
        apply spawnDue_iff in E. destruct E as [E _]. congruence. }
      now rewrite E in He.
  - intros rx ry rs Hx Hy. now apply spawnEnemy_inside.
  - intros initRand t0 file inputs. apply run_count.
    rewrite init_count. lia.
  - intros initRand t0 file inputs Hs.
    now apply (timer_run inputs (init initRand t0 file)).
  - intros inputs i g Hv Ho Hs Hc h Hlt.
    pose proof (capped_then_overdue inputs g i Hv Ho Hs Hc) as Hod.
    fold h in Hod.
    assert (E : spawnDue (beforeSpawn i h) = true) by (apply spawnDue_iff; now split).
    destruct (after_spawn i h) as (_ & He & Ht).
    rewrite E in He, Ht. now split.
Qed.

Lemma spawn_policy_witness :
  let h := run [idleFrame] crowded in
  enemies (frame shootingFrame h)
  = enemies (beforeSpawn shootingFrame h) ++ [spawnEnemy (spawnRand shootingFrame)]
  /\ timeSinceLastSpawn (frame shootingFrame h) = F32.zero.
Proof.
  apply (proj2 (proj2 (proj2 (proj2 spawn_policy))) [idleFrame] shootingFrame crowded).
  - vm_compute. reflexivity.
  - vm_compute. reflexivity.
  - cbn [app steadyFrom]. repeat split; vm_compute; discriminate.
  - cbn [cappedThrough]. repeat split; vm_compute; reflexivity.
  - vm_compute. repeat constructor.
Defined.

(** *** Health over frames *)

Lemma decayed_evolved (old new : list Entity) :
  decayed old new -> evolved old new.
Proof.
  induction 1.
  - apply evolved_created. constructor.
  - now apply evolved_drop.
  - now apply evolved_keep.
Qed.

Lemma evolved_spawn (old new : list Entity) (e : Entity) :
  evolved old new -> health e <= 50 -> evolved old (new ++ [e]).
Proof.
  intros H He. induction H as [new Hnew|e0 old new _ IH|e0 e' old new Hle _ IH];
    cbn [app].
  - apply evolved_created. apply Forall_app. split; [exact Hnew|].
    constructor; [exact He|constructor].
  - now apply evolved_drop.
  - now apply evolved_keep.
Qed.

Lemma evolved_refl (l : list Entity) : evolved l l.
Proof.
  induction l as [|e l IH]; [apply evolved_created; constructor|].
  apply evolved_keep; [lia|exact IH].
Qed.

Lemma evolved_created_inv (old new : list Entity) :
  evolved old new ->
  Forall (fun e => health e <= 50) old -> Forall (fun e => health e <= 50) new.
Proof.
  induction 1 as [new Hnew|e0 old new _ IH|e0 e' old new Hle _ IH]; intros Hold.
  - exact Hnew.
  - apply IH. now inversion Hold.
  - inversion Hold as [|? ? He0 Hold']; subst.
    constructor; [lia|now apply IH].
Qed.

Lemma evolved_trans (a b c : list Entity) :
  evolved a b -> evolved b c -> evolved a c.
Proof.
  intros Hab. revert c.
  induction Hab as [b Hb|e a b _ IH|e e' a b Hle _ IH]; intros c Hbc.
  - apply evolved_created. exact (evolved_created_inv _ _ Hbc Hb).
  - apply evolved_drop. now apply IH.
  - inversion Hbc as [|? ? ? Hbc'|? e'' ? c' Hle' Hbc']; subst.
    + apply evolved_drop. now apply IH.
    + apply evolved_keep; [lia|now apply IH].
Qed.

Lemma frame_evolved (i : FrameInput) (g : Game) :
  evolved (enemies g) (enemies (frame i g)).
Proof.
  pose proof (decayed_evolved _ _ (beforeSpawn_enemies i g)) as H.
  destruct (after_spawn i g) as (_ & -> & _).
  destruct (spawnDue (beforeSpawn i g)); [|exact H].
  apply evolved_spawn; [exact H|]. rewrite spawnEnemy_health. lia.
Qed.

Lemma run_evolved (inputs : list FrameInput) (g : Game) :
  evolved (enemies g) (enemies (run inputs g)).
Proof.
  revert g. induction inputs as [|i inputs IH]; intros g; cbn [run].
  - apply evolved_refl.
  - destruct (windowOpen g); [|apply evolved_refl].
    exact (evolved_trans _ _ _ (frame_evolved i g) (IH (frame i g))).
Qed.

(** C8. Across any frame, from any state, the player's health does not
    increase, and every enemy still present stands for an enemy of the
    previous list (in order) with no more health than it had, the only
    other enemy being the one spawned this frame with its initial 50; hence
    the player's health does not increase over any sequence of frames, and
    over any sequence of frames the enemy list evolves in the same way
    (enemies created in between have at most their initial 50).  An entity
    is alive exactly when its health is positive. *)
Theorem health_never_increases :
  forall (i : FrameInput) (g : Game),
    health (player (frame i g)) <= health (player g)
    /\ (exists kept : list Entity,
          decayed (enemies g) kept
          /\ (enemies (frame i g) = kept
              \/ (enemies (frame i g) = kept ++ [spawnEnemy (spawnRand i)]
                  /\ health (spawnEnemy (spawnRand i)) = 50)))
    /\ (forall inputs : list FrameInput,
          health (player (run inputs g)) <= health (player g)
          /\ evolved (enemies g) (enemies (run inputs g)))
    /\ (forall e : Entity, isAlive e = true <-> health e > 0)
    /\ (forall (e : Entity) (amount : Z),
          health (takeDamage e amount) = health e - amount).
Proof.
  intros i g.
  split; [apply frame_player_health|].
  split.
  { exists (enemies (updateEnemies (beforeEnemies i g))). split.
    - destruct (beforeEnemies_keeps i g) as (_ & He & _).
      rewrite <- He. apply updateEnemies_decayed.
    - rewrite frame_enemies. destruct (spawnDue _); [right|left; reflexivity].
      split; [reflexivity|apply spawnEnemy_health]. }
  split.
  { intros inputs. split; [|apply run_evolved]. revert g.
    induction inputs as [|j inputs IH]; intros g; cbn [run]; [lia|].
    destruct (windowOpen g); [|lia].
    specialize (IH (frame j g)). pose proof (frame_player_health j g). lia. }
  split; [apply isAlive_iff|].
  intros e amount. reflexivity.
Qed.

(** ** The player's movement and damage *)

(** The number of enemies of [es] within contact range of the player [p]. *)
Definition contacts (p : Entity) (es : list Entity) : Z :=
  Z.of_nat (List.length (filter (touchesPlayer p) es)).

(* LEMMAS *)
Lemma handleInput_keeps (k : Keys) (p : Entity) :
  position (handleInput k p) = position p
  /\ speed (handleInput k p) = speed p
  /\ health (handleInput k p) = health p.
Proof. unfold handleInput. cbn. tauto. Qed.

Lemma sub_then_add (sg : bool) (m : positive) (e : Z) :
  F32.add (F32.sub F32.zero (S754_finite sg m e)) (S754_finite sg m e) = F32.zero.
Proof.
  unfold F32.add, F32.sub, F32.zero. cbn [SFsub SFadd].
  replace (cond_Zopp (negb sg) (Zpos (fst (shl_align m e (Z.min e e))))
           + cond_Zopp sg (Zpos (fst (shl_align m e (Z.min e e))))) with 0
    by (destruct sg; cbn [negb cond_Zopp]; lia).
  reflexivity.
Qed.

Lemma handleInput_velocity (k : Keys) (p : Entity) (sg : bool) (m : positive) (e : Z) :
  speed p = S754_finite sg m e ->
  velocity (handleInput k p)
  = mkVec (keyAxis (speed p) (keyA k) (keyD k)) (keyAxis (speed p) (keyW k) (keyS k)).
Proof.
  intros H. unfold handleInput. rewrite H. cbv zeta.
  destruct k as [w s a d]. cbn [keyW keyS keyA keyD].
  destruct w, s, a, d; cbn [vx vy vzero keyAxis];
    rewrite ?sub_then_add; reflexivity.
Qed.

(** X1. [Player::handleInput]: whatever the velocity was, the keys held
    alone decide the new one: each axis gets minus the speed, the speed,
    or zero when neither or both of its keys are held; position, speed
    and health are left alone. *)
Theorem handleInput_velocity_from_keys :
  forall (k : Keys) (p : Entity) (sg : bool) (m : positive) (e : Z),
    speed p = S754_finite sg m e ->
    velocity (handleInput k p)
    = mkVec (keyAxis (speed p) (keyA k) (keyD k)) (keyAxis (speed p) (keyW k) (keyS k))
    /\ position (handleInput k p) = position p
    /\ speed (handleInput k p) = speed p
    /\ health (handleInput k p) = health p.
Proof.
  intros k p sg m e H. split; [|apply handleInput_keeps].
  exact (handleInput_velocity k p sg m e H).
Qed.

Lemma handleInput_velocity_from_keys_witness :
  velocity (handleInput (mkKeys true false false true) Player_new)
  = mkVec (F32.of_int 3) (F32.of_int (-3)).
Proof.
  destruct (handleInput_velocity_from_keys (mkKeys true false false true) Player_new
              false 12582912 (-22) ltac:(vm_compute; reflexivity)) as [-> _].
  vm_compute. reflexivity.
Defined.

Lemma touchesPlayer_position (p p' e : Entity) :
  position p' = position p -> touchesPlayer p' e = touchesPlayer p e.
Proof. intros H. unfold touchesPlayer, getPosition. now rewrite H. Qed.

(** What the enemy loop does to the player: one point of damage for each
    enemy that survives its visit within contact range, and nothing else. *)
Lemma enemyLoop_player (es : list Entity) (g : Game) :
  position (player (snd (enemyLoop es g))) = position (player g)
  /\ velocity (player (snd (enemyLoop es g))) = velocity (player g)
  /\ speed (player (snd (enemyLoop es g))) = speed (player g)
  /\ health (player (snd (enemyLoop es g)))
     = health (player g) - contacts (player g) (fst (enemyLoop es g)).
Proof.
  revert g. induction es as [|e es IH]; intros g.
  - cbn. unfold contacts. cbn. repeat split. lia.
  - rewrite enemyLoop_cons. cbv zeta.
    set (e1 := move _).
    set (r := scanBullets _ _ _ _).
    set (g1 := set_score _ _ _).
    assert (Hp1 : player g1 = player g) by reflexivity.
    destruct (s_dead r).
    + destruct (IH g1) as (H1 & H2 & H3 & H4).
      rewrite H1, H2, H3, H4, Hp1.
      repeat split.
    + set (g2 := if touchesPlayer _ _ then _ else _).
      destruct (IH g2) as (H1 & H2 & H3 & H4).
      cbn [fst snd]. rewrite H1, H2, H3, H4.
      assert (Hpos : position (player g2) = position (player g)
                     /\ velocity (player g2) = velocity (player g)
                     /\ speed (player g2) = speed (player g)).
      { subst g2. destruct (touchesPlayer _ _); cbn; rewrite ?Hp1; tauto. }
      destruct Hpos as (Hq1 & Hq2 & Hq3).
      repeat split; try assumption.
      assert (Hc : contacts (player g2) (fst (enemyLoop es g2))
                   = contacts (player g) (fst (enemyLoop es g2))).
      { unfold contacts. f_equal. f_equal. apply filter_ext.
        intros x. now apply touchesPlayer_position. }
      rewrite Hc. unfold contacts. cbn [filter].
      assert (Hh : health (player g2)
                   = health (player g)
                     - (if touchesPlayer (player g) (s_enemy r) then 1 else 0)).
      { subst g2. change (player g1) with (player g).
        destruct (touchesPlayer (player g) (s_enemy r)); cbn; lia. }
      rewrite Hh.
      destruct (touchesPlayer (player g) (s_enemy r)); cbn [List.length]; lia.
Qed.

Lemma updateEnemies_player (g : Game) :
  position (player (updateEnemies g)) = position (player g)
  /\ velocity (player (updateEnemies g)) = velocity (player g)
  /\ speed (player (updateEnemies g)) = speed (player g)
  /\ health (player (updateEnemies g))
     = health (player g) - contacts (player g) (enemies (updateEnemies g)).
Proof.
  rewrite updateEnemies_eq. cbn [player enemies set_enemies].
  apply enemyLoop_player.
Qed.

Lemma updateSafeZone_player (g : Game) :
  position (player (updateSafeZone g)) = position (player g)
  /\ velocity (player (updateSafeZone g)) = velocity (player g)
  /\ speed (player (updateSafeZone g)) = speed (player g)
  /\ health (player (updateSafeZone g))
     = health (player g) - zoneDamage (updateSafeZone g).
Proof.
  unfold zoneDamage, updateSafeZone. cbv zeta.
  cbn [safeZone player set_safeZone].
  destruct (isInside (SafeZone_update (safeZone g)) (getPosition (player g))) eqn:E;
    cbn [negb safeZone player set_safeZone set_player takeDamage position velocity
         speed health getPosition]; unfold getPosition in *; rewrite E;
    repeat split; lia.
Qed.

Lemma beforeEnemies_player (i : FrameInput) (g : Game) :
  player (beforeEnemies i g) = move (handleInput (keys i) (player g)).
Proof.
  destruct (pollEvents_keeps (events i) g) as (Hp & _).
  unfold beforeEnemies, updateBullets, updatePlayer, tick.
  cbn [player set_bullets set_player set_timeSinceLastSpawn set_clock].
  now rewrite Hp.
Qed.

Lemma frame_player (i : FrameInput) (g : Game) :
  player (frame i g) = player (beforeSpawn i g).
Proof.
  rewrite frame_unfold.
  destruct (gameOver_keeps (draw (spawn (spawnRand i) (beforeSpawn i g)))) as (-> & _).
  destruct (draw_keeps (spawn (spawnRand i) (beforeSpawn i g))) as (-> & _).
  now destruct (spawn_keeps (spawnRand i) (beforeSpawn i g)) as (-> & _).
Qed.

Lemma frame_player_fields (i : FrameInput) (g : Game) :
  position (player (frame i g))
  = vadd (position (player g)) (velocity (handleInput (keys i) (player g)))
  /\ velocity (player (frame i g)) = velocity (handleInput (keys i) (player g))
  /\ speed (player (frame i g)) = speed (player g).
Proof.
  rewrite frame_player. unfold beforeSpawn.
  destruct (updateSafeZone_player (updateEnemies (beforeEnemies i g)))
    as (-> & -> & -> & _).
  destruct (updateEnemies_player (beforeEnemies i g)) as (-> & -> & -> & _).
  rewrite beforeEnemies_player.
  repeat split.
Qed.

(** X2. Over a whole frame the player's position changes by the velocity
    the keys give, once; no later phase of the frame moves the player or
    changes its speed. *)
Theorem frame_moves_player_by_keys :
  forall (i : FrameInput) (g : Game),
    position (player (frame i g))
    = vadd (position (player g)) (velocity (handleInput (keys i) (player g)))
    /\ velocity (player (frame i g)) = velocity (handleInput (keys i) (player g))
    /\ speed (player (frame i g)) = speed (player g).
Proof.
  intros i g. apply frame_player_fields.
Qed.

Lemma frame_zoneDamage (i : FrameInput) (g : Game) :
  zoneDamage (frame i g) = zoneDamage (beforeSpawn i g).
Proof.
  unfold zoneDamage. rewrite frame_player, frame_safeZone.
  unfold beforeSpawn.
  assert (Hs : forall h, safeZone (updateSafeZone h) = SafeZone_update (safeZone h)).
  { intros h. unfold updateSafeZone. cbv zeta. now destruct (negb _). }
  rewrite Hs, updateEnemies_eq. cbn [safeZone set_enemies].
  destruct (enemyLoop_frame (enemies (beforeEnemies i g)) (beforeEnemies i g))
    as (_ & _ & _ & -> & _).
  destruct (beforeEnemies_keeps i g) as (_ & _ & _ & _ & -> & _). reflexivity.
Qed.

Lemma frame_health_eq (i : FrameInput) (g : Game) :
  health (player (frame i g))
  = health (player g)
    - contacts (player (beforeEnemies i g)) (enemies (updateEnemies (beforeEnemies i g)))
    - zoneDamage (frame i g).
Proof.
  rewrite frame_zoneDamage, frame_player. unfold beforeSpawn.
  destruct (updateSafeZone_player (updateEnemies (beforeEnemies i g)))
    as (_ & _ & _ & ->).
  destruct (updateEnemies_player (beforeEnemies i g)) as (_ & _ & _ & ->).
  destruct (beforeEnemies_keeps i g) as (-> & _). reflexivity.
Qed.

(** X3. The health the player loses in a frame is one point for each
    enemy that ends its visit within contact range, plus one point when
    the player is outside the safe zone; that is at most one point for
    each enemy present at the start of the frame, plus one. *)
Theorem frame_player_damage :
  forall (i : FrameInput) (g : Game),
    health (player (frame i g))
    = health (player g)
      - contacts (player (beforeEnemies i g)) (enemies (updateEnemies (beforeEnemies i g)))
      - zoneDamage (frame i g)
    /\ 0 <= contacts (player (beforeEnemies i g)) (enemies (updateEnemies (beforeEnemies i g)))
            <= Z.of_nat (List.length (enemies g))
    /\ 0 <= zoneDamage (frame i g) <= 1.
Proof.
  intros i g.
  split; [apply frame_health_eq|]. split.
  - unfold contacts. split; [lia|].
    pose proof (filter_length_le (touchesPlayer (player (beforeEnemies i g)))
                  (enemies (updateEnemies (beforeEnemies i g)))) as H1.
    pose proof (decayed_length _ _ (updateEnemies_decayed (beforeEnemies i g))) as H2.
    destruct (beforeEnemies_keeps i g) as (_ & He & _). rewrite He in H2. lia.
  - unfold zoneDamage. destruct (isInside _ _); lia.
Qed.

(** ** The player over a session *)

Lemma frame_health_lower (i : FrameInput) (g : Game) :
  health (player g) - Z.of_nat (List.length (enemies g)) - 1
  <= health (player (frame i g)).
Proof.
  rewrite frame_player. unfold beforeSpawn.
  destruct (updateSafeZone_keeps (updateEnemies (beforeEnemies i g))) as (_ & H1 & _).
  destruct (updateEnemies_player (beforeEnemies i g)) as (_ & _ & _ & H2).
  destruct (beforeEnemies_keeps i g) as (H3 & H4 & _).
  pose proof (filter_length_le (touchesPlayer (player (beforeEnemies i g)))
                (enemies (updateEnemies (beforeEnemies i g)))) as H5.
  pose proof (decayed_length _ _ (updateEnemies_decayed (beforeEnemies i g))) as H6.
  rewrite H4 in H6. unfold contacts in H2. lia.
Qed.

Lemma frame_open_alive (i : FrameInput) (g : Game) :
  windowOpen (frame i g) = true -> 0 < health (player (frame i g)).
Proof.
  rewrite frame_gameOver. intros H.
  rewrite (gameOver_open _ H).
  destruct (Z_lt_le_dec 0 (health (player (beforeGameOver i g)))) as [Hh|Hh]; [exact Hh|].
  destruct (gameOver_dead_fields _ Hh) as (_ & _ & Hw & _).
  rewrite Hw in H. discriminate H.
Qed.

Lemma frame_playerInv (i : FrameInput) (g : Game) :
  windowOpen g = true -> playerInv g -> playerInv (frame i g).
Proof.
  intros Ho (Hs & Hh & Ha & Hn). specialize (Ha Ho).
  destruct (frame_player_fields i g) as (_ & _ & Hs').
  pose proof (frame_player_health i g) as Hle.
  pose proof (frame_health_lower i g) as Hlo.
  pose proof (frame_count i g Hn) as Hn'.
  unfold playerInv. rewrite Hs'.
  split; [exact Hs|]. split; [lia|]. split; [apply frame_open_alive|exact Hn'].
Qed.

Lemma run_playerInv (inputs : list FrameInput) (g : Game) :
  playerInv g -> playerInv (run inputs g).
Proof.
  revert g. induction inputs as [|i rest IH]; intros g H; [exact H|].
  cbn [run]. destruct (windowOpen g) eqn:Ho; [|exact H].
  apply IH. now apply frame_playerInv.
Qed.

Lemma init_playerInv (initRand : nat -> Z * Z * Z) (t0 : Z) (file : option string) :
  playerInv (init initRand t0 file).
Proof.
  unfold playerInv. rewrite init_count. cbn. repeat split; lia.
Qed.

(** X4. At every test of [window.isOpen()] in a session the player's
    speed is [PLAYER_SPEED], the health lies between -10 and 100, and it
    is positive while the window is open. *)
Theorem session_player_bounds :
  forall (initRand : nat -> Z * Z * Z) (t0 : Z) (file : option string)
         (inputs : list FrameInput),
    let g := run inputs (init initRand t0 file) in
    speed (player g) = PLAYER_SPEED
    /\ -10 <= health (player g) <= 100
    /\ (windowOpen g = true -> 0 < health (player g)).
Proof.
  intros initRand t0 file inputs g.
  destruct (run_playerInv inputs _ (init_playerInv initRand t0 file))
    as (H1 & H2 & H3 & _).
  split; [exact H1|]. split; [exact H2|exact H3].
Qed.

(** X5. In a session each frame displaces the player by three pixels
    along an axis of which one key is held, by nothing along an axis of
    which none or both are held; a diagonal step is not normalised. *)
Theorem session_player_step :
  forall (initRand : nat -> Z * Z * Z) (t0 : Z) (file : option string)
         (inputs : list FrameInput) (i : FrameInput),
    let g := run inputs (init initRand t0 file) in
    position (player (frame i g))
    = vadd (position (player g))
           (mkVec (keyAxis (F32.of_int 3) (keyA (keys i)) (keyD (keys i)))
                  (keyAxis (F32.of_int 3) (keyW (keys i)) (keyS (keys i)))).
Proof.
  intros initRand t0 file inputs i g.
  destruct (run_playerInv inputs _ (init_playerInv initRand t0 file)) as (Hs & _).
  fold g in Hs.
  destruct (frame_player_fields i g) as (-> & _).
  rewrite (handleInput_velocity (keys i) (player g) false 12582912 (-22)), Hs.
  - reflexivity.
  - rewrite Hs. vm_compute. reflexivity.
Qed.

(** ** Enemies over a session *)

Lemma scanBullets_enemy (e : Entity) (bs : list Bullet) (sc kc : Z) :
  (s_enemy (scanBullets e bs sc kc) = e /\ s_dead (scanBullets e bs sc kc) = false)
  \/ (s_enemy (scanBullets e bs sc kc) = takeDamage e 25
      /\ s_dead (scanBullets e bs sc kc) = negb (isAlive (takeDamage e 25))).
Proof.
  induction bs as [|b rest IH]; cbn [scanBullets].
  - left. split; reflexivity.
  - destruct (bulletHits e b).
    + right. cbv zeta. destruct (negb (isAlive (takeDamage e 25))) eqn:E;
        cbn [s_enemy s_dead]; split; reflexivity.
    + cbv zeta. cbn [s_enemy s_dead]. exact IH.
Qed.

Section EnemyInvariant.

Variable P : Entity -> Prop.
Hypothesis P_update : forall (p : Vector2f) (e : Entity), P e -> P (move (Enemy_update p e)).
Hypothesis P_hit : forall e : Entity, P e -> isAlive (takeDamage e 25) = true -> P (takeDamage e 25).

Lemma enemyLoop_Forall (es : list Entity) (g : Game) :
  Forall P es -> Forall P (fst (enemyLoop es g)).
Proof.
  revert g. induction es as [|e es IH]; intros g H.
  - cbn. constructor.
  - inversion H as [|? ? He Hes]; subst.
    rewrite enemyLoop_cons. cbv zeta.
    set (e1 := move (Enemy_update (getPosition (player g)) e)).
    assert (H1 : P e1) by (apply P_update; exact He).
    destruct (scanBullets_enemy e1 (bullets g) (score g) (killCount g))
      as [[Hse Hd]|[Hse Hd]]; rewrite Hd.
    + cbn [fst]. constructor; [rewrite Hse; exact H1|apply IH; exact Hes].
    + destruct (isAlive (takeDamage e1 25)) eqn:Ea; cbn [negb].
      * cbn [fst]. constructor; [rewrite Hse; apply P_hit; assumption|apply IH; exact Hes].
      * apply IH; exact Hes.
Qed.

Lemma frame_enemies_Forall (i : FrameInput) (g : Game) :
  P (spawnEnemy (spawnRand i)) ->
  Forall P (enemies g) -> Forall P (enemies (frame i g)).
Proof.
  intros Hs H. rewrite frame_enemies.
  assert (Hu : Forall P (enemies (updateEnemies (beforeEnemies i g)))).
  { rewrite updateEnemies_eq. cbn [enemies set_enemies].
    apply enemyLoop_Forall.
    destruct (beforeEnemies_keeps i g) as (_ & -> & _). exact H. }
  destruct (spawnDue (beforeSpawn i g)); [|exact Hu].
  apply Forall_app. split; [exact Hu|]. constructor; [exact Hs|constructor].
Qed.

Lemma run_enemies_Forall (inputs : list FrameInput) (g : Game) :
  Forall (fun i => P (spawnEnemy (spawnRand i))) inputs ->
  Forall P (enemies g) -> Forall P (enemies (run inputs g)).
Proof.
  revert g. induction inputs as [|i rest IH]; intros g Hi H; [exact H|].
  inversion Hi as [|? ? Hi1 Hi2]; subst.
  cbn [run]. destruct (windowOpen g); [|exact H].
  apply IH; [exact Hi2|]. apply frame_enemies_Forall; assumption.
Qed.

End EnemyInvariant.

Lemma init_enemies_Forall (P : Entity -> Prop) (initRand : nat -> Z * Z * Z)
      (t0 : Z) (file : option string) :
  (forall n : nat, P (spawnEnemy (initRand n))) ->
  Forall P (enemies (init initRand t0 file)).
Proof.
  intros H. unfold init. cbn [enemies].
  apply Forall_forall. intros e He. apply in_map_iff in He.
  destruct He as (n & <- & _). apply H.
Qed.

Lemma move_update_speed (p : Vector2f) (e : Entity) :
  speed (move (Enemy_update p e)) = speed e.
Proof.
  unfold Enemy_update. cbv zeta. destruct (F32.gt _ _); reflexivity.
Qed.

Lemma speed_draw_slower (n : nat) :
  (n < 20)%nat ->
  let s := F32.add ENEMY_SPEED (F32.div (F32.of_int (Z.of_nat n)) (F32.of_int 10)) in
  F32.le ENEMY_SPEED s && F32.lt s PLAYER_SPEED = true.
Proof.
  intros H. do 20 (destruct n as [|n]; [vm_compute; reflexivity|]). lia.
Qed.

Lemma Enemy_new_slower (x y : float) (r : Z) :
  0 <= r -> slower (Enemy_new x y r) = true.
Proof.
  intros H. unfold slower, Enemy_new, Entity_new. cbn [speed].
  pose proof (Z.rem_bound_pos r 20 H ltac:(lia)) as Hb.
  rewrite <- (Z2Nat.id (Z.rem r 20)) by lia.
  apply speed_draw_slower. lia.
Qed.

(** X6. [Enemy] constructor: with the value [rand()] returns, which is
    not negative, the speed drawn is at least [ENEMY_SPEED] and below
    [PLAYER_SPEED]; the enemy starts at the position given, at rest, with
    50 points of health. *)
Theorem enemy_constructor_speed_range :
  forall (x y : float) (r : Z),
    0 <= r ->
    F32.le ENEMY_SPEED (speed (Enemy_new x y r)) = true
    /\ F32.lt (speed (Enemy_new x y r)) PLAYER_SPEED = true
    /\ position (Enemy_new x y r) = mkVec x y
    /\ velocity (Enemy_new x y r) = vzero
    /\ health (Enemy_new x y r) = 50.
Proof.
  intros x y r H.
  pose proof (Enemy_new_slower x y r H) as Hs. unfold slower in Hs.
  apply andb_true_iff in Hs. destruct Hs as [H1 H2].
  split; [exact H1|]. split; [exact H2|]. repeat split.
Qed.

Lemma enemy_constructor_speed_range_witness :
  F32.lt (speed (Enemy_new (F32.of_int 5) (F32.of_int 7) 19)) PLAYER_SPEED = true.
Proof.
  exact (proj1 (proj2 (enemy_constructor_speed_range (F32.of_int 5) (F32.of_int 7) 19
                         ltac:(lia)))).
Defined.

Lemma hitAtMostOnce_update (p : Vector2f) (e : Entity) :
  hitAtMostOnce e -> hitAtMostOnce (move (Enemy_update p e)).
Proof. unfold hitAtMostOnce. now rewrite move_update_health. Qed.

Lemma hitAtMostOnce_hit (e : Entity) :
  hitAtMostOnce e -> isAlive (takeDamage e 25) = true -> hitAtMostOnce (takeDamage e 25).
Proof.
  unfold hitAtMostOnce, isAlive, takeDamage. cbn [health].
  intros [H|H] Ha; apply Z.ltb_lt in Ha; lia.
Qed.

(** X7. In a session every enemy on the list has 50 or 25 points of
    health: it is alive, was hit at most once, and the next hit on one at
    25 erases it. *)
Theorem session_enemies_hit_at_most_once :
  forall (initRand : nat -> Z * Z * Z) (t0 : Z) (file : option string)
         (inputs : list FrameInput),
    Forall (fun e => (health e = 50 \/ health e = 25) /\ isAlive e = true)
           (enemies (run inputs (init initRand t0 file))).
Proof.
  intros initRand t0 file inputs.
  assert (H : Forall hitAtMostOnce (enemies (run inputs (init initRand t0 file)))).
  { apply run_enemies_Forall.
    - exact hitAtMostOnce_update.
    - exact hitAtMostOnce_hit.
    - apply Forall_forall. intros i _. left. apply spawnEnemy_health.
    - apply init_enemies_Forall. intros n. left. apply spawnEnemy_health. }
  eapply Forall_impl; [|exact H].
  intros e He. split; [exact He|].
  apply isAlive_iff. destruct He as [He|He]; lia.
Qed.

Lemma slower_update (p : Vector2f) (e : Entity) :
  slower e = true -> slower (move (Enemy_update p e)) = true.
Proof. unfold slower. now rewrite move_update_speed. Qed.

Lemma spawnEnemy_slower (r : Z * Z * Z) : fromRand r -> slower (spawnEnemy r) = true.
Proof.
  destruct r as [[rx ry] rs]. intros (_ & _ & H). cbn [snd] in H.
  unfold spawnEnemy. now apply Enemy_new_slower.
Qed.

(** X8. In a session whose [rand()] values are not negative, every enemy
    on the list moves at a speed of at least [ENEMY_SPEED] and below the
    player's: no update changes the speed drawn at creation. *)
Theorem session_enemies_slower_than_player :
  forall (initRand : nat -> Z * Z * Z) (t0 : Z) (file : option string)
         (inputs : list FrameInput),
    (forall n : nat, fromRand (initRand n)) ->
    Forall (fun i => fromRand (spawnRand i)) inputs ->
    let g := run inputs (init initRand t0 file) in
    Forall (fun e => F32.le ENEMY_SPEED (speed e) = true
                     /\ F32.lt (speed e) (speed (player g)) = true)
           (enemies g).
Proof.
  intros initRand t0 file inputs Hi Hr g.
  destruct (run_playerInv inputs _ (init_playerInv initRand t0 file)) as (Hs & _).
  fold g in Hs. rewrite Hs.
  assert (H : Forall (fun e => slower e = true) (enemies g)).
  { apply run_enemies_Forall.
    - exact slower_update.
    - intros e He _. exact He.
    - eapply Forall_impl; [|exact Hr]. intros i. apply spawnEnemy_slower.
    - apply init_enemies_Forall. intros n. apply spawnEnemy_slower, Hi. }
  eapply Forall_impl; [|exact H].
  intros e He. unfold slower in He. now apply andb_true_iff in He.
Qed.

Lemma session_enemies_slower_than_player_witness :
  Forall (fun e => F32.le ENEMY_SPEED (speed e) = true
                   /\ F32.lt (speed e) (speed (player (run fillingFrames opening))) = true)
         (enemies (run fillingFrames opening)).
Proof.
  apply (session_enemies_slower_than_player openingRand 0 None fillingFrames).
  - intros [|n]; cbn; unfold fromRand; cbn; lia.
  - repeat constructor; cbn; lia.
Defined.

(** ** Bullets over a session *)

Lemma scanBullets_used (e : Entity) (bs : list Bullet) (sc kc : Z) :
  (List.length (s_bullets (scanBullets e bs sc kc)) = List.length bs
   /\ s_dead (scanBullets e bs sc kc) = false)
  \/ S (List.length (s_bullets (scanBullets e bs sc kc))) = List.length bs.
Proof.
  induction bs as [|b rest IH]; cbn [scanBullets].
  - left. split; reflexivity.
  - destruct (bulletHits e b).
    + right. cbv zeta. destruct (negb (isAlive (takeDamage e 25)));
        cbn [s_bullets List.length]; reflexivity.
    + cbv zeta. cbn [s_bullets s_dead List.length].
      destruct IH as [[H1 H2]|H1]; [left|right]; [split|]; congruence.
Qed.

Lemma scanBullets_Forall (Q : Bullet -> Prop) (e : Entity) (bs : list Bullet) (sc kc : Z) :
  Forall Q bs -> Forall Q (s_bullets (scanBullets e bs sc kc)).
Proof.
  induction bs as [|b rest IH]; intros H; cbn [scanBullets].
  - constructor.
  - inversion H as [|? ? Hb Hr]; subst.
    destruct (bulletHits e b); cbv zeta.
    + destruct (negb (isAlive (takeDamage e 25))); cbn [s_bullets]; exact Hr.
    + cbn [s_bullets]. constructor; [exact Hb|apply IH; exact Hr].
Qed.

Lemma enemyLoop_bullets_Forall (Q : Bullet -> Prop) (es : list Entity) (g : Game) :
  Forall Q (bullets g) -> Forall Q (bullets (snd (enemyLoop es g))).
Proof.
  revert g. induction es as [|e es IH]; intros g H; [exact H|].
  rewrite enemyLoop_cons. cbv zeta.
  set (e1 := move _). set (r := scanBullets _ _ _ _). set (g1 := set_score _ _ _).
  assert (H1 : Forall Q (bullets g1)).
  { subst g1 r. cbn [bullets set_score set_bullets]. now apply scanBullets_Forall. }
  destruct (s_dead r); [apply IH; exact H1|].
  cbn [snd]. apply IH.
  destruct (touchesPlayer _ _); [|exact H1].
  cbn [bullets set_player]. exact H1.
Qed.

Lemma enemyLoop_used (es : list Entity) (g : Game) :
  Z.of_nat (List.length es) - Z.of_nat (List.length (fst (enemyLoop es g)))
  <= Z.of_nat (List.length (bullets g))
     - Z.of_nat (List.length (bullets (snd (enemyLoop es g))))
  <= Z.of_nat (List.length es).
Proof.
  revert g. induction es as [|e es IH]; intros g.
  - cbn. lia.
  - rewrite enemyLoop_cons. cbv zeta.
    set (e1 := move _). set (r := scanBullets _ _ _ _). set (g1 := set_score _ _ _).
    assert (Hb : bullets g1 = s_bullets r) by reflexivity.
    pose proof (scanBullets_used e1 (bullets g) (score g) (killCount g)) as Hu.
    fold r in Hu.
    destruct (s_dead r) eqn:Hd.
    + specialize (IH g1). rewrite Hb in IH.
      destruct Hu as [[_ Hu]|Hu]; [discriminate Hu|].
      cbn [List.length]. lia.
    + set (g2 := if touchesPlayer _ _ then _ else _).
      assert (Hb2 : bullets g2 = s_bullets r).
      { subst g2. destruct (touchesPlayer _ _); exact Hb. }
      specialize (IH g2). rewrite Hb2 in IH.
      cbn [fst snd List.length].
      destruct Hu as [[Hu _]|Hu]; lia.
Qed.

Lemma frame_bullets (i : FrameInput) (g : Game) :
  bullets (frame i g) = bullets (snd (enemyLoop (enemies g) (beforeEnemies i g))).
Proof.
  rewrite frame_unfold.
  destruct (gameOver_keeps (draw (spawn (spawnRand i) (beforeSpawn i g))))
    as (_ & _ & -> & _).
  destruct (draw_keeps (spawn (spawnRand i) (beforeSpawn i g))) as (_ & _ & -> & _).
  destruct (spawn_keeps (spawnRand i) (beforeSpawn i g)) as (_ & -> & _).
  unfold beforeSpawn.
  destruct (updateSafeZone_keeps (updateEnemies (beforeEnemies i g)))
    as (_ & _ & _ & -> & _).
  rewrite updateEnemies_eq. cbn [bullets set_enemies].
  now destruct (beforeEnemies_keeps i g) as (_ & -> & _).
Qed.

Lemma beforeEnemies_bullets (i : FrameInput) (g : Game) :
  bullets (beforeEnemies i g) = bulletLoop (bullets (pollEvents (events i) g)).
Proof. reflexivity. Qed.

Lemma handleEvent_bullets (ev : Event) (g : Game) :
  bullets (handleEvent ev g) = bullets g
  \/ bullets (handleEvent ev g)
     = bullets g
       ++ [Bullet_new (vx (position (player g))) (vy (position (player g)))
             (F32.sub (F32.of_int (fst (emouse ev))) (vx (position (player g))))
             (F32.sub (F32.of_int (snd (emouse ev))) (vy (position (player g))))].
Proof.
  unfold handleEvent. destruct (etype ev) as [|[| |]|]; try (left; reflexivity).
  destruct (canFire ev g); [right|left]; reflexivity.
Qed.

Lemma Bullet_new_standard (x y dx dy : float) : standardBullet (Bullet_new x y dx dy).
Proof. unfold Bullet_new, standardBullet. cbv zeta. cbn [bradius bspeed]. tauto. Qed.

Lemma pollEvents_standard (evs : list Event) (g : Game) :
  Forall standardBullet (bullets g) ->
  Forall standardBullet (bullets (pollEvents evs g)).
Proof.
  revert g. induction evs as [|ev rest IH]; intros g H; [exact H|].
  cbn [pollEvents]. destruct (windowOpen g); [|exact H].
  apply IH. destruct (handleEvent_bullets ev g) as [-> | ->]; [exact H|].
  apply Forall_app. split; [exact H|].
  constructor; [apply Bullet_new_standard|constructor].
Qed.

Lemma bulletLoop_standard (bs : list Bullet) :
  Forall standardBullet bs ->
  Forall (fun b => standardBullet b /\ outOfWindow (bpos b) = false) (bulletLoop bs).
Proof.
  induction bs as [|b rest IH]; intros H; cbn [bulletLoop]; [constructor|].
  inversion H as [|? ? Hb Hr]; subst. cbv zeta.
  destruct (outOfWindow (bpos (Bullet_move b))) eqn:E; [apply IH; exact Hr|].
  constructor; [|apply IH; exact Hr].
  split; [exact Hb|exact E].
Qed.

Lemma frame_standard (i : FrameInput) (g : Game) :
  Forall standardBullet (bullets g) ->
  Forall (fun b => standardBullet b /\ outOfWindow (bpos b) = false) (bullets (frame i g)).
Proof.
  intros H. rewrite frame_bullets. apply enemyLoop_bullets_Forall.
  rewrite beforeEnemies_bullets. apply bulletLoop_standard, pollEvents_standard, H.
Qed.

Lemma run_standard (inputs : list FrameInput) (g : Game) :
  Forall (fun b => standardBullet b /\ outOfWindow (bpos b) = false) (bullets g) ->
  Forall (fun b => standardBullet b /\ outOfWindow (bpos b) = false)
         (bullets (run inputs g)).
Proof.
  revert g. induction inputs as [|i rest IH]; intros g H; [exact H|].
  cbn [run]. destruct (windowOpen g); [|exact H].
  apply IH, frame_standard.
  eapply Forall_impl; [|exact H]. intros b Hb. exact (proj1 Hb).
Qed.

Lemma seventeen : F32.add (F32.of_int 5) (F32.of_int 12) = F32.of_int 17.
Proof. vm_compute. reflexivity. Qed.

(** X9. In a session every bullet in play when the loop tests
    [window.isOpen()] lies within the window, edges included, and has the
    radius 5 and the speed 7 of the constructor; so a bullet hits an
    enemy exactly when their positions are less than 17 apart. *)
Theorem session_bullets_inside_window :
  forall (initRand : nat -> Z * Z * Z) (t0 : Z) (file : option string)
         (inputs : list FrameInput),
    Forall (fun b =>
              outOfWindow (bpos b) = false
              /\ bradius b = F32.of_int 5
              /\ bspeed b = F32.of_int 7
              /\ forall e : Entity,
                   bulletHits e b
                   = F32.lt (F32.sqrt
                               (F32.add
                                  (F32.mul (F32.sub (vx (bpos b)) (vx (position e)))
                                           (F32.sub (vx (bpos b)) (vx (position e))))
                                  (F32.mul (F32.sub (vy (bpos b)) (vy (position e)))
                                           (F32.sub (vy (bpos b)) (vy (position e))))))
                            (F32.of_int 17))
           (bullets (run inputs (init initRand t0 file))).
Proof.
  intros initRand t0 file inputs.
  eapply Forall_impl; [|apply run_standard; constructor].
  intros b ((Hr & Hs) & Hin).
  split; [exact Hin|]. split; [exact Hr|]. split; [exact Hs|].
  intros e. unfold bulletHits, getRadius, getPosition. cbv zeta.
  rewrite Hr, seventeen. reflexivity.
Qed.

Lemma frame_used (i : FrameInput) (g : Game) :
  killsInFrame i g <= bulletsUsed i g <= Z.of_nat (List.length (enemies g)).
Proof.
  unfold killsInFrame, bulletsUsed.
  rewrite frame_bullets, updateEnemies_eq. cbn [enemies set_enemies].
  destruct (beforeEnemies_keeps i g) as (_ & -> & _).
  apply enemyLoop_used.
Qed.

(** X10. Every kill of a frame uses up a bullet, and each enemy uses up
    at most one bullet per frame: the number of enemies erased is at
    most the number of bullets erased by the enemy loop, which is at most
    the number of enemies; a frame whose enemy loop starts without a
    bullet leaves score and kill count as they were. *)
Theorem kills_use_up_bullets :
  forall (i : FrameInput) (g : Game),
    0 <= killsInFrame i g <= bulletsUsed i g
    /\ bulletsUsed i g <= Z.of_nat (List.length (enemies g))
    /\ bulletsUsed i g <= Z.of_nat (List.length (bullets (beforeEnemies i g)))
    /\ (bullets (beforeEnemies i g) = [] ->
        score (frame i g) = score g /\ killCount (frame i g) = killCount g).
Proof.
  intros i g.
  pose proof (frame_used i g) as Hu.
  destruct (frame_score i g) as (H0 & Hs & Hk).
  split; [lia|]. split; [lia|].
  assert (Hb : bulletsUsed i g <= Z.of_nat (List.length (bullets (beforeEnemies i g))))
    by (unfold bulletsUsed; lia).
  split; [exact Hb|].
  intros He. rewrite He in Hb. cbn [List.length] in Hb.
  rewrite Hs, Hk. lia.
Qed.

(** ** When the loop stops *)

Lemma pollEvents_closed (evs : list Event) (g : Game) :
  windowOpen g = false -> pollEvents evs g = g.
Proof. intros H. destruct evs; cbn [pollEvents]; [|rewrite H]; reflexivity. Qed.

Lemma pollEvents_app (pre post : list Event) (g : Game) :
  pollEvents (pre ++ post) g = pollEvents post (pollEvents pre g).
Proof.
  revert g. induction pre as [|ev pre IH]; intros g; [reflexivity|].
  cbn [app pollEvents]. destruct (windowOpen g) eqn:E; [apply IH|].
  now rewrite pollEvents_closed.
Qed.

Lemma handleEvent_windowOpen (ev : Event) (g : Game) :
  windowOpen (handleEvent ev g) = windowOpen g && notClosed ev.
Proof.
  unfold handleEvent, notClosed. destruct (etype ev) as [|[| |]|];
    cbn [windowOpen emit set_windowOpen]; rewrite ?andb_true_r, ?andb_false_r;
    try reflexivity.
  destruct (canFire ev g); reflexivity.
Qed.

Lemma pollEvents_windowOpen (evs : list Event) (g : Game) :
  windowOpen (pollEvents evs g) = windowOpen g && forallb notClosed evs.
Proof.
  revert g. induction evs as [|ev rest IH]; intros g; cbn [pollEvents forallb].
  - now rewrite andb_true_r.
  - destruct (windowOpen g) eqn:E; [|exact E].
    rewrite IH, handleEvent_windowOpen, E. reflexivity.
Qed.

Lemma beforeGameOver_unfold (i : FrameInput) (g : Game) :
  beforeGameOver i g = draw (spawn (spawnRand i) (beforeSpawn i g)).
Proof. unfold beforeGameOver, simulate, beforeSpawn, beforeEnemies. reflexivity. Qed.

Lemma beforeGameOver_windowOpen (i : FrameInput) (g : Game) :
  windowOpen (beforeGameOver i g) = windowOpen (pollEvents (events i) g).
Proof.
  rewrite beforeGameOver_unfold.
  destruct (draw_keeps (spawn (spawnRand i) (beforeSpawn i g)))
    as (_ & _ & _ & _ & _ & _ & _ & -> & _).
  destruct (spawn_keeps (spawnRand i) (beforeSpawn i g)) as (_ & _ & _ & _ & _ & -> & _).
  unfold beforeSpawn.
  destruct (updateSafeZone_keeps (updateEnemies (beforeEnemies i g)))
    as (_ & _ & _ & _ & _ & _ & _ & -> & _).
  rewrite updateEnemies_eq. cbn [windowOpen set_enemies].
  destruct (enemyLoop_frame (enemies (beforeEnemies i g)) (beforeEnemies i g))
    as (_ & _ & _ & _ & _ & _ & _ & -> & _).
  reflexivity.
Qed.

Lemma gameOver_clock (g : Game) : clock (gameOver g) = clock g.
Proof. unfold gameOver. now destruct (negb _). Qed.

Lemma frame_clock (i : FrameInput) (g : Game) : clock (frame i g) = frameTime i.
Proof.
  rewrite frame_unfold, gameOver_clock.
  assert (Hd : forall h, clock (draw h) = clock h) by reflexivity.
  rewrite Hd.
  destruct (spawn_result (spawnRand i) (beforeSpawn i g)) as (-> & _).
  now destruct (beforeSpawn_clock_timer i g) as (-> & _).
Qed.

Lemma gameOver_windowOpen (g : Game) :
  windowOpen (gameOver g) = windowOpen g && isAlive (player g).
Proof.
  unfold gameOver. destruct (isAlive (player g)); cbn [negb].
  - now rewrite andb_true_r.
  - cbn [windowOpen set_windowOpen]. now rewrite andb_false_r.
Qed.

Lemma frame_windowOpen (i : FrameInput) (g : Game) :
  windowOpen (frame i g)
  = windowOpen g && forallb notClosed (events i) && isAlive (player (frame i g)).
Proof.
  rewrite frame_gameOver at 1. rewrite gameOver_windowOpen.
  rewrite beforeGameOver_windowOpen, pollEvents_windowOpen.
  f_equal. f_equal. rewrite frame_gameOver.
  now destruct (gameOver_keeps (beforeGameOver i g)) as (-> & _).
Qed.

(** X11. The loop goes on after a frame exactly when no [Closed] event
    arrived and the player is alive at the end of the frame.  The events
    that follow a [Closed] in the same poll are never handled, but the
    rest of the frame still runs: the clock is restarted and the zone
    updated before the loop stops. *)
Theorem loop_continues_iff_not_closed_and_alive :
  forall (i : FrameInput) (g : Game),
    windowOpen g = true ->
    windowOpen (frame i g)
    = forallb notClosed (events i) && isAlive (player (frame i g))
    /\ (forall (pre post : list Event) (ev : Event),
          events i = pre ++ ev :: post ->
          forallb notClosed pre = true ->
          etype ev = Closed ->
          pollEvents (events i) g
          = emit [CloseWindow] (set_windowOpen false (pollEvents pre g))
          /\ clock (frame i g) = frameTime i
          /\ safeZone (frame i g) = SafeZone_update (safeZone g)
          /\ forall rest : list FrameInput, run (i :: rest) g = frame i g).
Proof.
  intros i g Ho. split.
  - rewrite frame_windowOpen, Ho. reflexivity.
  - intros pre post ev He Hpre Hev.
    assert (Hp : pollEvents (events i) g
                 = emit [CloseWindow] (set_windowOpen false (pollEvents pre g))).
    { rewrite He, pollEvents_app. cbn [pollEvents].
      rewrite pollEvents_windowOpen, Ho, Hpre. cbn [andb].
      rewrite pollEvents_closed.
      - unfold handleEvent. rewrite Hev. reflexivity.
      - rewrite handleEvent_windowOpen. unfold notClosed. rewrite Hev.
        apply andb_false_r. }
    split; [exact Hp|]. split.
    { apply frame_clock. }
    split; [apply frame_safeZone|].
    intros rest. cbn [run]. rewrite Ho. apply run_closed.
    rewrite frame_windowOpen, He, forallb_app. cbn [forallb].
    unfold notClosed at 2. rewrite Hev. cbn [andb].
    now rewrite !andb_false_r.
Qed.

Lemma loop_continues_iff_not_closed_and_alive_witness :
  windowOpen (frame (mkInput [mkEvent Closed 5 (0, 0)] 10 noKeys (0, 0, 0)) initial)
  = false.
Proof.
  rewrite (proj1 (loop_continues_iff_not_closed_and_alive
                    (mkInput [mkEvent Closed 5 (0, 0)] 10 noKeys (0, 0, 0)) initial
                    ltac:(reflexivity))).
  reflexivity.
Defined.

(** ** The score file and the trace *)

Lemma beforeGameOver_scoreFile (i : FrameInput) (g : Game) :
  scoreFile (beforeGameOver i g) = scoreFile g.
Proof.
  rewrite beforeGameOver_unfold.
  destruct (draw_keeps (spawn (spawnRand i) (beforeSpawn i g)))
    as (_ & _ & _ & _ & _ & _ & _ & _ & ->).
  destruct (spawn_keeps (spawnRand i) (beforeSpawn i g))
    as (_ & _ & _ & _ & _ & _ & -> & _).
  unfold beforeSpawn.
  destruct (updateSafeZone_keeps (updateEnemies (beforeEnemies i g)))
    as (_ & _ & _ & _ & _ & _ & _ & _ & -> & _).
  rewrite updateEnemies_eq. cbn [scoreFile set_enemies].
  destruct (enemyLoop_frame (enemies (beforeEnemies i g)) (beforeEnemies i g))
    as (_ & _ & _ & _ & _ & _ & _ & _ & -> & _).
  now destruct (beforeEnemies_keeps i g) as (_ & _ & _ & _ & _ & ->).
Qed.

Lemma scoreText_gameOver (g : Game) : scoreText (gameOver g) = scoreText g.
Proof.
  unfold scoreText.
  now destruct (gameOver_keeps g) as (_ & _ & _ & -> & -> & _).
Qed.

Lemma frame_scoreFile (i : FrameInput) (g : Game) :
  scoreFile (frame i g)
  = if isAlive (player (frame i g)) then scoreFile g
    else Some (scoreText (frame i g)).
Proof.
  rewrite frame_gameOver.
  destruct (gameOver_keeps (beforeGameOver i g)) as (-> & _).
  rewrite scoreText_gameOver.
  unfold isAlive.
  destruct (0 <? health (player (beforeGameOver i g))) eqn:E.
  - apply Z.ltb_lt in E. rewrite (gameOver_alive _ E).
    apply beforeGameOver_scoreFile.
  - apply Z.ltb_ge in E.
    destruct (gameOver_dead_fields _ E) as (-> & _). reflexivity.
Qed.

Lemma run_scoreFile (inputs : list FrameInput) (g : Game) :
  isAlive (player g) = true ->
  scoreFile (run inputs g)
  = if isAlive (player (run inputs g)) then scoreFile g
    else Some (scoreText (run inputs g)).
Proof.
  revert g. induction inputs as [|i rest IH]; intros g Ha.
  - cbn [run]. now rewrite Ha.
  - cbn [run]. destruct (windowOpen g) eqn:Ho; [|now rewrite Ha].
    destruct (isAlive (player (frame i g))) eqn:Ef.
    + rewrite (IH _ Ef). rewrite frame_scoreFile, Ef. reflexivity.
    + rewrite run_closed.
      * rewrite frame_scoreFile, Ef. reflexivity.
      * rewrite frame_windowOpen, Ef. apply andb_false_r.
Qed.

(** X12. After a session, game_score.txt holds what it held before if
    the player is alive (the session ended by a [Closed] event, or has
    not ended), and the final score and kill count if the player is
    dead. *)
Theorem session_score_file :
  forall (initRand : nat -> Z * Z * Z) (t0 : Z) (file : option string)
         (inputs : list FrameInput),
    let final := run inputs (init initRand t0 file) in
    scoreFile final
    = if isAlive (player final) then file
      else Some ("Final Score: " ++ to_string (score final) ++ newline
                 ++ "Kills: " ++ to_string (killCount final))%string.
Proof.
  intros initRand t0 file inputs final. subst final.
  rewrite run_scoreFile; reflexivity.
Qed.

Lemma gameOver_trace (g : Game) :
  trace (gameOver g)
  = trace g ++ (if isAlive (player g) then [] else gameOverEffects g).
Proof.
  unfold gameOver. destruct (isAlive (player g)); cbn [negb].
  - now rewrite app_nil_r.
  - reflexivity.
Qed.

Lemma hudText_gameOver (g : Game) : hudText (gameOver g) = hudText g.
Proof.
  unfold hudText, getHealth.
  now destruct (gameOver_keeps g) as (-> & _ & _ & -> & -> & _).
Qed.

Lemma gameOverEffects_gameOver (g : Game) :
  gameOverEffects (gameOver g) = gameOverEffects g.
Proof.
  unfold gameOverEffects, gameOverText. rewrite scoreText_gameOver.
  now destruct (gameOver_keeps g) as (_ & _ & _ & -> & -> & _).
Qed.

Lemma hudText_draw (g : Game) : hudText (draw g) = hudText g.
Proof. reflexivity. Qed.

Lemma draw_trace (g : Game) : trace (draw g) = trace g ++ [DrawFrame (hudText g)].
Proof. reflexivity. Qed.

Lemma simulate_spawn (i : FrameInput) (g : Game) :
  simulate i (pollEvents (events i) g) = spawn (spawnRand i) (beforeSpawn i g).
Proof. unfold simulate, beforeSpawn, beforeEnemies. reflexivity. Qed.

Lemma frame_trace (i : FrameInput) (g : Game) :
  trace (frame i g)
  = trace (pollEvents (events i) g)
    ++ DrawFrame (hudText (frame i g))
       :: (if isAlive (player (frame i g)) then [] else gameOverEffects (frame i g)).
Proof.
  rewrite frame_gameOver.
  rewrite hudText_gameOver, gameOverEffects_gameOver, gameOver_trace.
  destruct (gameOver_keeps (beforeGameOver i g)) as (-> & _).
  set (tail := if isAlive _ then _ else _).
  rewrite beforeGameOver_unfold at 1 2.
  rewrite draw_trace, hudText_draw.
  rewrite <- simulate_spawn, simulate_trace.
  rewrite <- app_assoc. reflexivity.
Qed.

Lemma handleEvent_shots (ev : Event) (g : Game) :
  (exists t, trace (handleEvent ev g) = trace g ++ t
             /\ Forall (fun e => e = PlayShoot \/ e = CloseWindow) t)
  /\ (List.length (bullets (handleEvent ev g)) + shots (trace g)
      = List.length (bullets g) + shots (trace (handleEvent ev g)))%nat.
Proof.
  unfold handleEvent.
  assert (H0 : (exists t, trace g = trace g ++ t
                          /\ Forall (fun e => e = PlayShoot \/ e = CloseWindow) t)
               /\ (List.length (bullets g) + shots (trace g)
                   = List.length (bullets g) + shots (trace g))%nat).
  { split; [exists []; split; [now rewrite app_nil_r|constructor]|reflexivity]. }
  destruct (etype ev) as [|[| |]|]; try exact H0.
  - split.
    + exists [CloseWindow]. split; [reflexivity|]. constructor; [now right|constructor].
    + cbn [bullets trace emit set_windowOpen]. unfold shots.
      rewrite filter_app, length_app. cbn. lia.
  - destruct (canFire ev g); [|exact H0]. split.
    + exists [PlayShoot]. split; [reflexivity|]. constructor; [now left|constructor].
    + unfold fire. cbv zeta. cbn [bullets trace emit set_bulletClock set_bullets].
      unfold shots. rewrite filter_app, !length_app. cbn. lia.
Qed.

Lemma pollEvents_shots (evs : list Event) (g : Game) :
  (exists t, trace (pollEvents evs g) = trace g ++ t
             /\ Forall (fun e => e = PlayShoot \/ e = CloseWindow) t)
  /\ (List.length (bullets (pollEvents evs g)) + shots (trace g)
      = List.length (bullets g) + shots (trace (pollEvents evs g)))%nat.
Proof.
  revert g. induction evs as [|ev rest IH]; intros g.
  - cbn [pollEvents]. split; [|reflexivity].
    exists []. split; [now rewrite app_nil_r|constructor].
  - cbn [pollEvents]. destruct (windowOpen g).
    + destruct (IH (handleEvent ev g)) as ((t2 & Ht2 & Hf2) & Hn2).
      destruct (handleEvent_shots ev g) as ((t1 & Ht1 & Hf1) & Hn1).
      split; [|lia].
      exists (t1 ++ t2). split; [|now apply Forall_app].
      rewrite Ht2, Ht1. now rewrite app_assoc.
    + split; [|reflexivity].
      exists []. split; [now rewrite app_nil_r|constructor].
Qed.

(** X13. What a frame adds to the trace: first the sounds of the shots
    fired and a possible [CloseWindow] from the event loop, one shot for
    each bullet created; then exactly one drawn frame whose heads-up
    text shows score, kills and health as they are at the end of the
    frame; then, if the player is dead, the four effects of the game-over
    branch. *)
Theorem frame_trace_shape :
  forall (i : FrameInput) (g : Game),
    exists evs : list Effect,
      trace (frame i g)
      = trace g ++ evs
        ++ DrawFrame (hudText (frame i g))
           :: (if isAlive (player (frame i g)) then []
               else [WriteFile "game_score.txt" (scoreText (frame i g));
                     DrawGameOver (gameOverText (frame i g));
                     Sleep 3;
                     CloseWindow])
      /\ Forall (fun e => e = PlayShoot \/ e = CloseWindow) evs
      /\ (List.length (bullets (pollEvents (events i) g))
          = List.length (bullets g) + shots evs)%nat.
Proof.
  intros i g.
  destruct (pollEvents_shots (events i) g) as ((t & Ht & Hf) & Hn).
  exists t. split; [|split; [exact Hf|]].
  - rewrite frame_trace, Ht, <- app_assoc. reflexivity.
  - rewrite Ht in Hn. unfold shots in *. rewrite filter_app, length_app in Hn. lia.
Qed.

(** ** The safe zone never grows *)

Lemma zoneStepsOk_correct (n : nat) (z : SafeZone) :
  zoneStepsOk n z = true ->
  forall k : nat, (k < n)%nat -> zoneStepOk (Nat.iter k SafeZone_update z) = true.
Proof.
  revert z. induction n as [|n IH]; intros z H k Hk; [lia|].
  cbn [zoneStepsOk] in H. apply andb_true_iff in H. destruct H as [H1 H2].
  destruct k as [|k]; [exact H1|].
  rewrite Nat.iter_succ_r. apply IH; [exact H2|lia].
Qed.

Lemma zone_checked : zoneStepsOk 3001 SafeZone_new = true.
Proof. vm_compute. reflexivity. Qed.

Lemma zoneAfter_stepOk (n : nat) : zoneStepOk (zoneAfter n) = true.
Proof.
  destruct (Nat.lt_ge_cases n 3001) as [H|H].
  - exact (zoneStepsOk_correct 3001 SafeZone_new zone_checked n H).
  - rewrite zoneAfter_held by lia.
    exact (zoneStepsOk_correct 3001 SafeZone_new zone_checked 3000%nat ltac:(lia)).
Qed.

(** X14. The safe zone of a session never grows from one frame to the
    next, its radius stays above 49 and at most 350, and the centre of
    the window is inside it after every update. *)
Theorem safe_zone_never_grows :
  forall n : nat,
    F32.le (radius (zoneAfter (S n))) (radius (zoneAfter n)) = true
    /\ F32.lt (F32.of_int 49) (radius (zoneAfter (S n))) = true
    /\ F32.le (radius (zoneAfter (S n))) (F32.of_int 350) = true
    /\ isInside (zoneAfter (S n)) (position Player_new) = true
    /\ forall (initRand : nat -> Z * Z * Z) (t0 : Z) (file : option string)
              (inputs : list FrameInput),
         List.length inputs = S n ->
         windowOpen (run inputs (init initRand t0 file)) = true ->
         safeZone (run inputs (init initRand t0 file)) = zoneAfter (S n).
Proof.
  intros n.
  pose proof (zoneAfter_stepOk n) as H. unfold zoneStepOk in H. cbv zeta in H.
  rewrite <- zoneAfter_S in H.
  apply andb_true_iff in H. destruct H as [H H4].
  apply andb_true_iff in H. destruct H as [H H3].
  apply andb_true_iff in H. destruct H as [H1 H2].
  split; [exact H1|]. split; [exact H2|]. split; [exact H3|]. split; [exact H4|].
  intros initRand t0 file inputs Hl Ho.
  rewrite (run_safeZone inputs _ Ho), Hl. reflexivity.
Qed.

(** ** The start screen *)

Lemma startPollEvents_spec (evs : list EventType) (open : bool) (tr : list Effect) :
  startPollEvents evs open tr
  = (open && forallb (fun ev => match ev with Closed => false | _ => true end) evs,
     tr ++ (if open
               && negb (forallb (fun ev => match ev with Closed => false | _ => true end)
                                evs)
            then [CloseWindow] else [])).
Proof.
  revert open tr.
  induction evs as [|ev rest IH]; intros open tr; cbn [startPollEvents forallb].
  - rewrite andb_true_r, andb_false_r, app_nil_r. reflexivity.
  - destruct open; [|now rewrite app_nil_r].
    destruct ev; rewrite IH; cbn [andb negb]; rewrite ?app_nil_r; reflexivity.
Qed.

Lemma waitForEnter_waits (polls : list StartPoll) (open : bool) (tr : list Effect) :
  Forall (fun p => enterPressed p = false) polls ->
  waitForEnter polls open tr = None.
Proof.
  revert open tr. induction polls as [|p rest IH]; intros open tr H; [reflexivity|].
  inversion H as [|? ? Hp Hr]; subst.
  cbn [waitForEnter]. destruct (startPollEvents (startEvents p) open tr) as [o t].
  rewrite Hp. apply IH, Hr.
Qed.

Lemma waitForEnter_returns (pre post : list StartPoll) (p : StartPoll)
      (open : bool) (tr : list Effect) :
  Forall (fun q => enterPressed q = false) pre ->
  enterPressed p = true ->
  waitForEnter (pre ++ p :: post) open tr
  = Some (open && forallb keepsOpen (pre ++ [p]),
          tr ++ (if open && negb (forallb keepsOpen (pre ++ [p]))
                 then [CloseWindow] else [])).
Proof.
  revert open tr. induction pre as [|q pre IH]; intros open tr H Hp.
  - cbn [app waitForEnter forallb]. rewrite startPollEvents_spec, Hp.
    unfold keepsOpen. now rewrite andb_true_r.
  - inversion H as [|? ? Hq Hr]; subst.
    cbn [app waitForEnter forallb]. rewrite startPollEvents_spec, Hq.
    rewrite (IH _ _ Hr Hp). fold (keepsOpen q).
    destruct open, (keepsOpen q), (forallb keepsOpen (pre ++ [p]));
      cbn [andb negb]; rewrite <- ?app_assoc, ?app_nil_r; reflexivity.
Qed.

(** X15. [showStartScreen] draws the screen once and returns at the first
    turn at which Enter is held, and only then: a [Closed] event closes
    the window, once, but does not end the start screen.  When a [Closed]
    event came up to that turn, [main] runs no frame at all, whatever the
    inputs: it returns with the state of loop entry, the window closed,
    the trace holding the drawing of the start screen and the one
    [CloseWindow], and the score file untouched. *)
Theorem start_screen_waits_for_enter :
  (forall (polls : list StartPoll) (open : bool),
      Forall (fun p => enterPressed p = false) polls ->
      showStartScreen polls open = None)
  /\ (forall (pre post : list StartPoll) (p : StartPoll) (open : bool),
        Forall (fun q => enterPressed q = false) pre ->
        enterPressed p = true ->
        showStartScreen (pre ++ p :: post) open
        = Some (open && forallb keepsOpen (pre ++ [p]),
                DrawStartScreen startTitle startLore startPrompt
                :: (if open && negb (forallb keepsOpen (pre ++ [p]))
                    then [CloseWindow] else [])))
  /\ (forall (pre post : list StartPoll) (p : StartPoll)
             (initRand : nat -> Z * Z * Z) (t0 : Z) (file : option string)
             (inputs : list FrameInput),
        Forall (fun q => enterPressed q = false) pre ->
        enterPressed p = true ->
        main (pre ++ p :: post) initRand t0 file inputs
        = if forallb keepsOpen (pre ++ [p])
          then Some (run inputs
                       (emit [DrawStartScreen startTitle startLore startPrompt]
                             (init initRand t0 file)))
          else Some (emit [DrawStartScreen startTitle startLore startPrompt;
                           CloseWindow]
                          (set_windowOpen false (init initRand t0 file))))
  /\ (forall (initRand : nat -> Z * Z * Z) (t0 : Z) (file : option string),
        let g := emit [DrawStartScreen startTitle startLore startPrompt; CloseWindow]
                      (set_windowOpen false (init initRand t0 file)) in
        windowOpen g = false
        /\ trace g = [DrawStartScreen startTitle startLore startPrompt; CloseWindow]
        /\ scoreFile g = file
        /\ fileWrites (trace g) = 0%nat
        /\ player g = Player_new
        /\ enemies g = enemies (init initRand t0 file)
        /\ score g = 0 /\ killCount g = 0).
Proof.
  split; [|split; [|split]].
  - intros polls open H. unfold showStartScreen. now apply waitForEnter_waits.
  - intros pre post p open H Hp. unfold showStartScreen.
    rewrite (waitForEnter_returns pre post p open _ H Hp). reflexivity.
  - intros pre post p initRand t0 file inputs H Hp.
    unfold main, showStartScreen.
    rewrite (waitForEnter_returns pre post p true _ H Hp).
    cbn [andb]. destruct (forallb keepsOpen (pre ++ [p])); cbn [negb app].
    + reflexivity.
    + now rewrite run_closed.
  - intros initRand t0 file g. subst g. repeat split.
Qed.

(** ** Straight flight and pursuit *)

Lemma flown_refl_drop (bs : list Bullet) : flown bs [].
Proof. induction bs; constructor; assumption. Qed.

Lemma bulletLoop_flown (bs : list Bullet) : flown bs (bulletLoop bs).
Proof.
  induction bs as [|b rest IH]; cbn [bulletLoop]; [constructor|]. cbv zeta.
  destruct (outOfWindow _); constructor; exact IH.
Qed.

Lemma sublist_refl (l : list Bullet) : sublist l l.
Proof. induction l; constructor; assumption. Qed.

Lemma sublist_trans (a b c : list Bullet) : sublist a b -> sublist b c -> sublist a c.
Proof.
  intros H. revert c. induction H; intros c Hc.
  - exact Hc.
  - constructor. now apply IHsublist.
  - inversion Hc; subst; constructor; now apply IHsublist.
Qed.

Lemma flown_sublist (a b c : list Bullet) : flown a b -> sublist b c -> flown a c.
Proof.
  intros H. revert c. induction H; intros c Hc.
  - inversion Hc; subst. constructor.
  - constructor. now apply IHflown.
  - inversion Hc; subst; constructor; now apply IHflown.
Qed.

Lemma scanBullets_sublist (e : Entity) (bs : list Bullet) (sc kc : Z) :
  sublist bs (s_bullets (scanBullets e bs sc kc)).
Proof.
  induction bs as [|b rest IH]; cbn [scanBullets]; [constructor|].
  destruct (bulletHits e b); cbv zeta.
  - destruct (negb _); cbn [s_bullets]; constructor; apply sublist_refl.
  - cbn [s_bullets]. apply sublist_take. exact IH.
Qed.

Lemma enemyLoop_sublist (es : list Entity) (g : Game) :
  sublist (bullets g) (bullets (snd (enemyLoop es g))).
Proof.
  revert g. induction es as [|e es IH]; intros g; [apply sublist_refl|].
  rewrite enemyLoop_cons. cbv zeta.
  set (e1 := move _). set (r := scanBullets _ _ _ _). set (g1 := set_score _ _ _).
  assert (H1 : sublist (bullets g) (bullets g1)).
  { subst g1 r. cbn [bullets set_score set_bullets]. apply scanBullets_sublist. }
  destruct (s_dead r).
  - eapply sublist_trans; [exact H1|apply IH].
  - cbn [snd]. eapply sublist_trans; [exact H1|].
    set (g2 := if touchesPlayer _ _ then _ else _).
    assert (Hb : bullets g2 = bullets g1) by (subst g2; destruct (touchesPlayer _ _); reflexivity).
    rewrite <- Hb. apply IH.
Qed.

Lemma pollEvents_fired (evs : list Event) (g : Game) :
  exists new : list Bullet,
    bullets (pollEvents evs g) = bullets g ++ new
    /\ Forall (fun b => bpos b = position (player g)) new.
Proof.
  revert g. induction evs as [|ev rest IH]; intros g; cbn [pollEvents].
  - exists []. split; [now rewrite app_nil_r|constructor].
  - destruct (windowOpen g).
    + destruct (IH (handleEvent ev g)) as (new & Hn & Hf).
      destruct (handleEvent_keeps ev g) as (Hp & _). rewrite Hp in Hf.
      destruct (handleEvent_bullets ev g) as [Hb|Hb]; rewrite Hb in Hn.
      * exists new. split; assumption.
      * eexists (_ :: new). rewrite <- app_assoc in Hn. split; [exact Hn|].
        constructor; [|exact Hf].
        unfold Bullet_new. cbv zeta. cbn [bpos]. now destruct (position (player g)).
    + exists []. split; [now rewrite app_nil_r|constructor].
Qed.

(** X16. Bullets fly straight: those a frame fires are appended at the
    player's position, and every bullet in play at the end of the frame
    is one of those or an earlier one, moved exactly once by its own
    velocity, in the original order, with velocity, speed and radius
    unchanged. *)
Theorem bullets_fly_straight :
  forall (i : FrameInput) (g : Game),
    exists new : list Bullet,
      bullets (pollEvents (events i) g) = bullets g ++ new
      /\ Forall (fun b => bpos b = position (player g)) new
      /\ flown (bullets g ++ new) (bullets (frame i g))
      /\ forall b : Bullet,
           bpos (Bullet_move b) = vadd (bpos b) (bvel b)
           /\ bvel (Bullet_move b) = bvel b
           /\ bspeed (Bullet_move b) = bspeed b
           /\ bradius (Bullet_move b) = bradius b.
Proof.
  intros i g.
  destruct (pollEvents_fired (events i) g) as (new & Hn & Hf).
  exists new. split; [exact Hn|]. split; [exact Hf|]. split.
  - rewrite <- Hn, frame_bullets.
    eapply flown_sublist; [|apply enemyLoop_sublist].
    rewrite beforeEnemies_bullets. apply bulletLoop_flown.
  - intros b. repeat split.
Qed.

Lemma scanBullets_enemy_cases (e : Entity) (bs : list Bullet) (sc kc : Z) :
  s_enemy (scanBullets e bs sc kc) = e
  \/ s_enemy (scanBullets e bs sc kc) = takeDamage e 25.
Proof.
  destruct (scanBullets_enemy e bs sc kc) as [[H _]|[H _]]; [left|right]; exact H.
Qed.

Lemma enemyLoop_chased (es : list Entity) (g : Game) :
  chased (position (player g)) es (fst (enemyLoop es g)).
Proof.
  revert g. induction es as [|e es IH]; intros g; [constructor|].
  rewrite enemyLoop_cons. cbv zeta. unfold getPosition.
  set (e1 := move (Enemy_update (position (player g)) e)).
  set (r := scanBullets _ _ _ _). set (g1 := set_score _ _ _).
  assert (Hp1 : position (player g1) = position (player g)) by reflexivity.
  destruct (s_dead r).
  - constructor. rewrite <- Hp1. apply IH.
  - set (g2 := if touchesPlayer _ _ then _ else _).
    assert (Hp2 : position (player g2) = position (player g)).
    { subst g2. destruct (touchesPlayer _ _); reflexivity. }
    cbn [fst]. specialize (IH g2). rewrite Hp2 in IH.
    destruct (scanBullets_enemy_cases e1 (bullets g) (score g) (killCount g)) as [H|H];
      fold r in H; rewrite H; constructor; exact IH.
Qed.

(** X17. Enemies chase the player's new position: in a frame every enemy
    steers at the position the player has after its own move of that
    frame, which is the position the frame ends with, then moves once by
    the new velocity; an enemy kept may also have taken one hit.  A
    spawned enemy, if any, follows the enemies kept. *)
Theorem enemies_chase_new_position :
  forall (i : FrameInput) (g : Game),
    exists kept : list Entity,
      chased (position (player (frame i g))) (enemies g) kept
      /\ (enemies (frame i g) = kept
          \/ enemies (frame i g) = kept ++ [spawnEnemy (spawnRand i)])
      /\ position (player (frame i g))
         = vadd (position (player g)) (velocity (handleInput (keys i) (player g))).
Proof.
  intros i g.
  exists (enemies (updateEnemies (beforeEnemies i g))).
  destruct (frame_player_fields i g) as (Hpos & _).
  split; [|split; [|exact Hpos]].
  - rewrite updateEnemies_eq. cbn [enemies set_enemies].
    rewrite Hpos.
    pose proof (enemyLoop_chased (enemies (beforeEnemies i g)) (beforeEnemies i g)) as H.
    rewrite beforeEnemies_player in H.
    destruct (beforeEnemies_keeps i g) as (_ & He & _). rewrite He in H at 1.
    exact H.
  - rewrite frame_enemies. destruct (spawnDue _); [right|left]; reflexivity.
Qed.

(** ** A player at rest *)

Lemma handleInput_noKeys (p : Entity) : velocity (handleInput noKeys p) = vzero.
Proof. reflexivity. Qed.

Lemma centre_stays : vadd centre vzero = centre.
Proof. vm_compute. reflexivity. Qed.

Lemma frame_idle_position (i : FrameInput) (g : Game) :
  keys i = noKeys ->
  position (player g) = centre ->
  position (player (frame i g)) = centre.
Proof.
  intros Hk Hp. destruct (frame_player_fields i g) as (-> & _).
  rewrite Hk, handleInput_noKeys, Hp. apply centre_stays.
Qed.

Lemma run_zoneAfter (inputs : list FrameInput) (g : Game) (k : nat) :
  safeZone g = zoneAfter k ->
  exists k' : nat, safeZone (run inputs g) = zoneAfter k'.
Proof.
  revert g k. induction inputs as [|i rest IH]; intros g k H; [now exists k|].
  cbn [run]. destruct (windowOpen g); [|now exists k].
  apply (IH _ (S k)). now rewrite frame_safeZone, H, zoneAfter_S.
Qed.

Lemma centre_inside (k : nat) : isInside (zoneAfter k) centre = true.
Proof.
  destruct k as [|k]; [vm_compute; reflexivity|].
  pose proof (zoneAfter_stepOk k) as H. unfold zoneStepOk in H. cbv zeta in H.
  rewrite <- zoneAfter_S in H.
  apply andb_true_iff in H. exact (proj2 H).
Qed.

Lemma run_idle_position (inputs : list FrameInput) (g : Game) :
  idle inputs ->
  position (player g) = centre ->
  position (player (run inputs g)) = centre.
Proof.
  revert g. induction inputs as [|i rest IH]; intros g Hi Hp; [exact Hp|].
  inversion Hi as [|? ? Hk Hr]; subst.
  cbn [run]. destruct (windowOpen g); [|exact Hp].
  apply IH; [exact Hr|]. now apply frame_idle_position.
Qed.

(** X18. A player who never presses a movement key stays at the centre of
    the window, which the safe zone always contains: in such a session
    the zone never hurts the player, and each further idle frame takes
    exactly one point of health for each enemy in contact. *)
Theorem idle_player_is_safe_from_zone :
  forall (initRand : nat -> Z * Z * Z) (t0 : Z) (file : option string)
         (inputs : list FrameInput),
    idle inputs ->
    let g := run inputs (init initRand t0 file) in
    position (player g) = position Player_new
    /\ isInside (safeZone g) (position (player g)) = true
    /\ forall i : FrameInput,
         keys i = noKeys ->
         zoneDamage (frame i g) = 0
         /\ health (player (frame i g))
            = health (player g)
              - contacts (player (beforeEnemies i g))
                         (enemies (updateEnemies (beforeEnemies i g))).
Proof.
  intros initRand t0 file inputs Hi g.
  assert (Hp : position (player g) = centre).
  { apply run_idle_position; [exact Hi|reflexivity]. }
  destruct (run_zoneAfter inputs (init initRand t0 file) 0 eq_refl) as (k & Hk).
  fold g in Hk.
  split; [exact Hp|]. split; [rewrite Hk, Hp; apply centre_inside|].
  intros i Hn.
  assert (Hz : zoneDamage (frame i g) = 0).
  { unfold zoneDamage, getPosition.
    rewrite (frame_idle_position i g Hn Hp), frame_safeZone, Hk, <- zoneAfter_S.
    now rewrite centre_inside. }
  split; [exact Hz|].
  rewrite frame_health_eq, Hz. lia.
Qed.

Lemma idle_player_is_safe_from_zone_witness :
  position (player (run [idleFrame] initial)) = position Player_new.
Proof.
  refine (proj1 (idle_player_is_safe_from_zone (fun _ => (0, 0, 0)) 0 None [idleFrame] _)).
  constructor; [reflexivity|constructor].
Defined.

(** ** The direction of velocities *)

Lemma binary_round_aux_sign (s : bool) (m e : Z) (l : location) :
  0 <= m -> signOf (binary_round_aux 24 128 s m e l) = Some s.
Proof.
  intros Hm. unfold binary_round_aux, shr_fexp.
  pose proof (shr_m_nonneg (shr_record_of_loc m l) e
                (fexp 24 128 (Zdigits2 m + e) - e)) as H1.
  rewrite shr_record_of_loc_m in H1. specialize (H1 Hm).
  destruct (shr (shr_record_of_loc m l) e _) as [mrs' e']. cbn [fst] in H1.
  pose proof (round_nearest_even_bounds (shr_m mrs') (loc_of_shr_record mrs')) as Hr.
  set (m3 := round_nearest_even _ _) in *.
  pose proof (shr_m_nonneg (shr_record_of_loc m3 loc_Exact) e'
                (fexp 24 128 (Zdigits2 m3 + e') - e')) as H2.
  rewrite shr_record_of_loc_m in H2. specialize (H2 ltac:(lia)).
  destruct (shr (shr_record_of_loc m3 loc_Exact) e' _) as [mrs'' e''].
  cbn [fst] in H2.
  destruct (shr_m mrs'') as [|p|p]; try reflexivity; [|lia].
  now destruct (e'' <=? 128 - 24).
Qed.

Lemma gt_zero_cases (L : float) :
  F32.gt L F32.zero = true ->
  L = S754_infinity false \/ exists m e, L = S754_finite false m e.
Proof.
  unfold F32.gt, F32.zero.
  destruct L as [s|[]| |[] m e]; cbn; try discriminate; intros _.
  - now left.
  - right. now exists m, e.
Qed.

Lemma div_sign (d L : float) :
  isFinite d = true ->
  F32.gt L F32.zero = true ->
  signOf (F32.div d L) = signOf d.
Proof.
  intros Hd HL. destruct (gt_zero_cases L HL) as [->|(m & e & ->)].
  - destruct d as [s| | |s md ed]; try discriminate Hd;
      unfold F32.div; cbn [SFdiv signOf]; now rewrite xorb_false_r.
  - destruct d as [s| | |s md ed]; try discriminate Hd.
    + unfold F32.div. cbn [SFdiv signOf]. now rewrite xorb_false_r.
    + unfold F32.div. cbn [SFdiv signOf]. rewrite xorb_false_r.
      unfold SFdiv_core_binary.
      set (e' := Z.min _ _). set (sh := ed - e - e').
      set (m' := match sh with
                 | Zpos _ => Z.shiftl (Zpos md) sh | 0 => Zpos md | Zneg _ => 0 end).
      assert (Hm' : 0 <= m').
      { subst m'. destruct sh; try lia. apply Z.shiftl_nonneg. lia. }
      assert (Hq : 0 <= fst (Z.div_eucl m' (Zpos m))).
      { change (fst (Z.div_eucl m' (Zpos m))) with (m' / Zpos m).
        apply Z.div_pos; lia. }
      destruct (Z.div_eucl m' (Zpos m)) as [q r]. cbn [fst] in Hq.
      now apply binary_round_aux_sign.
Qed.

Lemma mul_sign (x : float) (m : positive) (e : Z) :
  signOf (F32.mul x (S754_finite false m e)) = signOf x.
Proof.
  destruct x as [s|s| |s mx ex]; unfold F32.mul; cbn [SFmul signOf];
    rewrite ?xorb_false_r; try reflexivity.
  now apply binary_round_aux_sign.
Qed.

Lemma scaled_sign (d L : float) (m : positive) (e : Z) :
  isFinite d = true ->
  F32.gt L F32.zero = true ->
  signOf (F32.mul (F32.div d L) (S754_finite false m e)) = signOf d.
Proof. intros Hd HL. now rewrite mul_sign, div_sign. Qed.

(** X19. [Enemy::update] never steers away from the player: for a
    finite offset to the player and a positive finite speed, either the
    enemy is left as it is (the length of the offset is not positive) or
    each component of the new velocity has the sign of the offset's
    component, and is a number; position, speed and health are kept. *)
Theorem enemy_velocity_points_at_player :
  forall (p : Vector2f) (e : Entity) (m : positive) (ex : Z),
    speed e = S754_finite false m ex ->
    isFinite (vx (vsub p (position e))) = true ->
    isFinite (vy (vsub p (position e))) = true ->
    (Enemy_update p e = e
     \/ (signOf (vx (velocity (Enemy_update p e))) = signOf (vx (vsub p (position e)))
         /\ signOf (vy (velocity (Enemy_update p e))) = signOf (vy (vsub p (position e)))))
    /\ position (Enemy_update p e) = position e
    /\ speed (Enemy_update p e) = speed e
    /\ health (Enemy_update p e) = health e.
Proof.
  intros p e m ex Hs Hx Hy. unfold Enemy_update. cbv zeta.
  destruct (F32.gt _ F32.zero) eqn:E.
  - split; [right|repeat split].
    cbn [velocity vscale vdiv vx vy]. rewrite Hs.
    split; apply scaled_sign; assumption.
  - split; [left; reflexivity|repeat split].
Qed.

Lemma enemy_velocity_points_at_player_witness :
  position (Enemy_update centre (enemyAt 0 0 50)) = position (enemyAt 0 0 50).
Proof.
  refine (proj1 (proj2 (enemy_velocity_points_at_player centre (enemyAt 0 0 50)
                          8388608 (-23) _ _ _))); vm_compute; reflexivity.
Defined.

(** X20. The [Bullet] constructor aims where it is told: for a finite
    direction, each component of the velocity has the sign of the
    direction's component, or the velocity is zero because the length is
    not positive; the bullet starts at the position given. *)
Theorem bullet_velocity_follows_direction :
  forall x y dirX dirY : float,
    isFinite dirX = true ->
    isFinite dirY = true ->
    (bvel (Bullet_new x y dirX dirY) = vzero
     \/ (signOf (vx (bvel (Bullet_new x y dirX dirY))) = signOf dirX
         /\ signOf (vy (bvel (Bullet_new x y dirX dirY))) = signOf dirY))
    /\ bpos (Bullet_new x y dirX dirY) = mkVec x y.
Proof.
  intros x y dirX dirY Hx Hy. unfold Bullet_new. cbv zeta. cbn [bvel bpos].
  split; [|reflexivity].
  destruct (F32.gt _ F32.zero) eqn:E; [right|left; reflexivity].
  cbn [vx vy].
  change BULLET_SPEED with (S754_finite false 14680064 (-21)).
  split; apply scaled_sign; assumption.
Qed.

Lemma bullet_velocity_follows_direction_witness :
  bpos (Bullet_new (F32.of_int 1) (F32.of_int 2) (F32.of_int 3) (F32.of_int (-4)))
  = mkVec (F32.of_int 1) (F32.of_int 2).
Proof.
  refine (proj2 (bullet_velocity_follows_direction (F32.of_int 1) (F32.of_int 2)
                   (F32.of_int 3) (F32.of_int (-4)) _ _)); vm_compute; reflexivity.
Defined.

(** ** Kills and enemies *)

Lemma frame_accounted (i : FrameInput) (g : Game) :
  killCount (frame i g) + Z.of_nat (List.length (enemies (frame i g)))
  = killCount g + Z.of_nat (List.length (enemies g))
    + (if spawnDue (beforeSpawn i g) then 1 else 0)
  /\ score (frame i g) - 10 * killCount (frame i g) = score g - 10 * killCount g
  /\ killCount g <= killCount (frame i g).
Proof.
  destruct (frame_score i g) as (H0 & Hs & Hk).
  rewrite Hs, Hk, frame_enemies. unfold killsInFrame in *.
  destruct (beforeEnemies_keeps i g) as (_ & He & _). rewrite He in *.
  split; [|split; lia].
  destruct (spawnDue (beforeSpawn i g)); [rewrite length_app; cbn [List.length]|]; lia.
Qed.

Lemma run_accounted (inputs : list FrameInput) (g : Game) :
  killCount g + Z.of_nat (List.length (enemies g))
  <= killCount (run inputs g) + Z.of_nat (List.length (enemies (run inputs g)))
  <= killCount g + Z.of_nat (List.length (enemies g)) + Z.of_nat (List.length inputs)
  /\ score (run inputs g) - 10 * killCount (run inputs g) = score g - 10 * killCount g
  /\ killCount g <= killCount (run inputs g).
Proof.
  revert g. induction inputs as [|i rest IH]; intros g.
  - cbn [run List.length]. lia.
  - cbn [run]. destruct (windowOpen g).
    + destruct (IH (frame i g)) as (H1 & H2 & H3).
      destruct (frame_accounted i g) as (F1 & F2 & F3).
      cbn [List.length]. destruct (spawnDue (beforeSpawn i g)); lia.
    + cbn [List.length]. lia.
Qed.

Lemma init_score (initRand : nat -> Z * Z * Z) (t0 : Z) (file : option string) :
  score (init initRand t0 file) = 0 /\ killCount (init initRand t0 file) = 0.
Proof. split; reflexivity. Qed.

(** X21. Enemies leave the list only by being killed, and at most one is
    created per frame: in a session of n frames the kill count plus the
    number of enemies on the list is at least 5 and at most 5 + n, so the
    kill count lies between 0 and 5 + n and the score between 0 and
    10 * (5 + n). *)
Theorem kills_and_enemies_are_accounted_for :
  forall (initRand : nat -> Z * Z * Z) (t0 : Z) (file : option string)
         (inputs : list FrameInput),
    let final := run inputs (init initRand t0 file) in
    let n := Z.of_nat (List.length inputs) in
    5 <= killCount final + Z.of_nat (List.length (enemies final)) <= 5 + n
    /\ 0 <= killCount final <= 5 + n
    /\ 0 <= score final <= 10 * (5 + n)
    /\ forall (i : FrameInput) (g : Game),
         killCount (frame i g) + Z.of_nat (List.length (enemies (frame i g)))
         = killCount g + Z.of_nat (List.length (enemies g))
           + (if spawnDue (beforeSpawn i g) then 1 else 0).
Proof.
  intros initRand t0 file inputs final n. subst final n.
  destruct (run_accounted inputs (init initRand t0 file)) as (H1 & H2 & H3).
  rewrite init_count in H1.
  destruct (init_score initRand t0 file) as (Hs & Hk).
  rewrite Hs, Hk in H2. rewrite Hk in H1, H3.
  split; [lia|]. split; [lia|]. split; [lia|].
  intros i g. exact (proj1 (frame_accounted i g)).
Qed.

(** ** The enemy pass of a frame *)

Lemma enemyLoop_app (pre post : list Entity) (g : Game) :
  enemyLoop (pre ++ post) g
  = (fst (enemyLoop pre g) ++ fst (enemyLoop post (snd (enemyLoop pre g))),
     snd (enemyLoop post (snd (enemyLoop pre g)))).
Proof.
  revert g. induction pre as [|e pre IH]; intros g.
  - cbn [app enemyLoop fst snd]. now destruct (enemyLoop post g).
  - cbn [app]. rewrite !enemyLoop_cons. cbv zeta.
    set (r := scanBullets _ _ _ _). set (g1 := set_score _ _ _).
    destruct (s_dead r); [apply IH|].
    set (g2 := if touchesPlayer _ _ then _ else _).
    rewrite (IH g2). cbn [fst snd app]. reflexivity.
Qed.

Lemma updateEnemies_split (h : Game) (pre post : list Entity) (e : Entity) :
  enemies h = pre ++ e :: post ->
  updateEnemies h
  = set_enemies
      (fst (enemyLoop pre h) ++ fst (enemyLoop (e :: post) (snd (enemyLoop pre h))))
      (snd (enemyLoop (e :: post) (snd (enemyLoop pre h)))).
Proof.
  intros H. rewrite updateEnemies_eq, H, enemyLoop_app. reflexivity.
Qed.

Lemma set_enemies_fields (es : list Entity) (g : Game) :
  enemies (set_enemies es g) = es
  /\ score (set_enemies es g) = score g
  /\ killCount (set_enemies es g) = killCount g
  /\ bullets (set_enemies es g) = bullets g.
Proof. repeat split. Qed.

Lemma frame_after_pass (i : FrameInput) (g : Game) :
  enemies (beforeEnemies i g) = enemies g
  /\ score (frame i g) = score (updateEnemies (beforeEnemies i g))
  /\ killCount (frame i g) = killCount (updateEnemies (beforeEnemies i g))
  /\ bullets (frame i g) = bullets (updateEnemies (beforeEnemies i g))
  /\ (enemies (frame i g) = enemies (updateEnemies (beforeEnemies i g))
      \/ enemies (frame i g)
         = enemies (updateEnemies (beforeEnemies i g)) ++ [spawnEnemy (spawnRand i)]).
Proof.
  split; [now destruct (beforeEnemies_keeps i g) as (_ & -> & _)|].
  rewrite frame_enemies, frame_unfold.
  destruct (gameOver_keeps (draw (spawn (spawnRand i) (beforeSpawn i g))))
    as (_ & _ & -> & -> & -> & _).
  destruct (draw_keeps (spawn (spawnRand i) (beforeSpawn i g)))
    as (_ & _ & -> & -> & -> & _).
  destruct (spawn_keeps (spawnRand i) (beforeSpawn i g)) as (_ & -> & -> & -> & _).
  unfold beforeSpawn.
  destruct (updateSafeZone_keeps (updateEnemies (beforeEnemies i g)))
    as (_ & _ & _ & -> & -> & -> & _).
  split; [reflexivity|]. split; [reflexivity|]. split; [reflexivity|].
  destruct (spawnDue _); [right|left]; reflexivity.
Qed.

Lemma pass_kill (h : Game) (pre post : list Entity) (e : Entity) (g1 : Game) :
  enemies h = pre ++ e :: post ->
  enemyLoop (e :: post) (snd (enemyLoop pre h)) = enemyLoop post g1 ->
  score g1 = score (snd (enemyLoop pre h)) + 10 ->
  killCount g1 = killCount (snd (enemyLoop pre h)) + 1 ->
  let keptPre := fst (enemyLoop pre h) in
  let keptPost := fst (enemyLoop post g1) in
  let others := Z.of_nat (List.length pre) - Z.of_nat (List.length keptPre)
                + (Z.of_nat (List.length post) - Z.of_nat (List.length keptPost)) in
  updateEnemies h = set_enemies (keptPre ++ keptPost) (snd (enemyLoop post g1))
  /\ enemies (updateEnemies h) = keptPre ++ keptPost
  /\ 0 <= others
  /\ score (updateEnemies h) = score h + 10 * (1 + others)
  /\ killCount (updateEnemies h) = killCount h + (1 + others)
  /\ sublist (bullets g1) (bullets (updateEnemies h)).
Proof.
  intros Hen Hloop Hs Hk keptPre keptPost others.
  assert (Hu : updateEnemies h
               = set_enemies (keptPre ++ keptPost) (snd (enemyLoop post g1))).
  { rewrite (updateEnemies_split h pre post e Hen), Hloop. reflexivity. }
  split; [exact Hu|]. rewrite Hu.
  destruct (set_enemies_fields (keptPre ++ keptPost) (snd (enemyLoop post g1)))
    as (-> & -> & -> & ->).
  destruct (enemyLoop_score pre h) as (P0 & Ps & Pk).
  destruct (enemyLoop_score post g1) as (Q0 & Qs & Qk).
  fold keptPre in P0, Ps, Pk. fold keptPost in Q0, Qs, Qk.
  split; [reflexivity|]. split; [subst others; lia|].
  split; [subst others; lia|]. split; [subst others; lia|].
  apply enemyLoop_sublist.
Qed.

Lemma pass_survive (h : Game) (pre post : list Entity) (e e' : Entity) (g2 : Game) :
  enemies h = pre ++ e :: post ->
  enemyLoop (e :: post) (snd (enemyLoop pre h))
  = (e' :: fst (enemyLoop post g2), snd (enemyLoop post g2)) ->
  score g2 = score (snd (enemyLoop pre h)) ->
  killCount g2 = killCount (snd (enemyLoop pre h)) ->
  let keptPre := fst (enemyLoop pre h) in
  let keptPost := fst (enemyLoop post g2) in
  let others := Z.of_nat (List.length pre) - Z.of_nat (List.length keptPre)
                + (Z.of_nat (List.length post) - Z.of_nat (List.length keptPost)) in
  updateEnemies h = set_enemies (keptPre ++ e' :: keptPost) (snd (enemyLoop post g2))
  /\ enemies (updateEnemies h) = keptPre ++ e' :: keptPost
  /\ 0 <= others
  /\ score (updateEnemies h) = score h + 10 * others
  /\ killCount (updateEnemies h) = killCount h + others
  /\ sublist (bullets g2) (bullets (updateEnemies h)).
Proof.
  intros Hen Hloop Hs Hk keptPre keptPost others.
  assert (Hu : updateEnemies h
               = set_enemies (keptPre ++ e' :: keptPost) (snd (enemyLoop post g2))).
  { rewrite (updateEnemies_split h pre post e Hen), Hloop. reflexivity. }
  split; [exact Hu|]. rewrite Hu.
  destruct (set_enemies_fields (keptPre ++ e' :: keptPost) (snd (enemyLoop post g2)))
    as (-> & -> & -> & ->).
  destruct (enemyLoop_score pre h) as (P0 & Ps & Pk).
  destruct (enemyLoop_score post g2) as (Q0 & Qs & Qk).
  fold keptPre in P0, Ps, Pk. fold keptPost in Q0, Qs, Qk.
  split; [reflexivity|]. split; [subst others; lia|].
  split; [subst others; lia|]. split; [subst others; lia|].
  apply enemyLoop_sublist.
Qed.

(** C1. In the enemy pass of a frame, when an enemy is visited (after the
    enemies before it and after its own move), the bullets still in play
    are scanned in order and the first one in range, i.e. with distance
    to the enemy below its radius plus 12, is the only one that takes
    effect: the enemy loses exactly 25, that bullet alone is erased and
    the scan stops, whatever the later bullets are.  If the enemy's
    health is then <= 0, the pass leaves the enemy off the list and the
    score 10 and the kill count 1 higher, beside the kills of the other
    enemies; otherwise the pass leaves the enemy on the list, in its
    place, with that one hit, and score and kills count the other
    enemies only.  Either way every bullet the pass leaves is one of
    those this scan left.  The frame ends with the score, the kill count
    and the bullets the pass leaves, and with its enemy list, followed
    by a spawned enemy if any. *)
Theorem first_bullet_in_range_hits :
  forall (h : Game) (pre post : list Entity) (e : Entity)
         (l1 l2 : list Bullet) (b : Bullet),
    let keptPre := fst (enemyLoop pre h) in
    let gk := snd (enemyLoop pre h) in
    let e1 := move (Enemy_update (getPosition (player gk)) e) in
    enemies h = pre ++ e :: post ->
    bullets gk = l1 ++ b :: l2 ->
    Forall (fun b' => bulletHits e1 b' = false) l1 ->
    bulletHits e1 b = true ->
    let r := scanBullets e1 (bullets gk) (score gk) (killCount gk) in
    bulletHits e1 b
    = F32.lt (F32.sqrt
                (F32.add
                   (F32.mul (F32.sub (vx (bpos b)) (vx (getPosition e1)))
                            (F32.sub (vx (bpos b)) (vx (getPosition e1))))
                   (F32.mul (F32.sub (vy (bpos b)) (vy (getPosition e1)))
                            (F32.sub (vy (bpos b)) (vy (getPosition e1))))))
             (F32.add (getRadius b) (F32.of_int 12))
    /\ s_enemy r = takeDamage e1 25
    /\ health (s_enemy r) = health e - 25
    /\ s_bullets r = l1 ++ l2
    /\ s_dead r = (health e - 25 <=? 0)
    /\ (health e - 25 <= 0 ->
        let g1 := set_score (score gk + 10) (killCount gk + 1)
                            (set_bullets (l1 ++ l2) gk) in
        let keptPost := fst (enemyLoop post g1) in
        let others := Z.of_nat (List.length pre) - Z.of_nat (List.length keptPre)
                      + (Z.of_nat (List.length post) - Z.of_nat (List.length keptPost)) in
        s_score r = score gk + 10 /\ s_kills r = killCount gk + 1
        /\ enemyLoop (e :: post) gk = enemyLoop post g1
        /\ updateEnemies h = set_enemies (keptPre ++ keptPost) (snd (enemyLoop post g1))
        /\ enemies (updateEnemies h) = keptPre ++ keptPost
        /\ 0 <= others
        /\ score (updateEnemies h) = score h + 10 * (1 + others)
        /\ killCount (updateEnemies h) = killCount h + (1 + others)
        /\ sublist (l1 ++ l2) (bullets (updateEnemies h)))
    /\ (0 < health e - 25 ->
        let g1 := set_score (score gk) (killCount gk) (set_bullets (l1 ++ l2) gk) in
        let g2 := if touchesPlayer (player g1) (takeDamage e1 25)
                  then set_player (takeDamage (player g1) 1) g1
                  else g1 in
        let keptPost := fst (enemyLoop post g2) in
        let others := Z.of_nat (List.length pre) - Z.of_nat (List.length keptPre)
                      + (Z.of_nat (List.length post) - Z.of_nat (List.length keptPost)) in
        s_score r = score gk /\ s_kills r = killCount gk
        /\ enemyLoop (e :: post) gk
           = (takeDamage e1 25 :: fst (enemyLoop post g2), snd (enemyLoop post g2))
        /\ updateEnemies h
           = set_enemies (keptPre ++ takeDamage e1 25 :: keptPost)
                         (snd (enemyLoop post g2))
        /\ enemies (updateEnemies h) = keptPre ++ takeDamage e1 25 :: keptPost
        /\ 0 <= others
        /\ score (updateEnemies h) = score h + 10 * others
        /\ killCount (updateEnemies h) = killCount h + others
        /\ sublist (l1 ++ l2) (bullets (updateEnemies h)))
    /\ (forall (i : FrameInput) (g : Game),
          h = beforeEnemies i g ->
          enemies h = enemies g
          /\ score (frame i g) = score (updateEnemies h)
          /\ killCount (frame i g) = killCount (updateEnemies h)
          /\ bullets (frame i g) = bullets (updateEnemies h)
          /\ (enemies (frame i g) = enemies (updateEnemies h)
              \/ enemies (frame i g)
                 = enemies (updateEnemies h) ++ [spawnEnemy (spawnRand i)])).
Proof.
  intros h pre post e l1 l2 b keptPre gk e1 Hen Hbs Hl1 Hb r.
  destruct (first_hit_scan gk e post l1 l2 b Hbs Hl1 Hb)
    as (S1 & S2 & S3 & S4 & S5 & Skill & Slive).
  fold e1 in S1, S2, S3, S4, S5. fold r in S2, S3, S4, S5.
  split; [exact S1|]. split; [exact S2|]. split; [exact S3|].
  split; [exact S4|]. split; [exact S5|].
  split; [|split].
  - intros Hle g1 keptPost others.
    destruct (Skill Hle) as (K1 & K2 & K3).
    split; [exact K1|]. split; [exact K2|]. split; [exact K3|].
    exact (pass_kill h pre post e g1 Hen K3 eq_refl eq_refl).
  - intros Hgt g1 g2 keptPost others.
    destruct (Slive Hgt) as (L1 & L2 & L3).
    split; [exact L1|]. split; [exact L2|]. split; [exact L3|].
    assert (Hg2 : score g2 = score gk /\ killCount g2 = killCount gk
                  /\ bullets g2 = l1 ++ l2).
    { subst g2. destruct (touchesPlayer _ _); repeat split. }
    destruct Hg2 as (G1 & G2 & G3).
    pose proof (pass_survive h pre post e (takeDamage e1 25) g2 Hen L3 G1 G2) as P.
    cbv zeta in P. rewrite G3 in P. exact P.
  - intros i g ->.
    destruct (frame_after_pass i g) as (F1 & F2 & F3 & F4 & F5).
    split; [exact F1|]. split; [exact F2|]. split; [exact F3|]. split; [exact F4|exact F5].
Qed.

Lemma first_bullet_in_range_hits_witness :
  let e := enemyAt 100 100 25 in
  let g := set_enemies [e]
             (set_bullets [bulletAt 500 500; bulletAt 100 100; bulletAt 101 101]
                          initial) in
  enemies (updateEnemies (beforeEnemies idleFrame g)) = []
  /\ score (frame idleFrame g) = 10
  /\ killCount (frame idleFrame g) = 1
  /\ bullets (frame idleFrame g) = [bulletAt 500 500; bulletAt 101 101].
Proof.
  intros e g.
  assert (H0 : enemies (beforeEnemies idleFrame g) = [] ++ e :: [])
    by (vm_compute; reflexivity).
  assert (H1 : bullets (snd (enemyLoop [] (beforeEnemies idleFrame g)))
               = [bulletAt 500 500] ++ bulletAt 100 100 :: [bulletAt 101 101])
    by (vm_compute; reflexivity).
  assert (H2 : Forall (fun b' =>
                         bulletHits
                           (move (Enemy_update
                                    (getPosition
                                       (player (snd (enemyLoop [] (beforeEnemies idleFrame g)))))
                                    e)) b' = false)
                      [bulletAt 500 500]).
  { constructor; [vm_compute; reflexivity|constructor]. }
  assert (H3 : bulletHits
                 (move (Enemy_update
                          (getPosition
                             (player (snd (enemyLoop [] (beforeEnemies idleFrame g)))))
                          e)) (bulletAt 100 100) = true)
    by (vm_compute; reflexivity).
  destruct (first_bullet_in_range_hits (beforeEnemies idleFrame g) [] [] e
              [bulletAt 500 500] [bulletAt 101 101] (bulletAt 100 100) H0 H1 H2 H3)
    as (_ & _ & _ & _ & _ & Hkill & _ & Hframe).
  destruct (Hkill ltac:(cbn; lia)) as (_ & _ & _ & Hu & He & _ & Hs & Hk & _).
  destruct (Hframe idleFrame g eq_refl) as (_ & F2 & F3 & F4 & _).
  rewrite F2, F3, F4, Hs, Hk, Hu.
  repeat split; vm_compute; reflexivity.
Defined.
